(** * Bandit-driven EV charging-station placement (PiEVNav_SmartCities)

    A shallow embedding of [src/rl_optimization/station_placement_rl.py]:
    the two bandit policies ([UCB_Bandit], [EpsilonGreedy_Bandit]), the
    reward function of [StationPlacementRL] with its three components, the
    materialisation of a placement from an arm, the candidate generator and
    the metrics written by [save_results].

    Modelling conventions.
    - A Python [float] is a real number ([R]); arithmetic is exact.  The one
      place where the source works with an infinite float
      ([min_dist = float('inf')]) is modelled with [option R] ([None] is
      [inf]), and a float that may stay infinite afterwards is a [pyfloat].
    - A Python exception is the [Raise] case of [outcome].
    - A [defaultdict] is a [gmap] with the default written out; reading a
      missing key inserts the default, as in Python.
    - The process-wide [random] module is an explicit stream of raw draws
      that every call consumes from. *)

From Stdlib Require Import Reals Lra Lia.
From stdpp Require Import gmap strings list fin_maps pretty.

(** ** Python outcomes *)

Inductive exn : Set :=
  | ZeroDivisionError
  | ValueError
  | TypeError
  | StopIteration.

Inductive outcome (A : Type) : Type :=
  | Return (a : A)
  | Raise (e : exn).
Arguments Return {A} a.
Arguments Raise {A} e.

#[global] Instance outcome_ret : MRet outcome := fun A a => Return a.

#[global] Instance outcome_bind : MBind outcome := fun A B k m =>
  match m with
  | Return a => k a
  | Raise e => Raise e
  end.

(** A float that can be infinite or NaN.  Only finite values carry a real. *)
Inductive pyfloat : Type :=
  | Fin (r : R)
  | NonFinite.

Definition fadd (a b : pyfloat) : pyfloat :=
  match a, b with
  | Fin x, Fin y => Fin (x + y)
  | _, _ => NonFinite
  end.

Definition fmul (a b : pyfloat) : pyfloat :=
  match a, b with
  | Fin x, Fin y => Fin (x * y)
  | _, _ => NonFinite
  end.

Definition fopp (a : pyfloat) : pyfloat :=
  match a with
  | Fin x => Fin (- x)
  | NonFinite => NonFinite
  end.

(** [x / n] for an [int] divisor [n]: Python raises on [n = 0]. *)
Definition fdiv_int (a : pyfloat) (n : nat) : outcome pyfloat :=
  match n with
  | O => Raise ZeroDivisionError
  | S _ => Return (match a with Fin x => Fin (x / INR n) | NonFinite => NonFinite end)
  end.

Definition rdiv_int (x : R) (n : nat) : outcome R :=
  match n with
  | O => Raise ZeroDivisionError
  | S _ => Return (x / INR n)%R
  end.

(** [float('inf')] as the start of a running minimum: [None]. *)
Definition inf : option R := None.

(** [min(min_dist, dist)] with [min_dist] possibly still [inf]. *)
Definition pymin (min_dist : option R) (dist : R) : option R :=
  match min_dist with
  | None => Some dist
  | Some m => Some (Rmin m dist)
  end.

(** [min_dist * w]: [inf * w] is [inf], [-inf] or [nan], never finite. *)
Definition scale (min_dist : option R) (w : R) : pyfloat :=
  match min_dist with
  | Some m => Fin (m * w)
  | None => NonFinite
  end.

(** [np.mean] of a non-empty list. *)
Definition Rsum (l : list R) : R := fold_left Rplus l 0%R.
Definition np_mean (l : list R) : R := (Rsum l / INR (length l))%R.

(** ** The random source *)

Definition rng : Type := nat -> N.

Definition next_raw (g : rng) : N * rng := (g O, fun n => g (S n)).

(** [random.random()]: a multiple of [2^-53] in the unit interval. *)
Definition random_random (g : rng) : R * rng :=
  let '(x, g') := next_raw g in
  ((IZR (Z.of_N (x mod 2 ^ 53)) / IZR (2 ^ 53))%R, g').

(** [random.uniform(a, b)] is [a + (b - a) * random()]. *)
Definition random_uniform (a b : R) (g : rng) : R * rng :=
  let '(u, g') := random_random g in
  ((a + (b - a) * u)%R, g').

(** [random.choice(seq)] on a non-empty sequence. *)
Definition random_choice {A : Type} (seq : list A) (g : rng) : option A * rng :=
  let '(x, g') := next_raw g in
  (seq !! N.to_nat (x mod N.of_nat (length seq)), g').

(** ** Data *)

Inductive kind : Set :=
  | strategic
  | grid
  | random.

#[global] Instance kind_eq_dec : EqDecision kind.
Proof. solve_decision. Defined.

Record DemandCenter : Type := mkCenter {
  dc_lat : R;
  dc_lon : R;
  dc_weight : R;
  dc_name : string
}.

Record Arm : Type := mkArm {
  arm_id : string;
  arm_lat : R;
  arm_lon : R;
  arm_type : kind;
  arm_name : string
}.

Record Station : Type := mkStation {
  station_id : string;
  st_lat : R;
  st_lon : R;
  st_name : string;
  st_type : kind
}.

Record CityBounds : Type := mkBounds {
  min_lat : R;
  max_lat : R;
  min_lon : R;
  max_lon : R
}.

(** ** Geometry *)

Section Geometry.
Local Open Scope R_scope.

Definition radians (x : R) : R := x * (PI / 180).

Definition atan2 (y x : R) : R :=
  if Rlt_dec 0 x then atan (y / x)
  else if Rlt_dec x 0 then
    (if Rle_dec 0 y then atan (y / x) + PI else atan (y / x) - PI)
  else if Rlt_dec 0 y then PI / 2
  else if Rlt_dec y 0 then - (PI / 2)
  else 0.

Definition _haversine_distance (lat1 lon1 lat2 lon2 : R) : R :=
  let R0 := 6371 in
  let lat1_rad := radians lat1 in
  let lat2_rad := radians lat2 in
  let dlat := radians (lat2 - lat1) in
  let dlon := radians (lon2 - lon1) in
  let a := (sin (dlat / 2)) ^ 2
           + cos lat1_rad * cos lat2_rad * (sin (dlon / 2)) ^ 2 in
  let c := 2 * atan2 (sqrt a) (sqrt (1 - a)) in
  R0 * c.

End Geometry.

(** ** defaultdict *)

(** [d[k]] on a [defaultdict]: a missing key is inserted with the default. *)
Definition dd_get {V : Type} (default : V) (k : string) (d : gmap string V)
  : V * gmap string V :=
  match d !! k with
  | Some v => (v, d)
  | None => (default, <[k := default]> d)
  end.

(** The value [d[k]] reads, without the insertion. *)
Definition dd_peek {V : Type} (default : V) (k : string) (d : gmap string V) : V :=
  match d !! k with
  | Some v => v
  | None => default
  end.

(** A plain [dict] in insertion order: [d[k] = v]. *)
Fixpoint dict_set {V : Type} (k : string) (v : V) (d : list (string * V))
  : list (string * V) :=
  match d with
  | [] => [(k, v)]
  | (k', v') :: rest =>
      if decide (k' = k) then (k', v) :: rest else (k', v') :: dict_set k v rest
  end.

(** [max(d, key=d.get)]: the first key whose value no later one exceeds. *)
Fixpoint max_by_value (best : string * R) (d : list (string * R)) : string * R :=
  match d with
  | [] => best
  | (k, v) :: rest =>
      if Rlt_dec (snd best) v then max_by_value (k, v) rest
      else max_by_value best rest
  end.

Definition dict_argmax (d : list (string * R)) : option string :=
  match d with
  | [] => None
  | kv :: rest => Some (fst (max_by_value kv rest))
  end.

(** ** UCB bandit *)

Module UCB_Bandit.

Record t : Type := mk {
  c : R;
  counts : gmap string nat;
  rewards : gmap string (list R);
  total_pulls : nat
}.

(** [__init__] *)
Definition init (exploration_param : R) : t :=
  {| c := exploration_param; counts := ∅; rewards := ∅; total_pulls := 0 |}.

Definition default : t := init 2.

(** [[arm for arm in arms if self.counts[arm['id']] == 0]], with the counts
    dictionary as the reads leave it. *)
Fixpoint untried_arms (arms : list Arm) (cnts : gmap string nat)
  : list Arm * gmap string nat :=
  match arms with
  | [] => ([], cnts)
  | arm :: rest =>
      let '(n, cnts1) := dd_get 0 (arm_id arm) cnts in
      let '(l, cnts2) := untried_arms rest cnts1 in
      (if decide (n = 0) then arm :: l else l, cnts2)
  end.

(** One round of the loop that fills [ucb_values]. *)
Definition ucb_value (self : t) (arm : Arm) : outcome R * t :=
  let arm_id := arm_id arm in
  let '(hist, rewards1) := dd_get [] arm_id (rewards self) in
  let avg_reward := match hist with [] => 0%R | _ => np_mean hist end in
  let self1 := {| c := c self; counts := counts self; rewards := rewards1;
                  total_pulls := total_pulls self |} in
  match total_pulls self with
  | O => (Raise ValueError, self1)                 (* math.log(0) *)
  | S _ =>
      let '(n, counts1) := dd_get 0 arm_id (counts self) in
      let self2 := {| c := c self; counts := counts1; rewards := rewards1;
                      total_pulls := total_pulls self |} in
      match n with
      | O => (Raise ZeroDivisionError, self2)
      | S _ =>
          let q := (ln (INR (total_pulls self)) / INR n)%R in
          if Rlt_dec q 0 then (Raise ValueError, self2)   (* math.sqrt *)
          else (Return (avg_reward + c self * sqrt q)%R, self2)
      end
  end.

Fixpoint ucb_values (self : t) (arms : list Arm) (acc : list (string * R))
  : outcome (list (string * R)) * t :=
  match arms with
  | [] => (Return acc, self)
  | arm :: rest =>
      match ucb_value self arm with
      | (Return v, self1) => ucb_values self1 rest (dict_set (arm_id arm) v acc)
      | (Raise e, self1) => (Raise e, self1)
      end
  end.

(** [select_arm]: the selected arm ([None] is Python's [None]), the bandit
    and the random source afterwards. *)
Definition select_arm (self : t) (arms : list Arm) (g : rng)
  : outcome (option Arm) * t * rng :=
  match arms with
  | [] => (Return None, self, g)
  | _ :: _ =>
      let '(untried, counts1) := untried_arms arms (counts self) in
      let self1 := {| c := c self; counts := counts1; rewards := rewards self;
                      total_pulls := total_pulls self |} in
      match untried with
      | _ :: _ =>
          let '(a, g1) := random_choice untried g in
          (Return a, self1, g1)
      | [] =>
          match ucb_values self1 arms [] with
          | (Raise e, self2) => (Raise e, self2, g)
          | (Return values, self2) =>
              match dict_argmax values with
              | None => (Raise ValueError, self2, g)   (* max() of an empty dict *)
              | Some best_arm_id =>
                  match find (fun arm => bool_decide (arm_id arm = best_arm_id)) arms with
                  | Some arm => (Return (Some arm), self2, g)
                  | None => (Raise StopIteration, self2, g)   (* next() *)
                  end
              end
          end
      end
  end.

(** [update] *)
Definition update (self : t) (arm : Arm) (reward : R) : t :=
  let arm_id := arm_id arm in
  let '(n, counts1) := dd_get 0 arm_id (counts self) in
  let counts2 := <[arm_id := n + 1]> counts1 in
  let '(hist, rewards1) := dd_get [] arm_id (rewards self) in
  let rewards2 := <[arm_id := hist ++ [reward]]> rewards1 in
  {| c := c self; counts := counts2; rewards := rewards2;
     total_pulls := total_pulls self + 1 |}.

(** The loop of [get_best_arm]: the best arm so far with its mean ([None]
    stands for [best_arm = None], [best_avg = -inf]). *)
Fixpoint best_avg_loop (arms : list Arm) (rwds : gmap string (list R))
    (best : option (Arm * R)) : option (Arm * R) * gmap string (list R) :=
  match arms with
  | [] => (best, rwds)
  | arm :: rest =>
      let '(hist, rwds1) := dd_get [] (arm_id arm) rwds in
      match hist with
      | [] => best_avg_loop rest rwds1 best
      | _ :: _ =>
          let avg_reward := np_mean hist in
          match best with
          | None => best_avg_loop rest rwds1 (Some (arm, avg_reward))
          | Some (_, best_avg) =>
              if Rlt_dec best_avg avg_reward
              then best_avg_loop rest rwds1 (Some (arm, avg_reward))
              else best_avg_loop rest rwds1 best
          end
      end
  end.

(** [get_best_arm] *)
Definition get_best_arm (self : t) (arms : list Arm) : option Arm * t :=
  match arms with
  | [] => (None, self)
  | first :: _ =>
      let '(best, rewards1) := best_avg_loop arms (rewards self) None in
      let self1 := {| c := c self; counts := counts self; rewards := rewards1;
                      total_pulls := total_pulls self |} in
      (Some (match best with
             | Some (best_arm, _) => best_arm
             | None => first
             end), self1)
  end.

End UCB_Bandit.

(** ** Epsilon-greedy bandit *)

Module EpsilonGreedy_Bandit.

Record t : Type := mk {
  epsilon : R;
  initial_epsilon : R;
  epsilon_decay : R;
  rewards : gmap string (list R);
  counts : gmap string nat
}.

(** [__init__] *)
Definition init (eps decay : R) : t :=
  {| epsilon := eps; initial_epsilon := eps; epsilon_decay := decay;
     rewards := ∅; counts := ∅ |}.

Definition default : t := init 0.3 0.95.

(** The exploitation loop: the best arm so far and its mean ([None] stands
    for [best_arm = None], [best_avg = -inf]). *)
Fixpoint exploit (arms : list Arm) (rwds : gmap string (list R))
    (best : option (Arm * R)) : option (Arm * R) * gmap string (list R) :=
  match arms with
  | [] => (best, rwds)
  | arm :: rest =>
      let '(hist, rwds1) := dd_get [] (arm_id arm) rwds in
      match hist with
      | [] => exploit rest rwds1 best
      | _ :: _ =>
          let avg_reward := np_mean hist in
          match best with
          | None => exploit rest rwds1 (Some (arm, avg_reward))
          | Some (_, best_avg) =>
              if Rlt_dec best_avg avg_reward
              then exploit rest rwds1 (Some (arm, avg_reward))
              else exploit rest rwds1 best
          end
      end
  end.

Definition select_arm (self : t) (arms : list Arm) (g : rng)
  : outcome (option Arm) * t * rng :=
  match arms with
  | [] => (Return None, self, g)
  | _ :: _ =>
      let '(u, g1) := random_random g in
      if Rlt_dec u (epsilon self) then
        let '(a, g2) := random_choice arms g1 in
        (Return a, self, g2)
      else
        let '(best, rewards1) := exploit arms (rewards self) None in
        let self1 := {| epsilon := epsilon self;
                        initial_epsilon := initial_epsilon self;
                        epsilon_decay := epsilon_decay self;
                        rewards := rewards1; counts := counts self |} in
        match best with
        | Some (best_arm, _) => (Return (Some best_arm), self1, g1)
        | None =>
            let '(a, g2) := random_choice arms g1 in
            (Return a, self1, g2)
        end
  end.

Definition update (self : t) (arm : Arm) (reward : R) : t :=
  let arm_id := arm_id arm in
  let '(n, counts1) := dd_get 0 arm_id (counts self) in
  let counts2 := <[arm_id := n + 1]> counts1 in
  let '(hist, rewards1) := dd_get [] arm_id (rewards self) in
  let rewards2 := <[arm_id := hist ++ [reward]]> rewards1 in
  {| epsilon := epsilon self; initial_epsilon := initial_epsilon self;
     epsilon_decay := epsilon_decay self;
     rewards := rewards2; counts := counts2 |}.

Definition decay_epsilon (self : t) : t :=
  {| epsilon := Rmax 0.1 (epsilon self * epsilon_decay self);
     initial_epsilon := initial_epsilon self;
     epsilon_decay := epsilon_decay self;
     rewards := rewards self; counts := counts self |}.

End EpsilonGreedy_Bandit.

(** ** The placement system *)

Module StationPlacementRL.

(** The station and episode counts are counts: natural numbers. *)
Record t : Type := mk {
  num_stations : nat;
  num_episodes : nat;
  city_bounds : CityBounds;
  ucb_bandit : UCB_Bandit.t;
  epsilon_bandit : EpsilonGreedy_Bandit.t;
  demand_centers : list DemandCenter;
  episode_rewards : list R
}.

Section Init.
Local Open Scope R_scope.

Definition bhubaneswar_bounds : CityBounds :=
  {| min_lat := 20.20; max_lat := 20.40; min_lon := 85.70; max_lon := 85.95 |}.

Definition bhubaneswar_centers : list DemandCenter :=
  [ mkCenter 20.2961 85.8245 1.0 "City Center";
    mkCenter 20.2644 85.8281 0.9 "KIIT Area";
    mkCenter 20.3100 85.8500 0.8 "Patia IT Hub";
    mkCenter 20.2500 85.8500 0.7 "Railway Station";
    mkCenter 20.3000 85.8800 0.6 "Airport Area" ].

(** [__init__] *)
Definition init (num_stations num_episodes : nat) : t :=
  {| num_stations := num_stations;
     num_episodes := num_episodes;
     city_bounds := bhubaneswar_bounds;
     ucb_bandit := UCB_Bandit.init 2.0;
     epsilon_bandit := EpsilonGreedy_Bandit.init 0.3 0.95;
     demand_centers := bhubaneswar_centers;
     episode_rewards := [] |}.

End Init.

(** The defaults of [__init__], as [main] uses them. *)
Definition default : t := init 25 10.

(** [f'{n:02d}'] *)
Definition fmt_02d (n : nat) : string :=
  if decide (n < 10) then "0" +:+ pretty n else pretty n.

(** [np.clip(x, lo, hi)] *)
Definition np_clip (x lo hi : R) : R := Rmin (Rmax x lo) hi.

(** [int(np.ceil(np.sqrt(n)))] *)
Definition grid_size_of (n : nat) : nat := Nat.sqrt_up n.

Section Candidates.
Local Open Scope R_scope.

Definition strategic_candidate (i : nat) (center : DemandCenter) : Arm :=
  {| arm_id := "strategic_" +:+ pretty i;
     arm_lat := dc_lat center;
     arm_lon := dc_lon center;
     arm_type := strategic;
     arm_name := dc_name center |}.

Definition grid_candidate (self : t) (i : nat) (g : rng) : Arm * rng :=
  let grid_size := grid_size_of (num_stations self) in
  let b := city_bounds self in
  let lat_range := max_lat b - min_lat b in
  let lon_range := max_lon b - min_lon b in
  let row := (i / grid_size)%nat in
  let col := (i mod grid_size)%nat in
  let lat := min_lat b + (INR row / INR grid_size) * lat_range in
  let lon := min_lon b + (INR col / INR grid_size) * lon_range in
  let '(j1, g1) := random_uniform (-0.01) 0.01 g in
  let lat := lat + j1 in
  let '(j2, g2) := random_uniform (-0.01) 0.01 g1 in
  let lon := lon + j2 in
  ({| arm_id := "grid_" +:+ pretty i;
      arm_lat := np_clip lat (min_lat b) (max_lat b);
      arm_lon := np_clip lon (min_lon b) (max_lon b);
      arm_type := grid;
      arm_name := "Grid Station " +:+ pretty (i + 1)%nat |}, g2).

Definition random_candidate (self : t) (i : nat) (g : rng) : Arm * rng :=
  let b := city_bounds self in
  let '(lat, g1) := random_uniform (min_lat b) (max_lat b) g in
  let '(lon, g2) := random_uniform (min_lon b) (max_lon b) g1 in
  ({| arm_id := "random_" +:+ pretty i;
      arm_lat := lat;
      arm_lon := lon;
      arm_type := random;
      arm_name := "Random Station " +:+ pretty (i + 1)%nat |}, g2).

(** [for i in range(n): candidates.append(body(i))], the body drawing from
    the random source. *)
Fixpoint for_range {A : Type} (body : nat -> rng -> A * rng)
    (idxs : list nat) (acc : list A) (g : rng) : list A * rng :=
  match idxs with
  | [] => (acc, g)
  | i :: rest =>
      let '(x, g1) := body i g in
      for_range body rest (acc ++ [x]) g1
  end.

Definition generate_candidate_placements (self : t) (g : rng) : list Arm * rng :=
  let candidates :=
    imap strategic_candidate (take (num_stations self) (demand_centers self)) in
  let '(candidates, g1) :=
    for_range (grid_candidate self) (seq 0 (num_stations self)) candidates g in
  for_range (random_candidate self) (seq 0 (num_stations self)) candidates g1.

End Candidates.

Section Materialise.
Local Open Scope R_scope.

Definition strategic_station (i : nat) (center : DemandCenter) : Station :=
  {| station_id := "ST" +:+ fmt_02d (i + 1)%nat;
     st_lat := dc_lat center;
     st_lon := dc_lon center;
     st_name := dc_name center;
     st_type := strategic |}.

Definition grid_station (self : t) (i : nat) : Station :=
  let grid_size := grid_size_of (num_stations self) in
  let b := city_bounds self in
  let lat_range := max_lat b - min_lat b in
  let lon_range := max_lon b - min_lon b in
  let row := (i / grid_size)%nat in
  let col := (i mod grid_size)%nat in
  let lat := min_lat b + (INR row / INR grid_size) * lat_range in
  let lon := min_lon b + (INR col / INR grid_size) * lon_range in
  {| station_id := "ST" +:+ fmt_02d (i + 1)%nat;
     st_lat := lat;
     st_lon := lon;
     st_name := "Grid Station " +:+ pretty (i + 1)%nat;
     st_type := grid |}.

Definition random_station (self : t) (i : nat) (g : rng) : Station * rng :=
  let b := city_bounds self in
  let '(lat, g1) := random_uniform (min_lat b) (max_lat b) g in
  let '(lon, g2) := random_uniform (min_lon b) (max_lon b) g1 in
  ({| station_id := "ST" +:+ fmt_02d (i + 1)%nat;
      st_lat := lat;
      st_lon := lon;
      st_name := "Random Station " +:+ pretty (i + 1)%nat;
      st_type := random |}, g2).

(** [_create_placement_from_arm]; [arm] is [None] when the selection
    returned Python's [None], and [arm['type']] then raises. *)
Definition _create_placement_from_arm (self : t) (arm : option Arm) (g : rng)
  : outcome (list Station) * rng :=
  match arm with
  | None => (Raise TypeError, g)
  | Some arm =>
      match arm_type arm with
      | strategic =>
          (Return (imap strategic_station
                     (take (num_stations self) (demand_centers self))), g)
      | grid =>
          (Return (map (grid_station self) (seq 0 (num_stations self))), g)
      | random =>
          let '(placement, g1) :=
            for_range (random_station self) (seq 0 (num_stations self)) [] g in
          (Return placement, g1)
      end
  end.

End Materialise.

Section Reward.
Local Open Scope R_scope.

Definition distance_to (center : DemandCenter) (station : Station) : R :=
  _haversine_distance (dc_lat center) (dc_lon center) (st_lat station) (st_lon station).

(** The inner loop over the stations: the running minimum from [inf]. *)
Definition min_dist_loop (center : DemandCenter) (stations : list Station) : option R :=
  fold_left (fun min_dist station => pymin min_dist (distance_to center station))
            stations inf.

(** The inner loop of [_calculate_coverage]: [true] when it leaves through
    [break]. *)
Fixpoint within_2km (center : DemandCenter) (stations : list Station) : bool :=
  match stations with
  | [] => false
  | station :: rest =>
      if Rle_dec (distance_to center station) 2.0 then true
      else within_2km center rest
  end.

Definition _calculate_coverage (self : t) (stations : list Station) : outcome R :=
  match stations with
  | [] => Return 0.0
  | _ :: _ =>
      let covered_centers :=
        fold_left (fun covered center =>
                     if within_2km center stations then (covered + 1)%nat else covered)
                  (demand_centers self) 0%nat in
      rdiv_int (INR covered_centers) (length (demand_centers self))
  end.

Definition station_distance (s1 s2 : Station) : R :=
  _haversine_distance (st_lat s1) (st_lon s1) (st_lat s2) (st_lon s2).

(** The double loop of [_calculate_spread] over [(total_dist, count)];
    [stations[i+1:]] is the tail after [s1]. *)
Fixpoint spread_loop (stations : list Station) (acc : R * nat) : R * nat :=
  match stations with
  | [] => acc
  | s1 :: rest =>
      spread_loop rest
        (fold_left (fun '(total_dist, count) s2 =>
                      (total_dist + station_distance s1 s2, (count + 1)%nat))
                   rest acc)
  end.

Definition _calculate_spread (stations : list Station) : R :=
  if decide (length stations < 2)%nat then 0.0
  else
    let '(total_dist, count) := spread_loop stations (0.0, 0%nat) in
    let avg_dist := if decide (0 < count)%nat then total_dist / INR count else 0.0 in
    if Rlt_dec avg_dist 1.0 then 0.0
    else if Rlt_dec 5.0 avg_dist then 1.0
    else avg_dist / 5.0.

(** The three locals [avg_distance], [coverage] and [spread] of
    [calculate_reward], for a placement that passed the emptiness test. *)
Definition reward_components (self : t) (placement : list Station)
  : outcome (pyfloat * R * R) :=
  let total_distance :=
    fold_left (fun total center =>
                 fadd total (scale (min_dist_loop center placement) (dc_weight center)))
              (demand_centers self) (Fin 0.0) in
  avg_distance ← fdiv_int total_distance (length (demand_centers self));
  coverage ← _calculate_coverage self placement;
  let spread := _calculate_spread placement in
  Return (avg_distance, coverage, spread).

Definition calculate_reward (self : t) (placement : list Station) : outcome pyfloat :=
  match placement with
  | [] => Return (Fin (-1000.0))
  | _ :: _ =>
      '(avg_distance, coverage, spread) ← reward_components self placement;
      let distance_score := fmul (fopp avg_distance) (Fin 10) in
      let coverage_score := coverage * 100 in
      let spread_score := spread * 50 in
      Return (fadd (fadd distance_score (Fin coverage_score)) (Fin spread_score))
  end.

(** [_calculate_avg_distance_to_demand] *)
Definition _calculate_avg_distance_to_demand (self : t) (stations : list Station)
  : outcome pyfloat :=
  let total :=
    fold_left (fun total center =>
                 fadd total (match min_dist_loop center stations with
                             | Some m => Fin m
                             | None => NonFinite
                             end))
              (demand_centers self) (Fin 0.0) in
  fdiv_int total (length (demand_centers self)).

End Reward.

(** ** The exported record *)

Record Metrics : Type := mkMetrics {
  coverage : R;
  avg_distance : pyfloat;
  spread : R
}.

Record Results : Type := mkResults {
  r_city : string;
  r_algorithm : string;
  r_num_stations : nat;
  r_num_episodes : nat;
  r_episode_rewards : list R;
  r_final_reward : R;
  r_stations : list Station;
  r_metrics : Metrics
}.

(** [max(l)] of a non-empty list of floats. *)
Definition py_max (x : R) (l : list R) : R := fold_left Rmax l x.

(** [save_results]: the record handed to [json.dump]. *)
Definition save_results (self : t) (placement : list Station) : outcome Results :=
  let final_reward :=
    match episode_rewards self with
    | [] => 0%R
    | x :: rest => py_max x rest
    end in
  cov ← _calculate_coverage self placement;
  avg ← _calculate_avg_distance_to_demand self placement;
  let spr := _calculate_spread placement in
  Return {| r_city := "Bhubaneswar";
            r_algorithm := "RL (Multi-Armed Bandit)";
            r_num_stations := length placement;
            r_num_episodes := num_episodes self;
            r_episode_rewards := episode_rewards self;
            r_final_reward := final_reward;
            r_stations := placement;
            r_metrics := {| coverage := cov; avg_distance := avg; spread := spr |} |}.

(** ** The optimization loop *)

(** What a run ends in.  [Unrepresentable] stands for a reward that is not
    a finite float, which the bandits of this model cannot store. *)
Inductive run_result (A : Type) : Type :=
  | Finished (a : A)
  | Failed (e : exn)
  | Unrepresentable.
Arguments Finished {A} a.
Arguments Failed {A} e.
Arguments Unrepresentable {A}.

Definition with_ucb (self : t) (b : UCB_Bandit.t) : t :=
  {| num_stations := num_stations self; num_episodes := num_episodes self;
     city_bounds := city_bounds self; ucb_bandit := b;
     epsilon_bandit := epsilon_bandit self;
     demand_centers := demand_centers self;
     episode_rewards := episode_rewards self |}.

Definition with_epsilon (self : t) (b : EpsilonGreedy_Bandit.t) : t :=
  {| num_stations := num_stations self; num_episodes := num_episodes self;
     city_bounds := city_bounds self; ucb_bandit := ucb_bandit self;
     epsilon_bandit := b;
     demand_centers := demand_centers self;
     episode_rewards := episode_rewards self |}.

Definition with_episode_reward (self : t) (reward : R) : t :=
  {| num_stations := num_stations self; num_episodes := num_episodes self;
     city_bounds := city_bounds self; ucb_bandit := ucb_bandit self;
     epsilon_bandit := epsilon_bandit self;
     demand_centers := demand_centers self;
     episode_rewards := episode_rewards self ++ [reward] |}.

(** [bandit.select_arm(candidates)], [bandit] being [self.ucb_bandit] when
    [algorithm == 'ucb'] and [self.epsilon_bandit] otherwise. *)
Definition bandit_select (self : t) (algorithm : string) (candidates : list Arm)
    (g : rng) : outcome (option Arm) * t * rng :=
  if decide (algorithm = "ucb") then
    let '(r, b, g1) := UCB_Bandit.select_arm (ucb_bandit self) candidates g in
    (r, with_ucb self b, g1)
  else
    let '(r, b, g1) := EpsilonGreedy_Bandit.select_arm (epsilon_bandit self) candidates g in
    (r, with_epsilon self b, g1).

(** [bandit.update(selected_arm, reward)] *)
Definition bandit_update (self : t) (algorithm : string) (arm : Arm) (reward : R) : t :=
  if decide (algorithm = "ucb") then
    with_ucb self (UCB_Bandit.update (ucb_bandit self) arm reward)
  else
    with_epsilon self (EpsilonGreedy_Bandit.update (epsilon_bandit self) arm reward).

(** The variables the episode loop carries: [best_reward] ([None] is
    [-inf]) and [best_placement] ([None] is Python's [None]). *)
Record loop_state : Type := mkLoop {
  ls_self : t;
  ls_rng : rng;
  best_reward : option R;
  best_placement : option (list Station)
}.

(** One round of the episode loop. *)
Definition episode (algorithm : string) (candidates : list Arm) (st : loop_state)
  : run_result loop_state * t * rng :=
  let '(sel, self1, g1) := bandit_select (ls_self st) algorithm candidates (ls_rng st) in
  match sel with
  | Raise e => (Failed e, self1, g1)
  | Return selected_arm =>
      let '(made, g2) := _create_placement_from_arm self1 selected_arm g1 in
      match made, selected_arm with
      | Raise e, _ => (Failed e, self1, g2)
      | Return _, None => (Failed TypeError, self1, g2)
      | Return placement, Some arm =>
          match calculate_reward self1 placement with
          | Raise e => (Failed e, self1, g2)
          | Return NonFinite => (Unrepresentable, self1, g2)
          | Return (Fin reward) =>
              let self2 := bandit_update self1 algorithm arm reward in
              let improved :=
                match best_reward st with
                | None => true
                | Some best => if Rlt_dec best reward then true else false
                end in
              let self3 := with_episode_reward self2 reward in
              let self4 :=
                if decide (algorithm = "epsilon_greedy")
                then with_epsilon self3
                       (EpsilonGreedy_Bandit.decay_epsilon (epsilon_bandit self3))
                else self3 in
              (Finished {| ls_self := self4; ls_rng := g2;
                           best_reward := if improved then Some reward
                                          else best_reward st;
                           best_placement := if improved then Some placement
                                             else best_placement st |},
               self4, g2)
          end
      end
  end.

(** [for episode in range(1, self.num_episodes + 1)] *)
Fixpoint episodes (n : nat) (algorithm : string) (candidates : list Arm)
    (st : loop_state) : run_result loop_state * t * rng :=
  match n with
  | O => (Finished st, ls_self st, ls_rng st)
  | S n' =>
      match episode algorithm candidates st with
      | (Finished st1, _, _) => episodes n' algorithm candidates st1
      | failure => failure
      end
  end.

(** [optimize_placement]; the final log line takes [len(best_placement)],
    which raises when no episode ran. *)
Definition optimize_placement (self : t) (algorithm : string) (g : rng)
  : run_result (list Station) * t * rng :=
  let '(candidates, g1) := generate_candidate_placements self g in
  let st := {| ls_self := self; ls_rng := g1;
               best_reward := None; best_placement := None |} in
  match episodes (num_episodes self) algorithm candidates st with
  | (Finished st1, self1, g2) =>
      match best_placement st1 with
      | None => (Failed TypeError, self1, g2)
      | Some placement => (Finished placement, self1, g2)
      end
  | (Failed e, self1, g2) => (Failed e, self1, g2)
  | (Unrepresentable, self1, g2) => (Unrepresentable, self1, g2)
  end.

End StationPlacementRL.

Import StationPlacementRL.

(** * Definitions used to state the properties *)

(** A random source that always draws [0]. *)
Definition zero_rng : rng := fun _ => 0%N.

#[global] Instance Rle_decision : RelDecision Rle := Rle_dec.
#[global] Instance Rlt_decision : RelDecision Rlt := Rlt_dec.

(** The coordinates of a placement, in order. *)
Definition coordinates (placement : list Station) : list (R * R) :=
  map (fun s => (st_lat s, st_lon s)) placement.

(** Arms of each kind, as the generator names them. *)
Definition strategic_0 : Arm := mkArm "strategic_0" 20.2961 85.8245 strategic "City Center".
Definition grid_0 : Arm := mkArm "grid_0" 20.2 85.7 grid "Grid Station 1".
Definition random_0 : Arm := mkArm "random_0" 20.3 85.8 random "Random Station 1".

Section SpecSide.
Local Open Scope R_scope.

Definition Rlist_sum (l : list R) : R := fold_right Rplus 0 l.

(** The least of the distances from a center to the stations. *)
Definition min_distance (center : DemandCenter) (stations : list Station) : R :=
  match map (distance_to center) stations with
  | [] => 0
  | d :: ds => fold_right Rmin d ds
  end.

(** Sum over the centers of (minimum distance times weight), divided by
    the number of centers. *)
Definition weighted_avg_distance (centers : list DemandCenter)
    (stations : list Station) : R :=
  Rlist_sum (map (fun center => min_distance center stations * dc_weight center) centers)
  / INR (length centers).

(** The same with every weight left out. *)
Definition plain_avg_distance (centers : list DemandCenter)
    (stations : list Station) : R :=
  Rlist_sum (map (fun center => min_distance center stations) centers)
  / INR (length centers).

(** Fraction of the centers with a station within 2.0 km. *)
Definition covered_fraction (centers : list DemandCenter)
    (stations : list Station) : R :=
  INR (length (filter (fun center =>
                         Exists (fun station => distance_to center station <= 2) stations)
                      centers))
  / INR (length centers).

(** All unordered pairs of stations, each once. *)
Fixpoint station_pairs (stations : list Station) : list (Station * Station) :=
  match stations with
  | [] => []
  | s :: rest => map (pair s) rest ++ station_pairs rest
  end.

Definition mean_pairwise_distance (stations : list Station) : R :=
  Rlist_sum (map (fun p => station_distance p.1 p.2) (station_pairs stations))
  / INR (length (station_pairs stations)).

End SpecSide.

(** [n] calls of [decay_epsilon]. *)
Definition decay_n (n : nat) (b : EpsilonGreedy_Bandit.t) : EpsilonGreedy_Bandit.t :=
  Nat.iter n EpsilonGreedy_Bandit.decay_epsilon b.

(** A sequence of [update(arm, reward)] calls. *)
Definition ucb_updates (b : UCB_Bandit.t) (updates : list (Arm * R)) : UCB_Bandit.t :=
  fold_left (fun b ar => UCB_Bandit.update b ar.1 ar.2) updates b.

(** Sum of the per-arm pull counts. *)
Definition sum_counts (cnts : gmap string nat) : nat :=
  map_fold (fun _ n acc => n + acc) 0 cnts.

(** The bookkeeping invariant of the UCB bandit; an arm the dictionaries do
    not hold reads as [0] pulls and an empty history. *)
Definition ucb_inv (b : UCB_Bandit.t) : Prop :=
  UCB_Bandit.total_pulls b = sum_counts (UCB_Bandit.counts b)
  /\ forall id : string,
       dd_peek 0 id (UCB_Bandit.counts b)
       = length (dd_peek [] id (UCB_Bandit.rewards b)).

(** The arms [select_arm] would call untried in state [b]. *)
Definition untried_in (b : UCB_Bandit.t) (arms : list Arm) : list Arm :=
  (UCB_Bandit.untried_arms arms (UCB_Bandit.counts b)).1.

(** Selections each followed by an update with the next reward of the list:
    the bandit as each selection found it with the arm it returned, then the
    final bandit and random source. *)
Fixpoint ucb_play (b : UCB_Bandit.t) (arms : list Arm) (g : rng) (rewards : list R)
  : outcome (list (UCB_Bandit.t * Arm)) * UCB_Bandit.t * rng :=
  match rewards with
  | [] => (Return [], b, g)
  | reward :: rest =>
      match UCB_Bandit.select_arm b arms g with
      | (Raise e, b1, g1) => (Raise e, b1, g1)
      | (Return None, b1, g1) => (Raise TypeError, b1, g1)   (* arm['id'] in update *)
      | (Return (Some arm), b1, g1) =>
          match ucb_play (UCB_Bandit.update b1 arm reward) arms g1 rest with
          | (Return trace, b2, g2) => (Return ((b, arm) :: trace), b2, g2)
          | (Raise e, b2, g2) => (Raise e, b2, g2)
          end
      end
  end.

(** A one-station placement: the strategic placement for a station count of 1. *)
Definition city_center_station : Station :=
  mkStation "ST01" 20.2961 85.8245 "City Center" strategic.

Definition one_station : list Station := [city_center_station].

(** The placement a strategic arm gives on the default system. *)
Definition strategic_placement : list Station :=
  imap strategic_station bhubaneswar_centers.

(** What a bandit holds for an arm: its reward history and the mean of it. *)
Definition history_of (rwds : gmap string (list R)) (arm : Arm) : list R :=
  dd_peek [] (arm_id arm) rwds.

Definition mean_of (rwds : gmap string (list R)) (arm : Arm) : R :=
  np_mean (history_of rwds arm).

(** A system whose episode log holds two rewards. *)
Definition logged_system : StationPlacementRL.t :=
  with_episode_reward (with_episode_reward StationPlacementRL.default 1) 3.

(** The bookkeeping of the epsilon-greedy bandit: every arm's pull count is
    the length of its reward history. *)
Definition eps_inv (b : EpsilonGreedy_Bandit.t) : Prop :=
  forall id : string,
    dd_peek 0 id (EpsilonGreedy_Bandit.counts b)
    = length (dd_peek [] id (EpsilonGreedy_Bandit.rewards b)).

(** A greedy bandit (epsilon 0) that has seen one reward of [strategic_0]. *)
Definition greedy_bandit : EpsilonGreedy_Bandit.t :=
  EpsilonGreedy_Bandit.update (EpsilonGreedy_Bandit.init 0 0.95) strategic_0 1.

(** The UCB value [select_arm] computes for an arm: the mean of its rewards
    (0 without a history) plus the confidence term. *)
Definition ucb_score (b : UCB_Bandit.t) (id : string) : R :=
  ((match dd_peek [] id (UCB_Bandit.rewards b) with
    | [] => 0
    | hist => np_mean hist
    end)
   + UCB_Bandit.c b
     * sqrt (ln (INR (UCB_Bandit.total_pulls b))
             / INR (dd_peek 0%nat id (UCB_Bandit.counts b))))%R.

(** Two states of a UCB bandit that read alike: the same constant and
    totals, and every key reads as the same count and history.  Reading a
    [defaultdict] can add keys; it does not change this. *)
Definition ucb_same_reads (b b' : UCB_Bandit.t) : Prop :=
  UCB_Bandit.c b' = UCB_Bandit.c b
  /\ UCB_Bandit.total_pulls b' = UCB_Bandit.total_pulls b
  /\ sum_counts (UCB_Bandit.counts b') = sum_counts (UCB_Bandit.counts b)
  /\ (forall k, dd_peek 0 k (UCB_Bandit.counts b') = dd_peek 0 k (UCB_Bandit.counts b))
  /\ (forall k, dd_peek [] k (UCB_Bandit.rewards b')
                = dd_peek [] k (UCB_Bandit.rewards b)).

(** A UCB bandit after one pull of each of two arms. *)
Definition warm_bandit : UCB_Bandit.t :=
  ucb_updates UCB_Bandit.default [(strategic_0, 1%R); (grid_0, 2%R)].

(** A coordinate inside the city's bounding box. *)
Definition in_bounds (b : CityBounds) (lat lon : R) : Prop :=
  (min_lat b <= lat <= max_lat b /\ min_lon b <= lon <= max_lon b)%R.

(** The parts of the system a run never changes. *)
Definition same_config (self self' : StationPlacementRL.t) : Prop :=
  num_stations self' = num_stations self
  /\ num_episodes self' = num_episodes self
  /\ city_bounds self' = city_bounds self
  /\ demand_centers self' = demand_centers self.

(** What the loop tracks as best, against the rewards [new] of the episodes
    run so far: nothing before the first episode, and afterwards a placement
    with its reward, which is the largest of [new]. *)
Definition best_ok (self : StationPlacementRL.t) (new : list R)
    (best : option R) (placement : option (list Station)) : Prop :=
  match best, placement with
  | None, None => new = []
  | Some r, Some p =>
      calculate_reward self p = Return (Fin r)
      /\ r ∈ new
      /\ forall r', r' ∈ new -> (r' <= r)%R
  | _, _ => False
  end.

(** A system whose single demand center has weight 1. *)
Definition unit_weight_system : StationPlacementRL.t :=
  {| num_stations := 1; num_episodes := 1;
     city_bounds := bhubaneswar_bounds;
     ucb_bandit := UCB_Bandit.default;
     epsilon_bandit := EpsilonGreedy_Bandit.default;
     demand_centers := [mkCenter 20.2644 85.8281 1 "KIIT Area"];
     episode_rewards := [] |}.

(** * Properties *)

(** ** Empty placement *)

(** C7: the reward of an empty placement is the value [-1000.0], returned
    and not raised, whatever the demand centers and the city bounds are. *)
Theorem calculate_reward_empty (self : StationPlacementRL.t) :
  calculate_reward self [] = Return (Fin (-1000)).
Proof.
  unfold calculate_reward. do 2 f_equal. lra.
Qed.

(** ** Selection on an empty pool *)

(** C3, as stated, fails: on an empty pool neither policy raises; both
    return Python's [None]. *)
Lemma select_arm_empty_pool_not_loud :
  (UCB_Bandit.select_arm UCB_Bandit.default [] zero_rng).1.1 = Return None
  /\ (EpsilonGreedy_Bandit.select_arm EpsilonGreedy_Bandit.default [] zero_rng).1.1
     = Return None
  /\ ~ (exists e, (UCB_Bandit.select_arm UCB_Bandit.default [] zero_rng).1.1 = Raise e)
  /\ ~ (exists e,
          (EpsilonGreedy_Bandit.select_arm EpsilonGreedy_Bandit.default [] zero_rng).1.1
          = Raise e).
Proof.
  repeat split; intros [e He]; discriminate He.
Qed.

(** C3, amended: for both policies, selection on an empty pool returns
    [None] as an ordinary value and leaves the bandit and the random source
    as they were. *)
Theorem select_arm_empty_pool (u : UCB_Bandit.t) (b : EpsilonGreedy_Bandit.t) (g : rng) :
  UCB_Bandit.select_arm u [] g = (Return None, u, g)
  /\ EpsilonGreedy_Bandit.select_arm b [] g = (Return None, b, g).
Proof. split; reflexivity. Qed.

(** The [None] only turns into an error where the caller reads
    [arm['type']]. *)
Lemma create_placement_from_none (self : StationPlacementRL.t) (g : rng) :
  _create_placement_from_arm self None g = (Raise TypeError, g).
Proof. reflexivity. Qed.

(** ** Materialising a placement *)

Lemma for_range_length {A : Type} (body : nat -> rng -> A * rng) idxs acc g :
  length (for_range body idxs acc g).1 = length acc + length idxs.
Proof.
  revert acc g. induction idxs as [|i idxs IH]; intros acc g; simpl.
  - lia.
  - destruct (body i g) as [x g1]. rewrite IH, length_app. simpl. lia.
Qed.

(** The number of stations each kind of arm gives. *)
Lemma placement_length (self : StationPlacementRL.t) (arm : Arm) (g : rng) :
  exists placement g',
    _create_placement_from_arm self (Some arm) g = (Return placement, g')
    /\ length placement
       = match arm_type arm with
         | strategic => num_stations self `min` length (demand_centers self)
         | _ => num_stations self
         end.
Proof.
  unfold _create_placement_from_arm. destruct (arm_type arm).
  - eexists _, _. split; [reflexivity|].
    rewrite length_imap, length_take. reflexivity.
  - eexists _, _. split; [reflexivity|].
    rewrite length_map, length_seq. reflexivity.
  - destruct (for_range _ _ _ _) as [p g1] eqn:E.
    eexists _, _. split; [reflexivity|].
    pose proof (for_range_length (random_station self) (seq 0 (num_stations self)) [] g) as H.
    rewrite E in H. simpl in H. rewrite length_seq in H. exact H.
Qed.

(** C1 fails on the code: with the five demand centers and a station count
    of 25, the first arm the UCB bandit selects from the generated pool can
    be a strategic one, and a strategic arm gives five station records, not
    25. *)
Theorem strategic_placement_has_five_stations :
  let pool := generate_candidate_placements StationPlacementRL.default zero_rng in
  (UCB_Bandit.select_arm UCB_Bandit.default pool.1 pool.2).1.1 = Return (Some strategic_0)
  /\ forall g : rng,
       exists placement,
         _create_placement_from_arm StationPlacementRL.default (Some strategic_0) g
         = (Return placement, g)
         /\ length placement = 5
         /\ length placement <> num_stations StationPlacementRL.default.
Proof.
  split; [reflexivity|]. intros g.
  eexists. split; [reflexivity|]. split; [reflexivity|]. simpl. lia.
Qed.

(** C4, as stated, fails: no two materialisations of the grid arm differ
    in their coordinates, whatever the random source holds. *)
Lemma grid_materialisation_never_differs :
  ~ (exists (g1 g2 : rng) (p1 p2 : list Station),
       (_create_placement_from_arm StationPlacementRL.default (Some grid_0) g1).1
       = Return p1
       /\ (_create_placement_from_arm StationPlacementRL.default (Some grid_0) g2).1
          = Return p2
       /\ coordinates p1 <> coordinates p2).
Proof.
  intros (g1 & g2 & p1 & p2 & H1 & H2 & Hne).
  simpl in H1, H2. apply Hne. congruence.
Qed.

(** C4, amended: a grid arm is materialised from the station count and the
    city bounds alone, without drawing from the random source, so any two
    materialisations give the same stations. *)
Theorem grid_materialisation_stable (self : StationPlacementRL.t) (arm : Arm)
    (g1 g2 : rng) (Hgrid : arm_type arm = grid) :
  (_create_placement_from_arm self (Some arm) g1).1
  = (_create_placement_from_arm self (Some arm) g2).1
  /\ (_create_placement_from_arm self (Some arm) g1).2 = g1
  /\ (_create_placement_from_arm self (Some arm) g1).1
     = Return (map (grid_station self) (seq 0 (num_stations self))).
Proof.
  unfold _create_placement_from_arm. rewrite Hgrid. simpl. auto.
Qed.

Lemma grid_materialisation_stable_witness :
  arm_type grid_0 = grid
  /\ (_create_placement_from_arm StationPlacementRL.default (Some grid_0) zero_rng).1
     = (_create_placement_from_arm StationPlacementRL.default (Some grid_0)
          (fun n => N.of_nat n)).1.
Proof.
  split; [reflexivity|].
  apply (grid_materialisation_stable StationPlacementRL.default grid_0 zero_rng
           (fun n => N.of_nat n)).
  reflexivity.
Defined.

(** ** Epsilon decay *)

Section Decay.
Import EpsilonGreedy_Bandit.
Local Open Scope R_scope.

Lemma decay_n_S (n : nat) (b : EpsilonGreedy_Bandit.t) :
  decay_n (S n) b = decay_epsilon (decay_n n b).
Proof. reflexivity. Qed.

Lemma decay_n_keeps_factor (n : nat) (b : EpsilonGreedy_Bandit.t) :
  epsilon_decay (decay_n n b) = epsilon_decay b.
Proof.
  induction n as [|n IH]; [reflexivity|]. rewrite decay_n_S. exact IH.
Qed.

(** One call is enough to be at or above the floor, for any decay factor. *)
Lemma decay_n_floor (n : nat) (b : EpsilonGreedy_Bandit.t) :
  (1 <= n)%nat -> 0.1 <= epsilon (decay_n n b).
Proof.
  destruct n as [|n]; [lia|]. intros _. rewrite decay_n_S. simpl. apply Rmax_l.
Qed.

Lemma Rmax_floor_step (x d : R) :
  0 <= d <= 1 -> Rmax 0.1 (Rmax 0.1 x * d) = Rmax 0.1 (x * d).
Proof.
  intros [Hd0 Hd1]. unfold Rmax.
  repeat (destruct (Rle_dec _ _)); nra.
Qed.

Lemma decay_n_closed_form_pos (n : nat) (b : EpsilonGreedy_Bandit.t) :
  0 <= epsilon_decay b <= 1 ->
  epsilon (decay_n (S n) b) = Rmax 0.1 (epsilon b * epsilon_decay b ^ S n).
Proof.
  intros Hd. induction n as [|n IH].
  - simpl. f_equal. ring.
  - rewrite decay_n_S. cbn [decay_epsilon epsilon].
    rewrite decay_n_keeps_factor, IH, Rmax_floor_step by exact Hd.
    f_equal. simpl. ring.
Qed.

(** C9, as stated, fails: a decay factor above 1 or below 0 leaves the
    closed form, and before the first call a small initial epsilon is below
    the floor. *)
Lemma decay_closed_form_fails :
  epsilon (decay_n 2 (init 0.01 2)) <> Rmax 0.1 (0.01 * 2 ^ 2)
  /\ epsilon (decay_n 2 (init 1 (-1))) <> Rmax 0.1 (1 * (-1) ^ 2)
  /\ epsilon (decay_n 0 (init 0.05 0.95)) < 0.1.
Proof.
  repeat split; simpl; unfold Rmax; repeat (destruct (Rle_dec _ _)); lra.
Qed.

(** C9, amended: once [decay_epsilon] has been called (or from the start,
    when the initial epsilon is at least 0.1) epsilon is at least 0.1, and
    for a decay factor between 0 and 1 it is
    [max(0.1, initial_epsilon * decay_factor ^ n)]. *)
Theorem decay_epsilon_closed_form (e0 d : R) (n : nat)
    (Hn : (1 <= n)%nat \/ 0.1 <= e0) :
  0.1 <= epsilon (decay_n n (init e0 d))
  /\ (0 <= d <= 1 -> epsilon (decay_n n (init e0 d)) = Rmax 0.1 (e0 * d ^ n)).
Proof.
  destruct n as [|n].
  - destruct Hn as [Hn|Hn]; [lia|]. simpl. split; [exact Hn|].
    intros _. rewrite Rmult_1_r, Rmax_right; [reflexivity|exact Hn].
  - split; [apply decay_n_floor; lia|].
    intros Hd. apply (decay_n_closed_form_pos n (init e0 d)). exact Hd.
Qed.

Lemma decay_epsilon_closed_form_witness :
  ((1 <= 3)%nat \/ 0.1 <= 0.3)
  /\ 0.1 <= epsilon (decay_n 3 (init 0.3 0.95))
  /\ epsilon (decay_n 3 (init 0.3 0.95)) = Rmax 0.1 (0.3 * 0.95 ^ 3).
Proof.
  assert (H : (1 <= 3)%nat \/ 0.1 <= 0.3) by (left; lia).
  split; [exact H|].
  destruct (decay_epsilon_closed_form 0.3 0.95 3 H) as [Hfloor Hform].
  split; [exact Hfloor|]. apply Hform. lra.
Defined.

End Decay.

(** ** Bookkeeping of the UCB bandit *)

Section Bookkeeping.
Import UCB_Bandit.

Lemma dd_get_peek {V : Type} (default : V) (k : string) (d : gmap string V) :
  (dd_get default k d).1 = dd_peek default k d.
Proof. unfold dd_get, dd_peek. destruct (d !! k); reflexivity. Qed.

Lemma dd_get_then_set {V : Type} (default v : V) (k : string) (d : gmap string V) :
  <[k := v]> (dd_get default k d).2 = <[k := v]> d.
Proof.
  unfold dd_get. destruct (d !! k); simpl; [reflexivity|].
  apply insert_insert_eq.
Qed.

Lemma dd_peek_after_get {V : Type} (default : V) (k k' : string) (d : gmap string V) :
  dd_peek default k' (dd_get default k d).2 = dd_peek default k' d.
Proof.
  unfold dd_get, dd_peek. destruct (d !! k) eqn:E; simpl; [reflexivity|].
  destruct (decide (k = k')) as [->|Hne].
  - rewrite lookup_insert_eq, E. reflexivity.
  - rewrite lookup_insert_ne by exact Hne. reflexivity.
Qed.

Lemma dd_peek_insert {V : Type} (default v : V) (k k' : string) (d : gmap string V) :
  dd_peek default k' (<[k := v]> d)
  = if decide (k = k') then v else dd_peek default k' d.
Proof.
  unfold dd_peek. destruct (decide (k = k')) as [->|Hne].
  - rewrite lookup_insert_eq. reflexivity.
  - rewrite lookup_insert_ne by exact Hne. reflexivity.
Qed.

Lemma sum_counts_fresh (k : string) (n : nat) (cnts : gmap string nat) :
  cnts !! k = None -> sum_counts (<[k := n]> cnts) = n + sum_counts cnts.
Proof.
  intros Hk. unfold sum_counts.
  apply (map_fold_insert_L (fun (_ : string) (n acc : nat) => n + acc)); [|exact Hk].
  intros. lia.
Qed.

Lemma sum_counts_insert (k : string) (n : nat) (cnts : gmap string nat) :
  sum_counts (<[k := n]> cnts) + dd_peek 0 k cnts = sum_counts cnts + n.
Proof.
  unfold dd_peek. destruct (cnts !! k) as [v|] eqn:E.
  - rewrite <- (insert_delete_eq cnts k n).
    rewrite <- (insert_id cnts k v E) at 2.
    rewrite <- (insert_delete_eq cnts k v).
    rewrite !sum_counts_fresh by apply lookup_delete_eq. lia.
  - rewrite sum_counts_fresh by exact E. lia.
Qed.

(** [update] without the intermediate dictionaries. *)
Lemma update_unfold (b : UCB_Bandit.t) (arm : Arm) (reward : R) :
  update b arm reward
  = {| c := c b;
       counts := <[arm_id arm := dd_peek 0 (arm_id arm) (counts b) + 1]> (counts b);
       rewards := <[arm_id arm := dd_peek [] (arm_id arm) (rewards b) ++ [reward]]>
                    (rewards b);
       total_pulls := total_pulls b + 1 |}.
Proof.
  unfold update.
  pose proof (dd_get_peek 0 (arm_id arm) (counts b)) as Hc.
  pose proof (dd_get_then_set 0 (dd_peek 0 (arm_id arm) (counts b) + 1)
                (arm_id arm) (counts b)) as Hc'.
  pose proof (dd_get_peek [] (arm_id arm) (rewards b)) as Hr.
  pose proof (dd_get_then_set [] (dd_peek [] (arm_id arm) (rewards b) ++ [reward])
                (arm_id arm) (rewards b)) as Hr'.
  destruct (dd_get 0 (arm_id arm) (counts b)) as [n counts1].
  destruct (dd_get [] (arm_id arm) (rewards b)) as [hist rewards1].
  simpl in *. subst n hist. rewrite Hc', Hr'. reflexivity.
Qed.

Lemma ucb_inv_init (c0 : R) : ucb_inv (init c0).
Proof.
  split.
  - simpl. unfold sum_counts. rewrite map_fold_empty. reflexivity.
  - intros id. simpl. unfold dd_peek. rewrite !lookup_empty. reflexivity.
Qed.

Lemma ucb_inv_update (b : UCB_Bandit.t) (arm : Arm) (reward : R) :
  ucb_inv b -> ucb_inv (update b arm reward).
Proof.
  intros [Htotal Hlen]. rewrite update_unfold. split; simpl.
  - pose proof (sum_counts_insert (arm_id arm)
                  (dd_peek 0 (arm_id arm) (counts b) + 1) (counts b)).
    lia.
  - intros id. rewrite !dd_peek_insert.
    destruct (decide (arm_id arm = id)) as [_|_]; [|apply Hlen].
    rewrite length_app, Hlen. reflexivity.
Qed.

(** C10: the bookkeeping invariant (total pulls is the sum of the per-arm
    counts, and each arm's count is the length of its reward history) holds
    for a new bandit and after any sequence of updates of a bandit that
    satisfies it. *)
Theorem ucb_invariant_preserved (c0 : R) (b : UCB_Bandit.t)
    (updates : list (Arm * R)) (Hb : ucb_inv b) :
  ucb_inv (init c0) /\ ucb_inv (ucb_updates b updates).
Proof.
  split; [apply ucb_inv_init|].
  revert b Hb. induction updates as [|[arm reward] updates IH]; intros b Hb.
  - exact Hb.
  - simpl. apply IH, ucb_inv_update, Hb.
Qed.

Lemma ucb_invariant_preserved_witness :
  ucb_inv UCB_Bandit.default
  /\ ucb_inv (ucb_updates UCB_Bandit.default
                [(strategic_0, 1%R); (grid_0, 2%R); (strategic_0, 3%R)]).
Proof.
  assert (H : ucb_inv UCB_Bandit.default).
  { split; [reflexivity|]. intros id. reflexivity. }
  split; [exact H|].
  apply (ucb_invariant_preserved 2%R UCB_Bandit.default
           [(strategic_0, 1%R); (grid_0, 2%R); (strategic_0, 3%R)] H).
Defined.

End Bookkeeping.

(** ** Spread *)

Section Spread.
Local Open Scope R_scope.

Lemma Rlist_sum_app (l1 l2 : list R) :
  Rlist_sum (l1 ++ l2) = Rlist_sum l1 + Rlist_sum l2.
Proof.
  induction l1 as [|x l1 IH]; simpl; [ring|]. rewrite IH. ring.
Qed.

(** The inner loop adds the distances from [s1] to the stations after it. *)
Lemma spread_inner_loop (s1 : Station) (rest : list Station) (acc : R * nat) :
  fold_left (fun '(total_dist, count) s2 =>
               (total_dist + station_distance s1 s2, (count + 1)%nat)) rest acc
  = (acc.1 + Rlist_sum (map (fun p => station_distance p.1 p.2) (map (pair s1) rest)),
     (acc.2 + length rest)%nat).
Proof.
  revert acc. induction rest as [|s2 rest IH]; intros [t n]; simpl.
  - f_equal; [ring|lia].
  - rewrite IH. simpl. f_equal; [ring|lia].
Qed.

Lemma spread_loop_pairs (stations : list Station) (acc : R * nat) :
  spread_loop stations acc
  = (acc.1 + Rlist_sum (map (fun p => station_distance p.1 p.2) (station_pairs stations)),
     (acc.2 + length (station_pairs stations))%nat).
Proof.
  revert acc. induction stations as [|s1 rest IH]; intros [t n]; simpl.
  - f_equal; [ring|lia].
  - rewrite IH, spread_inner_loop. simpl.
    rewrite map_app, Rlist_sum_app, length_app, length_map.
    f_equal; [ring|lia].
Qed.

(** [station_pairs] holds every pair of positions [i < j], and nothing else. *)
Lemma station_pairs_elem (stations : list Station) (a b : Station) :
  (a, b) ∈ station_pairs stations
  <-> exists i j : nat, (i < j)%nat /\ stations !! i = Some a /\ stations !! j = Some b.
Proof.
  induction stations as [|s rest IH]; simpl.
  - split; [intros H; inversion H|intros (i & j & _ & H & _); discriminate H].
  - rewrite elem_of_app, list_elem_of_fmap, IH. split.
    + intros [(y & Heq & Hy)|(i & j & Hij & Hi & Hj)].
      * inversion Heq; subst. apply list_elem_of_lookup in Hy as [j Hj].
        exists O, (S j). repeat split; [lia|exact Hj].
      * exists (S i), (S j). repeat split; [lia|exact Hi|exact Hj].
    + intros (i & j & Hij & Hi & Hj). destruct j as [|j]; [lia|].
      destruct i as [|i]; simpl in Hi, Hj.
      * left. inversion Hi; subst. exists b. split; [reflexivity|].
        apply list_elem_of_lookup. exists j. exact Hj.
      * right. exists i, j. repeat split; [lia|exact Hi|exact Hj].
Qed.

Lemma station_pairs_length (stations : list Station) :
  (2 * length (station_pairs stations)
   = length stations * (length stations - 1))%nat.
Proof.
  induction stations as [|s rest IH]; simpl; [reflexivity|].
  rewrite length_app, length_map. nia.
Qed.

Lemma station_pairs_nonempty (stations : list Station) :
  ~ (length stations < 2)%nat -> (0 < length (station_pairs stations))%nat.
Proof.
  intros Hn. pose proof (station_pairs_length stations). nia.
Qed.

(** C8: with fewer than two stations the spread is 0; otherwise it is 0
    when the mean pairwise distance [m] is below 1.0 km, 1 when [m] is
    above 5.0 km and [m / 5.0] in between. *)
Theorem calculate_spread_cases (stations : list Station) :
  _calculate_spread stations
  = if decide (length stations < 2)%nat then 0
    else
      let m := mean_pairwise_distance stations in
      if Rlt_dec m 1 then 0
      else if Rlt_dec 5 m then 1
      else m / 5.
Proof.
  unfold _calculate_spread.
  destruct (decide (length stations < 2)%nat) as [Hlt|Hge]; [lra|].
  rewrite spread_loop_pairs. cbn [fst snd].
  pose proof (station_pairs_nonempty stations Hge) as Hpos.
  rewrite Nat.add_0_l.
  destruct (decide (0 < length (station_pairs stations))%nat) as [_|Hn]; [|lia].
  cbv zeta. unfold mean_pairwise_distance.
  set (total := Rlist_sum _).
  replace ((0.0 + total) / INR (length (station_pairs stations)))
    with (total / INR (length (station_pairs stations))) by (f_equal; lra).
  set (m := total / _).
  repeat (destruct (Rlt_dec _ _)); lra.
Qed.

End Spread.

(** ** The reward and its components *)

Section RewardFormula.
Local Open Scope R_scope.

Lemma fold_right_Rmin_shift (l : list R) (x a : R) :
  fold_right Rmin (Rmin x a) l = Rmin (fold_right Rmin x l) a.
Proof.
  induction l as [|y l IH]; simpl; [reflexivity|].
  rewrite IH. apply Rmin_assoc.
Qed.

Lemma fold_left_Rmin (l : list R) (x : R) :
  fold_left Rmin l x = fold_right Rmin x l.
Proof.
  revert x. induction l as [|y l IH]; intros x; simpl; [reflexivity|].
  rewrite IH, fold_right_Rmin_shift. apply Rmin_comm.
Qed.

Lemma min_dist_loop_from (center : DemandCenter) (stations : list Station) (x : R) :
  fold_left (fun min_dist station => pymin min_dist (distance_to center station))
            stations (Some x)
  = Some (fold_left Rmin (map (distance_to center) stations) x).
Proof.
  revert x. induction stations as [|s rest IH]; intros x; simpl; [reflexivity|].
  apply IH.
Qed.

(** On a non-empty placement the running minimum ends finite, at the least
    distance. *)
Lemma min_dist_loop_nonempty (center : DemandCenter) (s : Station) (rest : list Station) :
  min_dist_loop center (s :: rest) = Some (min_distance center (s :: rest)).
Proof.
  unfold min_dist_loop, min_distance. simpl.
  rewrite min_dist_loop_from, fold_left_Rmin. reflexivity.
Qed.

Lemma min_dist_loop_empty (center : DemandCenter) : min_dist_loop center [] = None.
Proof. reflexivity. Qed.

(** [min_distance] is the minimum: a lower bound that some station attains. *)
Lemma min_distance_is_min (center : DemandCenter) (s : Station) (rest : list Station) :
  (forall station, station ∈ s :: rest ->
     min_distance center (s :: rest) <= distance_to center station)
  /\ exists station, station ∈ s :: rest
       /\ min_distance center (s :: rest) = distance_to center station.
Proof.
  unfold min_distance. simpl.
  induction rest as [|s' rest [IHle [w [Hw Heq]]]]; simpl.
  - split.
    + intros station Hin. apply list_elem_of_singleton in Hin. subst. lra.
    + exists s. split; [constructor|reflexivity].
  - split.
    + intros station Hin.
      apply elem_of_cons in Hin as [->|Hin].
      * eapply Rle_trans; [apply Rmin_r|]. apply IHle. constructor.
      * apply elem_of_cons in Hin as [->|Hin]; [apply Rmin_l|].
        eapply Rle_trans; [apply Rmin_r|]. apply IHle. constructor. exact Hin.
    + unfold Rmin at 1. destruct (Rle_dec _ _).
      * exists s'. split; [do 2 constructor|reflexivity].
      * exists w. split; [|exact Heq].
        apply elem_of_cons in Hw as [->|Hw]; [constructor|do 2 constructor; exact Hw].
Qed.

Lemma weighted_total (placement : list Station) (centers : list DemandCenter)
    (m : DemandCenter -> R) (x : R) :
  (forall center, min_dist_loop center placement = Some (m center)) ->
  fold_left (fun total center =>
               fadd total (scale (min_dist_loop center placement) (dc_weight center)))
            centers (Fin x)
  = Fin (x + Rlist_sum (map (fun center => m center * dc_weight center) centers)).
Proof.
  intros Hm. revert x. induction centers as [|center centers IH]; intros x; simpl.
  - f_equal. ring.
  - rewrite Hm. simpl. rewrite IH. f_equal. ring.
Qed.

Lemma plain_total (stations : list Station) (centers : list DemandCenter)
    (m : DemandCenter -> R) (x : R) :
  (forall center, min_dist_loop center stations = Some (m center)) ->
  fold_left (fun total center =>
               fadd total (match min_dist_loop center stations with
                           | Some d => Fin d
                           | None => NonFinite
                           end))
            centers (Fin x)
  = Fin (x + Rlist_sum (map m centers)).
Proof.
  intros Hm. revert x. induction centers as [|center centers IH]; intros x; simpl.
  - f_equal. ring.
  - rewrite Hm. simpl. rewrite IH. f_equal. ring.
Qed.

Lemma within_2km_Exists (center : DemandCenter) (stations : list Station) :
  within_2km center stations = true
  <-> Exists (fun station => distance_to center station <= 2) stations.
Proof.
  induction stations as [|s rest IH]; simpl.
  - split; [discriminate|intros H; inversion H].
  - rewrite Exists_cons. destruct (Rle_dec _ _) as [Hle|Hgt].
    + split; [intros _; left; lra|reflexivity].
    + rewrite IH. split; [tauto|]. intros [H|H]; [lra|exact H].
Qed.

Lemma covered_count (stations : list Station) (centers : list DemandCenter) (n : nat) :
  fold_left (fun covered center =>
               if within_2km center stations then (covered + 1)%nat else covered)
            centers n
  = Nat.add n (length (filter (fun center =>
                                 Exists (fun station => distance_to center station <= 2)
                                        stations) centers)).
Proof.
  revert n. induction centers as [|center centers IH]; intros n; simpl; [lia|].
  rewrite IH.
  destruct (within_2km center stations) eqn:E.
  - rewrite filter_cons_True by (apply within_2km_Exists; exact E). simpl. lia.
  - rewrite filter_cons_False; [lia|].
    intros H. apply within_2km_Exists in H. congruence.
Qed.

Lemma calculate_coverage_nonempty (self : StationPlacementRL.t)
    (s : Station) (rest : list Station) :
  demand_centers self <> [] ->
  _calculate_coverage self (s :: rest)
  = Return (covered_fraction (demand_centers self) (s :: rest)).
Proof.
  intros Hne. unfold _calculate_coverage, covered_fraction.
  rewrite covered_count. simpl (0 + _)%nat.
  destruct (demand_centers self) as [|c0 cs] eqn:E; [congruence|]. reflexivity.
Qed.

(** The locals of [calculate_reward] in closed form. *)
Lemma reward_components_nonempty (self : StationPlacementRL.t)
    (s : Station) (rest : list Station) :
  demand_centers self <> [] ->
  reward_components self (s :: rest)
  = Return (Fin (weighted_avg_distance (demand_centers self) (s :: rest)),
            covered_fraction (demand_centers self) (s :: rest),
            _calculate_spread (s :: rest)).
Proof.
  intros Hne. unfold reward_components.
  rewrite (weighted_total (s :: rest) (demand_centers self)
             (fun center => min_distance center (s :: rest)))
    by (intros center; apply min_dist_loop_nonempty).
  rewrite calculate_coverage_nonempty by exact Hne.
  unfold weighted_avg_distance.
  destruct (demand_centers self) as [|c0 cs] eqn:E; [congruence|].
  cbn [length fdiv_int mbind outcome_bind]. do 3 f_equal.
  f_equal. lra.
Qed.

(** Without demand centers the division by their number raises. *)
Lemma calculate_reward_no_centers (self : StationPlacementRL.t)
    (s : Station) (rest : list Station) :
  demand_centers self = [] ->
  calculate_reward self (s :: rest) = Raise ZeroDivisionError.
Proof.
  intros E. unfold calculate_reward, reward_components. rewrite E. reflexivity.
Qed.

(** C6: on a non-empty placement the reward is
    [(-avg_distance * 10) + (coverage * 100) + (spread * 50)], with
    [avg_distance] the sum over the centers of (least distance to a station
    times the weight) divided by the number of centers, and [coverage] the
    fraction of centers with a station within 2.0 km. *)
Theorem calculate_reward_formula (self : StationPlacementRL.t)
    (s : Station) (rest : list Station)
    (Hcenters : demand_centers self <> []) :
  calculate_reward self (s :: rest)
  = Return (Fin (- weighted_avg_distance (demand_centers self) (s :: rest) * 10
                 + covered_fraction (demand_centers self) (s :: rest) * 100
                 + _calculate_spread (s :: rest) * 50)).
Proof.
  unfold calculate_reward.
  rewrite reward_components_nonempty by exact Hcenters.
  reflexivity.
Qed.

End RewardFormula.

Lemma calculate_reward_formula_witness :
  demand_centers StationPlacementRL.default <> []
  /\ calculate_reward StationPlacementRL.default one_station
     = Return (Fin (- weighted_avg_distance bhubaneswar_centers one_station * 10
                    + covered_fraction bhubaneswar_centers one_station * 100
                    + _calculate_spread one_station * 50)%R).
Proof.
  assert (H : demand_centers StationPlacementRL.default <> []) by discriminate.
  split; [exact H|].
  apply (calculate_reward_formula StationPlacementRL.default city_center_station [] H).
Defined.

(** ** Haversine distance: sign *)

Section HaversineSign.
Local Open Scope R_scope.

Lemma atan_nonneg (x : R) : 0 <= x -> 0 <= atan x.
Proof.
  intros [Hx|<-].
  - left. rewrite <- atan_0. apply atan_increasing. exact Hx.
  - rewrite atan_0. lra.
Qed.

Lemma atan2_nonneg (y x : R) : 0 <= y -> 0 <= x -> 0 <= atan2 y x.
Proof.
  intros Hy Hx. unfold atan2. pose proof PI_RGT_0 as Hpi.
  destruct (Rlt_dec 0 x) as [Hpos|_].
  - apply atan_nonneg. destruct Hy as [Hy|<-].
    + left. apply Rdiv_lt_0_compat; assumption.
    + right. unfold Rdiv. ring.
  - destruct (Rlt_dec x 0); [lra|].
    destruct (Rlt_dec 0 y); [lra|].
    destruct (Rlt_dec y 0); lra.
Qed.

Lemma atan2_pos (y x : R) : 0 < y -> 0 <= x -> 0 < atan2 y x.
Proof.
  intros Hy Hx. unfold atan2. pose proof PI_RGT_0 as Hpi.
  destruct (Rlt_dec 0 x) as [Hpos|_].
  - rewrite <- atan_0. apply atan_increasing. apply Rdiv_lt_0_compat; assumption.
  - destruct (Rlt_dec x 0); [lra|].
    destruct (Rlt_dec 0 y); lra.
Qed.

Lemma haversine_nonneg (lat1 lon1 lat2 lon2 : R) :
  0 <= _haversine_distance lat1 lon1 lat2 lon2.
Proof.
  unfold _haversine_distance. cbv zeta.
  set (a := _ + _).
  pose proof (atan2_nonneg (sqrt a) (sqrt (1 - a)) (sqrt_pos _) (sqrt_pos _)).
  nra.
Qed.

(** Two points on different latitudes, both within a quarter turn of the
    equator, are a positive distance apart. *)
Lemma haversine_pos (lat1 lon1 lat2 lon2 : R) :
  -90 < lat1 < 90 -> -90 < lat2 < 90 -> lat1 < lat2 ->
  0 < _haversine_distance lat1 lon1 lat2 lon2.
Proof.
  intros H1 H2 Hlt. unfold _haversine_distance, radians. cbv zeta.
  pose proof PI_RGT_0 as Hpi.
  set (a := _ + _).
  assert (Ha : 0 < a).
  { unfold a.
    assert (Hs : 0 < sin ((lat2 - lat1) * (PI / 180) / 2)).
    { apply sin_gt_0; nra. }
    assert (Hc1 : 0 < cos (lat1 * (PI / 180))).
    { apply cos_gt_0; nra. }
    assert (Hc2 : 0 < cos (lat2 * (PI / 180))).
    { apply cos_gt_0; nra. }
    pose proof (pow2_ge_0 (sin ((lon2 - lon1) * (PI / 180) / 2))) as Hq.
    assert (0 < sin ((lat2 - lat1) * (PI / 180) / 2) ^ 2) by nra.
    assert (0 <= cos (lat1 * (PI / 180)) * cos (lat2 * (PI / 180))) by nra.
    nra. }
  pose proof (atan2_pos (sqrt a) (sqrt (1 - a)) (sqrt_lt_R0 _ Ha) (sqrt_pos _)).
  nra.
Qed.

End HaversineSign.

(** ** The exported metrics *)

Section ExportedMetrics.
Local Open Scope R_scope.

Lemma calculate_avg_distance_nonempty (self : StationPlacementRL.t)
    (s : Station) (rest : list Station) :
  demand_centers self <> [] ->
  _calculate_avg_distance_to_demand self (s :: rest)
  = Return (Fin (plain_avg_distance (demand_centers self) (s :: rest))).
Proof.
  intros Hne. unfold _calculate_avg_distance_to_demand.
  rewrite (plain_total (s :: rest) (demand_centers self)
             (fun center => min_distance center (s :: rest)))
    by (intros center; apply min_dist_loop_nonempty).
  unfold plain_avg_distance.
  destruct (demand_centers self) as [|c0 cs] eqn:E; [congruence|].
  cbn [length fdiv_int]. do 3 f_equal. lra.
Qed.

Lemma save_results_nonempty (self : StationPlacementRL.t)
    (s : Station) (rest : list Station) :
  demand_centers self <> [] ->
  exists res,
    save_results self (s :: rest) = Return res
    /\ r_stations res = s :: rest
    /\ r_metrics res
       = {| coverage := covered_fraction (demand_centers self) (s :: rest);
            avg_distance := Fin (plain_avg_distance (demand_centers self) (s :: rest));
            spread := _calculate_spread (s :: rest) |}.
Proof.
  intros Hne. unfold save_results.
  rewrite calculate_coverage_nonempty, calculate_avg_distance_nonempty by exact Hne.
  eexists. split; [reflexivity|]. split; reflexivity.
Qed.

(** With every weight equal to 1 the two averages agree. *)
Lemma plain_avg_is_unit_weighted (centers : list DemandCenter) (stations : list Station) :
  Forall (fun center => dc_weight center = 1) centers ->
  weighted_avg_distance centers stations = plain_avg_distance centers stations.
Proof.
  intros Hw. unfold weighted_avg_distance, plain_avg_distance. f_equal.
  induction Hw as [|center centers Hc _ IH]; simpl; [reflexivity|].
  rewrite IH, Hc. ring.
Qed.

(** C2, as stated, fails: for the one-station placement at the city center
    the exported [avg_distance] is not the [avg_distance] of the reward. *)
Lemma exported_avg_distance_differs :
  exists res a c sp,
    save_results StationPlacementRL.default one_station = Return res
    /\ reward_components StationPlacementRL.default one_station = Return (a, c, sp)
    /\ avg_distance (r_metrics res) <> a.
Proof.
  assert (Hne : demand_centers StationPlacementRL.default <> []) by discriminate.
  destruct (save_results_nonempty StationPlacementRL.default city_center_station [] Hne)
    as (res & Hres & _ & Hm).
  exists res. eexists _, _, _. split; [exact Hres|].
  split; [apply reward_components_nonempty; exact Hne|].
  rewrite Hm. cbn [avg_distance]. intros Heq. injection Heq as Heq.
  unfold plain_avg_distance, weighted_avg_distance, min_distance in Heq.
  cbn [demand_centers StationPlacementRL.default init bhubaneswar_centers
       map fold_right Rlist_sum length dc_weight] in Heq.
  unfold distance_to in Heq.
  cbn [dc_lat dc_lon st_lat st_lon city_center_station] in Heq.
  pose proof (haversine_nonneg 20.2961 85.8245 20.2961 85.8245) as H1.
  pose proof (haversine_pos 20.2644 85.8281 20.2961 85.8245) as H2.
  pose proof (haversine_nonneg 20.3100 85.8500 20.2961 85.8245) as H3.
  pose proof (haversine_nonneg 20.2500 85.8500 20.2961 85.8245) as H4.
  pose proof (haversine_nonneg 20.3000 85.8800 20.2961 85.8245) as H5.
  assert (H2' : 0 < _haversine_distance 20.2644 85.8281 20.2961 85.8245)
    by (apply H2; lra).
  clear H2.
  set (d1 := _haversine_distance 20.2961 85.8245 20.2961 85.8245) in *.
  set (d2 := _haversine_distance 20.2644 85.8281 20.2961 85.8245) in *.
  set (d3 := _haversine_distance 20.3100 85.8500 20.2961 85.8245) in *.
  set (d4 := _haversine_distance 20.2500 85.8500 20.2961 85.8245) in *.
  set (d5 := _haversine_distance 20.3000 85.8800 20.2961 85.8245) in *.
  simpl INR in Heq. lra.
Qed.

(** C2, amended: for a non-empty placement the exported coverage and spread
    are the components the reward function computes on that placement; the
    exported [avg_distance] is the plain mean over the centers of the least
    distance to a station, while the reward weights each of them. *)
Theorem exported_metrics_vs_reward (self : StationPlacementRL.t)
    (s : Station) (rest : list Station)
    (Hcenters : demand_centers self <> []) :
  exists res a c sp,
    save_results self (s :: rest) = Return res
    /\ reward_components self (s :: rest) = Return (a, c, sp)
    /\ coverage (r_metrics res) = c
    /\ spread (r_metrics res) = sp
    /\ avg_distance (r_metrics res)
       = Fin (plain_avg_distance (demand_centers self) (s :: rest))
    /\ a = Fin (weighted_avg_distance (demand_centers self) (s :: rest)).
Proof.
  destruct (save_results_nonempty self s rest Hcenters) as (res & Hres & _ & Hm).
  exists res. eexists _, _, _. split; [exact Hres|].
  split; [apply reward_components_nonempty; exact Hcenters|].
  rewrite Hm. repeat split; reflexivity.
Qed.

Lemma exported_metrics_vs_reward_witness :
  demand_centers StationPlacementRL.default <> []
  /\ exists res a c sp,
       save_results StationPlacementRL.default one_station = Return res
       /\ reward_components StationPlacementRL.default one_station = Return (a, c, sp)
       /\ coverage (r_metrics res) = c
       /\ spread (r_metrics res) = sp
       /\ avg_distance (r_metrics res)
          = Fin (plain_avg_distance bhubaneswar_centers one_station)
       /\ a = Fin (weighted_avg_distance bhubaneswar_centers one_station).
Proof.
  assert (H : demand_centers StationPlacementRL.default <> []) by discriminate.
  split; [exact H|].
  apply (exported_metrics_vs_reward StationPlacementRL.default city_center_station [] H).
Defined.

End ExportedMetrics.

(** ** The first selections of the UCB bandit *)

Section FirstSelections.
Import UCB_Bandit.

(** The comprehension keeps the arms that read as never pulled, and its
    reads do not change what any key reads as. *)
Lemma untried_arms_filter (arms : list Arm) (cnts : gmap string nat) :
  (untried_arms arms cnts).1
  = filter (fun arm => dd_peek 0 (arm_id arm) cnts = 0) arms
  /\ forall k, dd_peek 0 k (untried_arms arms cnts).2 = dd_peek 0 k cnts.
Proof.
  revert cnts. induction arms as [|arm rest IH]; intros cnts; simpl.
  - split; [reflexivity|]. intros k. reflexivity.
  - pose proof (dd_get_peek 0 (arm_id arm) cnts) as Hn.
    assert (Hpeek : forall k, dd_peek 0 k (dd_get 0 (arm_id arm) cnts).2 = dd_peek 0 k cnts)
      by (intros k; apply dd_peek_after_get).
    destruct (dd_get 0 (arm_id arm) cnts) as [n cnts1]. simpl in Hn, Hpeek.
    destruct (IH cnts1) as [IH1 IH2].
    destruct (untried_arms rest cnts1) as [l cnts2]. simpl in *.
    split.
    + subst l n.
      rewrite (list_filter_iff _ (fun arm => dd_peek 0 (arm_id arm) cnts = 0))
        by (intros x; rewrite Hpeek; reflexivity).
      destruct (decide (dd_peek 0 (arm_id arm) cnts = 0)) as [Hz|Hnz].
      * rewrite filter_cons_True by exact Hz. reflexivity.
      * rewrite filter_cons_False by exact Hnz. reflexivity.
    + intros k. rewrite IH2. apply Hpeek.
Qed.

Lemma untried_in_filter (b : UCB_Bandit.t) (arms : list Arm) :
  untried_in b arms = filter (fun arm => dd_peek 0 (arm_id arm) (counts b) = 0) arms.
Proof. unfold untried_in. apply untried_arms_filter. Qed.

Lemma random_choice_elem {A : Type} (l : list A) (g : rng) :
  l <> [] -> exists a, (random_choice l g).1 = Some a /\ a ∈ l.
Proof.
  intros Hne. unfold random_choice. simpl.
  assert (Hlt : N.to_nat (g 0 mod N.of_nat (length l)) < length l).
  { destruct l as [|x l]; [congruence|].
    pose proof (N.mod_lt (g 0) (N.of_nat (length (x :: l)))) as H.
    simpl length in *. lia. }
  destruct (lookup_lt_is_Some_2 _ _ Hlt) as [a Ha].
  exists a. split; [exact Ha|]. apply list_elem_of_lookup. eauto.
Qed.

(** With an untried arm in the pool, [select_arm] returns one of the untried
    arms from its first [return], before any UCB value is computed; the
    bandit reads as before. *)
Lemma select_arm_untried (b : UCB_Bandit.t) (arms : list Arm) (g : rng) :
  untried_in b arms <> [] ->
  exists a b1 g1,
    select_arm b arms g = (Return (Some a), b1, g1)
    /\ a ∈ untried_in b arms
    /\ (forall k, dd_peek 0 k (counts b1) = dd_peek 0 k (counts b))
    /\ g1 = (random_choice (untried_in b arms) g).2.
Proof.
  intros Hne. unfold select_arm, untried_in in *.
  destruct arms as [|arm0 rest]; [simpl in Hne; congruence|].
  pose proof (untried_arms_filter (arm0 :: rest) (counts b)) as [_ Hpeek].
  destruct (untried_arms (arm0 :: rest) (counts b)) as [untried counts1].
  cbn [fst snd] in Hne, Hpeek |- *.
  destruct untried as [|u us]; [congruence|].
  destruct (random_choice_elem (u :: us) g Hne) as (a & Ha & Hin).
  destruct (random_choice (u :: us) g) as [oa g1]. cbn [fst snd] in Ha |- *. subst oa.
  exists a. eexists. exists g1. split; [reflexivity|].
  repeat split; [exact Hin|exact Hpeek].
Qed.

Lemma update_peek_counts (b : UCB_Bandit.t) (arm : Arm) (reward : R) (k : string) :
  dd_peek 0 k (counts (update b arm reward))
  = if decide (arm_id arm = k) then dd_peek 0 (arm_id arm) (counts b) + 1
    else dd_peek 0 k (counts b).
Proof. rewrite update_unfold. simpl. apply dd_peek_insert. Qed.

(** Pulling an arm takes the arms with its id, and no other, out of the
    untried ones. *)
Lemma untried_after_update (b b1 : UCB_Bandit.t) (arms : list Arm)
    (a : Arm) (reward : R) :
  (forall k, dd_peek 0 k (counts b1) = dd_peek 0 k (counts b)) ->
  untried_in (update b1 a reward) arms
  = filter (fun arm => arm_id arm <> arm_id a) (untried_in b arms).
Proof.
  intros Hpeek. rewrite !untried_in_filter.
  induction arms as [|x arms IH]; [reflexivity|].
  destruct (decide (dd_peek 0 (arm_id x) (counts b) = 0)) as [Hz|Hnz].
  - rewrite (filter_cons_True _ x arms Hz).
    destruct (decide (arm_id x = arm_id a)) as [Heq|Hneq].
    + rewrite (filter_cons_False (fun arm => arm_id arm <> arm_id a)) by tauto.
      rewrite filter_cons_False; [exact IH|].
      rewrite update_peek_counts, decide_True by auto. lia.
    + rewrite (filter_cons_True (fun arm => arm_id arm <> arm_id a)) by exact Hneq.
      rewrite filter_cons_True; [rewrite IH; reflexivity|].
      rewrite update_peek_counts, decide_False, Hpeek by auto. exact Hz.
  - rewrite (filter_cons_False _ x arms Hnz).
    rewrite filter_cons_False; [exact IH|].
    rewrite update_peek_counts. destruct (decide (arm_id a = arm_id x)); [lia|].
    rewrite Hpeek. exact Hnz.
Qed.

Lemma filter_all {A : Type} (P : A -> Prop) `{forall x, Decision (P x)} (l : list A) :
  (forall x, x ∈ l -> P x) -> filter P l = l.
Proof.
  induction l as [|x l IH]; intros Hall; [reflexivity|].
  rewrite filter_cons_True by (apply Hall; constructor).
  f_equal. apply IH. intros y Hy. apply Hall. constructor. exact Hy.
Qed.

Lemma NoDup_ids_filter (P : Arm -> Prop) `{forall x, Decision (P x)} (l : list Arm) :
  NoDup (arm_id <$> l) -> NoDup (arm_id <$> filter P l).
Proof.
  induction l as [|x l IH]; intros Hnd; [constructor|].
  simpl in Hnd. apply NoDup_cons in Hnd as [Hx Hnd].
  destruct (decide (P x)) as [Hp|Hp].
  - rewrite filter_cons_True by exact Hp. simpl. apply NoDup_cons. split; [|auto].
    intros Hin. apply Hx.
    apply list_elem_of_fmap in Hin as (y & Hy & Hin).
    apply list_elem_of_fmap. exists y. split; [exact Hy|].
    apply list_elem_of_filter in Hin. tauto.
  - rewrite filter_cons_False by exact Hp. auto.
Qed.

(** In a list of arms with distinct ids, an arm and the arms of other ids
    make up the list. *)
Lemma remove_id_Permutation (l : list Arm) (a : Arm) :
  NoDup (arm_id <$> l) -> a ∈ l ->
  l ≡ₚ a :: filter (fun arm => arm_id arm <> arm_id a) l.
Proof.
  induction l as [|x l IH]; intros Hnd Hin; [inversion Hin|].
  simpl in Hnd. apply NoDup_cons in Hnd as [Hx Hnd].
  apply elem_of_cons in Hin as [->|Hin].
  - rewrite filter_cons_False by tauto.
    rewrite filter_all; [reflexivity|].
    intros y Hy Heq. apply Hx. rewrite <- Heq.
    apply list_elem_of_fmap. exists y. split; [reflexivity|exact Hy].
  - assert (Hne : arm_id x <> arm_id a).
    { intros Heq. apply Hx. rewrite Heq.
      apply list_elem_of_fmap. exists a. split; [reflexivity|exact Hin]. }
    rewrite filter_cons_True by exact Hne.
    rewrite (IH Hnd Hin) at 1. apply perm_swap.
Qed.

(** As long as rewards keep coming and untried arms are left, every
    selection takes an untried arm. *)
Lemma ucb_play_untried (arms : list Arm) (rewards : list R) :
  NoDup (arm_id <$> arms) ->
  forall (b : UCB_Bandit.t) (g : rng),
    length rewards <= length (untried_in b arms) ->
    exists trace b' g',
      ucb_play b arms g rewards = (Return trace, b', g')
      /\ length trace = length rewards
      /\ trace.*2 ++ untried_in b' arms ≡ₚ untried_in b arms
      /\ Forall (fun p => untried_in p.1 arms <> []) trace.
Proof.
  intros Hnd. induction rewards as [|reward rest IH]; intros b g Hlen.
  - exists [], b, g. simpl. repeat split; [reflexivity|constructor].
  - assert (Hne : untried_in b arms <> []).
    { intros E. rewrite E in Hlen. simpl in Hlen. lia. }
    destruct (select_arm_untried b arms g Hne) as (a & b1 & g1 & Hsel & Hin & Hpeek & _).
    pose proof (untried_after_update b b1 arms a reward Hpeek) as Hnext.
    assert (HndU : NoDup (arm_id <$> untried_in b arms)).
    { rewrite untried_in_filter. apply NoDup_ids_filter, Hnd. }
    pose proof (remove_id_Permutation _ a HndU Hin) as Hperm.
    rewrite <- Hnext in Hperm.
    assert (Hlen' : length rest <= length (untried_in (update b1 a reward) arms)).
    { apply Permutation_length in Hperm. simpl in Hperm, Hlen. lia. }
    destruct (IH (update b1 a reward) g1 Hlen') as (trace & b' & g' & Hplay & Hl & Hp & Hall).
    exists ((b, a) :: trace), b', g'. simpl. rewrite Hsel, Hplay.
    repeat split.
    + simpl. rewrite Hl. reflexivity.
    + rewrite Hp. symmetry. exact Hperm.
    + constructor; [exact Hne|exact Hall].
Qed.

Lemma untried_in_init (c0 : R) (arms : list Arm) : untried_in (init c0) arms = arms.
Proof.
  rewrite untried_in_filter. apply filter_all. intros x _. reflexivity.
Qed.

(** C5: from zero prior pulls, over a pool of [k] arms (with distinct ids)
    and with an update after each selection, the first [k] selections return
    each arm exactly once, and each of them finds an untried arm, so leaves
    [select_arm] before any UCB value is computed. *)
Theorem ucb_first_selections (c0 : R) (arms : list Arm) (rewards : list R) (g : rng)
    (Hids : NoDup (arm_id <$> arms))
    (Hlen : length rewards = length arms) :
  exists trace b' g',
    ucb_play (init c0) arms g rewards = (Return trace, b', g')
    /\ trace.*2 ≡ₚ arms
    /\ Forall (fun p => untried_in p.1 arms <> []) trace.
Proof.
  destruct (ucb_play_untried arms rewards Hids (init c0) g)
    as (trace & b' & g' & Hplay & Hl & Hp & Hall).
  { rewrite untried_in_init. lia. }
  exists trace, b', g'. split; [exact Hplay|]. split; [|exact Hall].
  rewrite untried_in_init in Hp.
  assert (Hnil : untried_in b' arms = []).
  { apply Permutation_length in Hp. rewrite length_app, length_fmap in Hp.
    apply length_zero_iff_nil. lia. }
  rewrite Hnil, app_nil_r in Hp. exact Hp.
Qed.

Lemma ucb_first_selections_witness :
  NoDup (arm_id <$> [strategic_0; grid_0; random_0])
  /\ length [1%R; 2%R; 3%R] = length [strategic_0; grid_0; random_0]
  /\ exists trace b' g',
       ucb_play UCB_Bandit.default [strategic_0; grid_0; random_0] zero_rng
                [1%R; 2%R; 3%R]
       = (Return trace, b', g')
       /\ trace.*2 ≡ₚ [strategic_0; grid_0; random_0]
       /\ Forall (fun p => untried_in p.1 [strategic_0; grid_0; random_0] <> []) trace.
Proof.
  assert (Hids : NoDup (arm_id <$> [strategic_0; grid_0; random_0])).
  { apply (bool_decide_unpack _). vm_compute. exact I. }
  assert (Hlen : length [1%R; 2%R; 3%R] = length [strategic_0; grid_0; random_0])
    by reflexivity.
  split; [exact Hids|]. split; [exact Hlen|].
  apply (ucb_first_selections 2%R [strategic_0; grid_0; random_0]
           [1%R; 2%R; 3%R] zero_rng Hids Hlen).
Defined.

End FirstSelections.

(** ** The generated pool *)

Section GeneratedPool.

Lemma for_range_ids (body : nat -> rng -> Arm * rng) (f : nat -> string)
    (idxs : list nat) (acc : list Arm) (g : rng) :
  (forall i g, arm_id (body i g).1 = f i) ->
  arm_id <$> (for_range body idxs acc g).1 = (arm_id <$> acc) ++ (f <$> idxs).
Proof.
  intros Hid. revert acc g. induction idxs as [|i idxs IH]; intros acc g; simpl.
  - rewrite app_nil_r. reflexivity.
  - specialize (Hid i g). destruct (body i g) as [x g1]. simpl in Hid.
    rewrite IH, fmap_app. simpl. rewrite Hid, <- app_assoc. reflexivity.
Qed.

Lemma strategic_ids (centers : list DemandCenter) (n : nat) :
  arm_id <$> imap (fun i => strategic_candidate (n + i)) centers
  = (fun i => "strategic_" +:+ pretty i) <$> seq n (length centers).
Proof.
  revert n. induction centers as [|center centers IH]; intros n; simpl; [reflexivity|].
  rewrite Nat.add_0_r. f_equal.
  rewrite <- IH. f_equal. apply imap_ext. intros i x _. simpl.
  f_equal. lia.
Qed.

Lemma generated_ids (self : StationPlacementRL.t) (g : rng) :
  arm_id <$> (generate_candidate_placements self g).1
  = ((fun i => "strategic_" +:+ pretty i)
       <$> seq 0 (num_stations self `min` length (demand_centers self)))
    ++ ((fun i => "grid_" +:+ pretty i) <$> seq 0 (num_stations self))
    ++ ((fun i => "random_" +:+ pretty i) <$> seq 0 (num_stations self)).
Proof.
  unfold generate_candidate_placements.
  pose proof (for_range_ids (grid_candidate self) (fun i => "grid_" +:+ pretty i)
                (seq 0 (num_stations self))
                (imap strategic_candidate (take (num_stations self) (demand_centers self)))
                g) as Hgrid.
  destruct (for_range (grid_candidate self) _ _ g) as [candidates g1].
  rewrite (for_range_ids (random_candidate self) (fun i => "random_" +:+ pretty i)).
  - simpl in Hgrid. rewrite Hgrid.
    + rewrite (strategic_ids _ 0), length_take, <- app_assoc. reflexivity.
    + intros i g0. unfold grid_candidate.
      repeat (destruct (random_uniform _ _ _)). reflexivity.
  - intros i g0. unfold random_candidate.
    repeat (destruct (random_uniform _ _ _)). reflexivity.
Qed.

Lemma prefixed_ids_NoDup (prefix : string) (n : nat) :
  NoDup ((fun i => prefix +:+ pretty i) <$> seq 0 n).
Proof.
  apply NoDup_fmap_2_strong; [|apply NoDup_seq].
  intros i j _ _ Heq. apply (inj (String.app prefix)) in Heq.
  apply (inj pretty). exact Heq.
Qed.

Lemma first_letter_differs (a b : Ascii.ascii) (s t u v : string) :
  a <> b -> String a s +:+ u <> String b t +:+ v.
Proof. intros Hne Heq. unfold String.app in Heq. congruence. Qed.

(** The generator gives no two arms the same id. *)
Lemma generated_ids_NoDup (self : StationPlacementRL.t) (g : rng) :
  NoDup (arm_id <$> (generate_candidate_placements self g).1).
Proof.
  rewrite generated_ids.
  apply NoDup_app. split; [apply prefixed_ids_NoDup|]. split.
  - intros x Hx Hin.
    apply list_elem_of_fmap in Hx as (i & -> & _).
    apply elem_of_app in Hin as [Hin|Hin];
      apply list_elem_of_fmap in Hin as (j & Heq & _);
      revert Heq; apply first_letter_differs; discriminate.
  - apply NoDup_app. split; [apply prefixed_ids_NoDup|].
    split; [|apply prefixed_ids_NoDup].
    intros x Hx Hin.
    apply list_elem_of_fmap in Hx as (i & -> & _).
    apply list_elem_of_fmap in Hin as (j & Heq & _).
    revert Heq. apply first_letter_differs. discriminate.
Qed.

(** The pool holds the strategic arms (one per demand center, at most the
    station count), then as many grid arms and as many random arms as the
    station count. *)
Lemma generated_pool_size (self : StationPlacementRL.t) (g : rng) :
  length (generate_candidate_placements self g).1
  = num_stations self `min` length (demand_centers self)
    + num_stations self + num_stations self.
Proof.
  rewrite <- (length_fmap arm_id), generated_ids.
  rewrite !length_app, !length_fmap, !length_seq. lia.
Qed.

(** The first selections over a generated pool, from a new bandit: every arm
    of the pool once. *)
Lemma ucb_first_selections_generated (self : StationPlacementRL.t)
    (g g0 : rng) (rewards : list R) :
  let arms := (generate_candidate_placements self g).1 in
  length rewards = length arms ->
  exists trace b' g',
    ucb_play (UCB_Bandit.init 2) arms g0 rewards = (Return trace, b', g')
    /\ trace.*2 ≡ₚ arms
    /\ Forall (fun p => untried_in p.1 arms <> []) trace.
Proof.
  intros arms Hlen.
  destruct (ucb_play_untried arms rewards (generated_ids_NoDup self g)
              (UCB_Bandit.init 2) g0)
    as (trace & b' & g' & Hplay & Hl & Hp & Hall).
  { rewrite untried_in_init. lia. }
  exists trace, b', g'. split; [exact Hplay|]. split; [|exact Hall].
  rewrite untried_in_init in Hp.
  assert (Hnil : untried_in b' arms = []).
  { apply Permutation_length in Hp. rewrite length_app, length_fmap in Hp.
    apply length_zero_iff_nil. lia. }
  rewrite Hnil, app_nil_r in Hp. exact Hp.
Qed.

End GeneratedPool.

(** * Further properties of the code *)

(** ** Haversine distance *)

Section HaversineFacts.
Local Open Scope R_scope.

Lemma atan2_le_half_pi (y x : R) : 0 <= y -> 0 <= x -> atan2 y x <= PI / 2.
Proof.
  intros Hy Hx. unfold atan2. pose proof PI_RGT_0 as Hpi.
  destruct (Rlt_dec 0 x) as [Hpos|_].
  - left. apply atan_bound.
  - destruct (Rlt_dec x 0); [lra|].
    destruct (Rlt_dec 0 y); [lra|].
    destruct (Rlt_dec y 0); lra.
Qed.

(** The two points can be swapped. *)
Lemma haversine_sym (lat1 lon1 lat2 lon2 : R) :
  _haversine_distance lat1 lon1 lat2 lon2 = _haversine_distance lat2 lon2 lat1 lon1.
Proof.
  unfold _haversine_distance. cbv zeta.
  replace (radians (lat1 - lat2) / 2) with (- (radians (lat2 - lat1) / 2))
    by (unfold radians; lra).
  replace (radians (lon1 - lon2) / 2) with (- (radians (lon2 - lon1) / 2))
    by (unfold radians; lra).
  rewrite !sin_neg.
  set (s1 := sin (radians (lat2 - lat1) / 2)).
  set (s2 := sin (radians (lon2 - lon1) / 2)).
  replace ((- s1) ^ 2 + cos (radians lat2) * cos (radians lat1) * (- s2) ^ 2)
    with (s1 ^ 2 + cos (radians lat1) * cos (radians lat2) * s2 ^ 2) by ring.
  reflexivity.
Qed.

(** X1: the distance does not depend on the order of the two points. *)
Theorem haversine_symmetric (lat1 lon1 lat2 lon2 : R) :
  _haversine_distance lat1 lon1 lat2 lon2 = _haversine_distance lat2 lon2 lat1 lon1.
Proof. apply haversine_sym. Qed.

(** No distance from a point to itself. *)
Lemma haversine_zero (lat lon : R) :
  _haversine_distance lat lon lat lon = 0.
Proof.
  unfold _haversine_distance. cbv zeta.
  replace (radians (lat - lat) / 2) with 0 by (unfold radians; lra).
  replace (radians (lon - lon) / 2) with 0 by (unfold radians; lra).
  rewrite sin_0.
  replace (0 ^ 2 + cos (radians lat) * cos (radians lat) * 0 ^ 2) with 0 by ring.
  rewrite Rminus_0_r, sqrt_0, sqrt_1.
  unfold atan2. destruct (Rlt_dec 0 1) as [_|H]; [|lra].
  replace (0 / 1) with 0 by lra. rewrite atan_0. ring.
Qed.

(** X2: a point is at distance 0 from itself. *)
Theorem haversine_same_point (lat lon : R) :
  _haversine_distance lat lon lat lon = 0.
Proof. apply haversine_zero. Qed.

(** X3: a distance is never negative and never more than half the
    circumference of the sphere of radius 6371. *)
Theorem haversine_range (lat1 lon1 lat2 lon2 : R) :
  0 <= _haversine_distance lat1 lon1 lat2 lon2 <= 6371 * PI.
Proof.
  split; [apply haversine_nonneg|].
  unfold _haversine_distance. cbv zeta.
  set (a := _ + _).
  pose proof (atan2_le_half_pi (sqrt a) (sqrt (1 - a)) (sqrt_pos _) (sqrt_pos _)).
  lra.
Qed.

End HaversineFacts.

(** ** Coverage *)

Section CoverageFacts.
Local Open Scope R_scope.

Lemma covered_fraction_range (centers : list DemandCenter) (stations : list Station) :
  centers <> [] -> 0 <= covered_fraction centers stations <= 1.
Proof.
  intros Hne. unfold covered_fraction.
  set (P := fun center => Exists _ stations).
  pose proof (length_filter P centers) as Hle.
  assert (Hpos : 0 < INR (length centers)).
  { apply lt_0_INR. destruct centers; [congruence|simpl; lia]. }
  apply le_INR in Hle. pose proof (pos_INR (length (filter P centers))) as H0.
  split.
  - apply Rmult_le_pos; [exact H0|]. left. apply Rinv_0_lt_compat, Hpos.
  - apply (Rmult_le_reg_r (INR (length centers))); [exact Hpos|].
    unfold Rdiv. rewrite Rmult_assoc, Rinv_l by lra. lra.
Qed.

(** The three ways [_calculate_coverage] ends. *)
Lemma calculate_coverage_outcome (self : StationPlacementRL.t) (stations : list Station) :
  _calculate_coverage self stations
  = match stations, demand_centers self with
    | [], _ => Return 0
    | _ :: _, [] => Raise ZeroDivisionError
    | _ :: _, _ :: _ => Return (covered_fraction (demand_centers self) stations)
    end.
Proof.
  destruct stations as [|s rest].
  - unfold _calculate_coverage. f_equal. lra.
  - destruct (demand_centers self) as [|c0 cs] eqn:E.
    + unfold _calculate_coverage. rewrite E. reflexivity.
    + rewrite calculate_coverage_nonempty by congruence. rewrite E. reflexivity.
Qed.

Lemma coverage_in_unit (self : StationPlacementRL.t) (stations : list Station) (cov : R) :
  _calculate_coverage self stations = Return cov -> 0 <= cov <= 1.
Proof.
  intros Hret. rewrite calculate_coverage_outcome in Hret.
  destruct stations as [|s rest]; [inversion Hret; lra|].
  destruct (demand_centers self) as [|c0 cs] eqn:E; [discriminate|].
  inversion Hret. apply covered_fraction_range. discriminate.
Qed.

(** X4: whenever [_calculate_coverage] returns, the value is a fraction
    between 0 and 1. *)
Theorem calculate_coverage_range (self : StationPlacementRL.t)
    (stations : list Station) (cov : R)
    (Hret : _calculate_coverage self stations = Return cov) :
  0 <= cov <= 1.
Proof. exact (coverage_in_unit self stations cov Hret). Qed.

Lemma calculate_coverage_range_witness :
  _calculate_coverage StationPlacementRL.default one_station
  = Return (covered_fraction bhubaneswar_centers one_station)
  /\ 0 <= covered_fraction bhubaneswar_centers one_station <= 1.
Proof.
  assert (H : _calculate_coverage StationPlacementRL.default one_station
              = Return (covered_fraction bhubaneswar_centers one_station)).
  { apply (calculate_coverage_nonempty StationPlacementRL.default
             city_center_station []). discriminate. }
  split; [exact H|].
  apply (calculate_coverage_range StationPlacementRL.default one_station _ H).
Defined.


(** X6: when every demand center has a station within 2.0 km, the coverage
    is exactly 1. *)
Theorem calculate_coverage_full (self : StationPlacementRL.t)
    (stations : list Station)
    (Hcenters : demand_centers self <> [])
    (Hnear : forall center, center ∈ demand_centers self ->
               exists station, station ∈ stations /\ distance_to center station <= 2) :
  _calculate_coverage self stations = Return 1.
Proof.
  destruct stations as [|s rest].
  - destruct (demand_centers self) as [|c0 cs]; [congruence|].
    destruct (Hnear c0) as (st & Hin & _); [constructor|]. inversion Hin.
  - rewrite calculate_coverage_nonempty by exact Hcenters.
    f_equal. unfold covered_fraction.
    rewrite filter_all.
    + apply Rinv_r. apply not_0_INR.
      destruct (demand_centers self); [congruence|simpl; lia].
    + intros center Hc. apply Exists_exists.
      destruct (Hnear center Hc) as (st & Hin & Hle). eauto.
Qed.

Lemma covered_centers_grow (centers : list DemandCenter)
    (stations stations' : list Station) :
  stations ⊆ stations' ->
  filter (fun center =>
            Exists (fun station => distance_to center station <= 2) stations) centers
  `sublist_of`
  filter (fun center =>
            Exists (fun station => distance_to center station <= 2) stations') centers.
Proof.
  intros Hsub. induction centers as [|center centers IH]; [constructor|].
  destruct (decide (Exists (fun station => distance_to center station <= 2) stations))
    as [Hex|Hnex].
  - rewrite (filter_cons_True _ center centers Hex).
    rewrite filter_cons_True.
    + constructor. exact IH.
    + apply Exists_exists in Hex as (st & Hin & Hle).
      apply Exists_exists. exists st. split; [apply Hsub, Hin|exact Hle].
  - rewrite (filter_cons_False _ center centers Hnex).
    destruct (decide (Exists (fun station => distance_to center station <= 2) stations'))
      as [Hex'|Hnex'].
    + rewrite (filter_cons_True _ center centers Hex'). constructor. exact IH.
    + rewrite (filter_cons_False _ center centers Hnex'). exact IH.
Qed.

(** X7: adding stations never lowers the coverage. *)
Theorem calculate_coverage_monotone (self : StationPlacementRL.t)
    (stations stations' : list Station) (cov cov' : R)
    (Hsub : stations ⊆ stations')
    (Hcov : _calculate_coverage self stations = Return cov)
    (Hcov' : _calculate_coverage self stations' = Return cov') :
  cov <= cov'.
Proof.
  pose proof (coverage_in_unit self stations' cov' Hcov') as Hr'.
  rewrite calculate_coverage_outcome in Hcov, Hcov'.
  destruct stations as [|s rest]; [inversion Hcov; lra|].
  destruct stations' as [|s' rest'].
  { exfalso. assert (s ∈ @nil Station) as H by (apply Hsub; constructor). inversion H. }
  destruct (demand_centers self) as [|c0 cs] eqn:E; [discriminate|].
  inversion Hcov; inversion Hcov'; subst. clear Hcov Hcov'.
  unfold covered_fraction. apply Rmult_le_compat_r.
  - left. apply Rinv_0_lt_compat, lt_0_INR. simpl. lia.
  - apply le_INR, sublist_length, covered_centers_grow, Hsub.
Qed.

End CoverageFacts.

Section CoverageWitnesses.
Local Open Scope R_scope.

Lemma strategic_placement_near (center : DemandCenter) :
  center ∈ demand_centers StationPlacementRL.default ->
  exists station, station ∈ strategic_placement /\ distance_to center station <= 2.
Proof.
  intros Hin. simpl in Hin.
  assert (Hself : forall i c, bhubaneswar_centers !! i = Some c ->
            exists station, station ∈ strategic_placement
                            /\ distance_to c station <= 2).
  { intros i c Hi. exists (strategic_station i c). split.
    - apply list_elem_of_lookup. exists i. unfold strategic_placement.
      rewrite list_lookup_imap, Hi. reflexivity.
    - unfold distance_to. simpl. rewrite haversine_zero. lra. }
  apply list_elem_of_lookup in Hin as [i Hi]. eapply Hself, Hi.
Qed.

Lemma calculate_coverage_full_witness :
  demand_centers StationPlacementRL.default <> []
  /\ _calculate_coverage StationPlacementRL.default strategic_placement = Return 1.
Proof.
  assert (H : demand_centers StationPlacementRL.default <> []) by discriminate.
  split; [exact H|].
  apply (calculate_coverage_full StationPlacementRL.default strategic_placement H
           strategic_placement_near).
Defined.

Lemma calculate_coverage_monotone_witness :
  one_station ⊆ strategic_placement
  /\ covered_fraction bhubaneswar_centers one_station
     <= covered_fraction bhubaneswar_centers strategic_placement.
Proof.
  assert (Hsub : one_station ⊆ strategic_placement).
  { intros x Hx. apply list_elem_of_singleton in Hx. subst x. constructor. }
  split; [exact Hsub|].
  apply (calculate_coverage_monotone StationPlacementRL.default
           one_station strategic_placement _ _ Hsub).
  - apply (calculate_coverage_nonempty StationPlacementRL.default
             city_center_station []). discriminate.
  - apply (calculate_coverage_nonempty StationPlacementRL.default
             (strategic_station 0 (mkCenter 20.2961 85.8245 1.0 "City Center"))).
    discriminate.
Defined.

End CoverageWitnesses.

(** ** Spread and reward: range and order of the stations *)

Section RewardFacts.
Local Open Scope R_scope.

(** The spread is a fraction. *)
Lemma spread_in_unit (stations : list Station) :
  0 <= _calculate_spread stations <= 1.
Proof.
  unfold _calculate_spread.
  destruct (decide (length stations < 2)%nat); [lra|].
  destruct (spread_loop stations (0.0, 0%nat)) as [total_dist count].
  set (avg := if decide (0 < count)%nat then _ else _).
  destruct (Rlt_dec avg 1.0); [lra|].
  destruct (Rlt_dec 5.0 avg); lra.
Qed.

(** X8: the spread score lies between 0 and 1. *)
Theorem calculate_spread_range (stations : list Station) :
  0 <= _calculate_spread stations <= 1.
Proof. apply spread_in_unit. Qed.











Lemma min_distance_nonneg (center : DemandCenter) (stations : list Station) :
  0 <= min_distance center stations.
Proof.
  destruct stations as [|s rest]; [unfold min_distance; simpl; lra|].
  destruct (min_distance_is_min center s rest) as [_ (w & _ & ->)].
  apply haversine_nonneg.
Qed.

Lemma weighted_avg_distance_nonneg (centers : list DemandCenter) (stations : list Station) :
  Forall (fun center => 0 <= dc_weight center) centers ->
  0 <= weighted_avg_distance centers stations.
Proof.
  intros Hw. unfold weighted_avg_distance.
  assert (Hsum : 0 <= Rlist_sum (map (fun center =>
                        min_distance center stations * dc_weight center) centers)).
  { induction Hw as [|center centers Hc _ IH]; simpl; [lra|].
    pose proof (min_distance_nonneg center stations). nra. }
  destruct centers as [|c0 cs].
  - simpl. unfold Rdiv. rewrite Rinv_0. lra.
  - apply Rmult_le_pos; [exact Hsum|]. left.
    apply Rinv_0_lt_compat, lt_0_INR. simpl. lia.
Qed.

(** The ways [calculate_reward] ends: a finite number, or the division by
    the number of demand centers raising. *)
Lemma calculate_reward_outcome (self : StationPlacementRL.t) (placement : list Station) :
  calculate_reward self placement
  = match placement, demand_centers self with
    | [], _ => Return (Fin (-1000))
    | _ :: _, [] => Raise ZeroDivisionError
    | _ :: _, _ :: _ =>
        Return (Fin (- weighted_avg_distance (demand_centers self) placement * 10
                     + covered_fraction (demand_centers self) placement * 100
                     + _calculate_spread placement * 50))
    end.
Proof.
  destruct placement as [|s rest].
  - unfold calculate_reward. do 2 f_equal. lra.
  - destruct (demand_centers self) as [|c0 cs] eqn:E.
    + apply calculate_reward_no_centers, E.
    + unfold calculate_reward.
      rewrite reward_components_nonempty by congruence. rewrite E. reflexivity.
Qed.

(** X10: with weights that are not negative, no reward exceeds 150. *)
Theorem calculate_reward_upper_bound (self : StationPlacementRL.t)
    (placement : list Station) (reward : R)
    (Hweights : Forall (fun center => 0 <= dc_weight center) (demand_centers self))
    (Hret : calculate_reward self placement = Return (Fin reward)) :
  reward <= 150.
Proof.
  rewrite calculate_reward_outcome in Hret.
  destruct placement as [|s rest]; [inversion Hret; lra|].
  destruct (demand_centers self) as [|c0 cs] eqn:E; [discriminate|].
  inversion Hret. clear Hret.
  pose proof (weighted_avg_distance_nonneg (c0 :: cs) (s :: rest) Hweights).
  pose proof (covered_fraction_range (c0 :: cs) (s :: rest)) as Hc.
  pose proof (spread_in_unit (s :: rest)).
  assert (c0 :: cs <> []) as Hne by discriminate. specialize (Hc Hne).
  lra.
Qed.


End RewardFacts.

Section RewardWitnesses.
Local Open Scope R_scope.

Lemma calculate_reward_upper_bound_witness :
  Forall (fun center => 0 <= dc_weight center)
         (demand_centers StationPlacementRL.default)
  /\ - weighted_avg_distance bhubaneswar_centers one_station * 10
     + covered_fraction bhubaneswar_centers one_station * 100
     + _calculate_spread one_station * 50 <= 150.
Proof.
  assert (Hw : Forall (fun center => 0 <= dc_weight center)
                      (demand_centers StationPlacementRL.default)).
  { simpl. repeat constructor; simpl; lra. }
  split; [exact Hw|].
  apply (calculate_reward_upper_bound StationPlacementRL.default one_station _ Hw).
  apply (calculate_reward_outcome StationPlacementRL.default one_station).
Defined.

End RewardWitnesses.

(** ** The exported record *)

Section SaveResultsFacts.
Local Open Scope R_scope.

Lemma py_max_ge (x : R) (l : list R) :
  x <= py_max x l /\ forall y, y ∈ l -> y <= py_max x l.
Proof.
  unfold py_max. revert x. induction l as [|z l IH]; intros x; simpl.
  - split; [lra|]. intros y Hy. inversion Hy.
  - destruct (IH (Rmax x z)) as [H1 H2]. split.
    + eapply Rle_trans; [apply Rmax_l|exact H1].
    + intros y Hy. apply elem_of_cons in Hy as [->|Hy]; [|auto].
      eapply Rle_trans; [apply Rmax_r|exact H1].
Qed.

Lemma py_max_elem (x : R) (l : list R) : py_max x l ∈ x :: l.
Proof.
  unfold py_max. revert x. induction l as [|z l IH]; intros x; simpl.
  - constructor.
  - specialize (IH (Rmax x z)). apply elem_of_cons in IH as [Heq|Hin].
    + rewrite Heq. unfold Rmax. destruct (Rle_dec x z); [do 2 constructor|constructor].
    + do 2 constructor. exact Hin.
Qed.



(** X13: the exported [final_reward] is the largest reward of the episode
    log (one of its entries, at least as large as every entry), and 0 for an
    empty log. *)
Theorem save_results_final_reward (self : StationPlacementRL.t)
    (placement : list Station) (res : Results)
    (Hres : save_results self placement = Return res) :
  match episode_rewards self with
  | [] => r_final_reward res = 0
  | _ :: _ =>
      r_final_reward res ∈ episode_rewards self
      /\ forall reward, reward ∈ episode_rewards self -> reward <= r_final_reward res
  end.
Proof.
  unfold save_results in Hres.
  destruct (_calculate_coverage self placement) as [cov|e]; [|discriminate].
  destruct (_calculate_avg_distance_to_demand self placement) as [avg|e]; [|discriminate].
  cbn [mbind outcome_bind] in Hres. inversion Hres. clear Hres. simpl.
  destruct (episode_rewards self) as [|x rest]; [reflexivity|].
  split; [apply py_max_elem|].
  intros reward Hin. destruct (py_max_ge x rest) as [H1 H2].
  apply elem_of_cons in Hin as [->|Hin]; auto.
Qed.

End SaveResultsFacts.

Lemma save_results_final_reward_witness :
  exists res,
    save_results logged_system one_station = Return res
    /\ r_final_reward res ∈ [1%R; 3%R]
    /\ forall reward, reward ∈ [1%R; 3%R] -> (reward <= r_final_reward res)%R.
Proof.
  destruct (save_results_nonempty logged_system city_center_station [])
    as (res & Hres & _); [discriminate|].
  exists res. split; [exact Hres|].
  apply (save_results_final_reward logged_system one_station res Hres).
Defined.

(** ** Epsilon-greedy selection *)

Section EpsilonFacts.
Import EpsilonGreedy_Bandit.
Local Open Scope R_scope.

(** [random.random()] lies in the unit interval, 1 excluded. *)
Lemma random_random_range (g : rng) : 0 <= (random_random g).1 < 1.
Proof.
  unfold random_random, next_raw. cbn [fst].
  set (x := (g 0%nat mod 2 ^ 53)%N).
  assert (Hx : (x < 2 ^ 53)%N) by (apply N.mod_lt; discriminate).
  assert (H0 : (0 <= Z.of_N x)%Z) by lia.
  assert (H1 : (Z.of_N x < 2 ^ 53)%Z) by lia.
  apply IZR_le in H0. apply IZR_lt in H1.
  assert (Hp : 0 < IZR (2 ^ 53)) by (apply IZR_lt; reflexivity).
  split.
  - apply Rmult_le_pos; [exact H0|]. left. apply Rinv_0_lt_compat, Hp.
  - apply (Rmult_lt_reg_r (IZR (2 ^ 53))); [exact Hp|].
    unfold Rdiv. rewrite Rmult_assoc, Rinv_l by lra. lra.
Qed.

(** The exploitation loop keeps what every key reads as, and ends on an
    arm with a history whose mean no arm of the list with a history
    exceeds. *)
Lemma exploit_spec (arms : list Arm) (rwds : gmap string (list R))
    (best : option (Arm * R)) :
  match best with
  | Some (a0, m0) => m0 = mean_of rwds a0 /\ history_of rwds a0 <> []
  | None => True
  end ->
  (forall k, dd_peek [] k (exploit arms rwds best).2 = dd_peek [] k rwds)
  /\ match (exploit arms rwds best).1 with
     | None => best = None /\ forall x, x ∈ arms -> history_of rwds x = []
     | Some (a, m) =>
         m = mean_of rwds a /\ history_of rwds a <> []
         /\ (a ∈ arms \/ exists m0, best = Some (a, m0))
         /\ (forall x, x ∈ arms -> history_of rwds x <> [] -> mean_of rwds x <= m)
         /\ (forall a0 m0, best = Some (a0, m0) -> m0 <= m)
     end.
Proof.
  revert rwds best. induction arms as [|arm rest IH]; intros rwds best Hbest.
  - simpl. split; [reflexivity|]. destruct best as [[a0 m0]|].
    + destruct Hbest as [Hm Hh]. repeat split; try assumption.
      * right. eauto.
      * intros x Hx. inversion Hx.
      * intros a1 m1 Heq. inversion Heq. lra.
    + split; [reflexivity|]. intros x Hx. inversion Hx.
  - simpl.
    pose proof (dd_get_peek [] (arm_id arm) rwds) as Hn.
    assert (Hpeek : forall k, dd_peek [] k (dd_get [] (arm_id arm) rwds).2
                              = dd_peek [] k rwds)
      by (intros k; apply dd_peek_after_get).
    destruct (dd_get [] (arm_id arm) rwds) as [hist rwds1]. simpl in Hn, Hpeek.
    assert (Hhist : forall x, history_of rwds1 x = history_of rwds x)
      by (intros x; apply Hpeek).
    assert (Hmean : forall x, mean_of rwds1 x = mean_of rwds x)
      by (intros x; unfold mean_of; rewrite Hhist; reflexivity).
    assert (Hbest1 : match best with
                     | Some (a0, m0) => m0 = mean_of rwds1 a0 /\ history_of rwds1 a0 <> []
                     | None => True
                     end).
    { destruct best as [[a0 m0]|]; [|exact I]. rewrite Hmean, Hhist. exact Hbest. }
    assert (Hnew : np_mean hist = mean_of rwds1 arm /\ (hist <> [] -> history_of rwds1 arm <> [])).
    { rewrite Hmean, Hhist. unfold mean_of, history_of. rewrite <- Hn. auto. }
    destruct Hnew as [Hnew Hnew'].
    assert (Hstep : forall best',
              match best' with
              | Some (a0, m0) => m0 = mean_of rwds1 a0 /\ history_of rwds1 a0 <> []
              | None => True
              end ->
              (forall k, dd_peek [] k (exploit rest rwds1 best').2 = dd_peek [] k rwds)
              /\ match (exploit rest rwds1 best').1 with
                 | None => best' = None
                           /\ forall x, x ∈ rest -> history_of rwds x = []
                 | Some (a, m) =>
                     m = mean_of rwds a /\ history_of rwds a <> []
                     /\ (a ∈ rest \/ exists m0, best' = Some (a, m0))
                     /\ (forall x, x ∈ rest -> history_of rwds x <> []
                                   -> mean_of rwds x <= m)
                     /\ (forall a0 m0, best' = Some (a0, m0) -> m0 <= m)
                 end).
    { intros best' Hb'. destruct (IH rwds1 best' Hb') as [IH1 IH2]. split.
      - intros k. rewrite IH1. apply Hpeek.
      - destruct (exploit rest rwds1 best').1 as [[a m]|].
        + destruct IH2 as (H1 & H2 & H3 & H4 & H5).
          rewrite Hmean in H1. rewrite Hhist in H2.
          repeat split; try assumption.
          intros x Hx Hh. rewrite <- Hmean. apply H4; [exact Hx|]. rewrite Hhist. exact Hh.
        + destruct IH2 as [H1 H2]. split; [exact H1|].
          intros x Hx. rewrite <- Hhist. apply H2, Hx. }
    destruct hist as [|r hist'].
    + (* no history: the arm is skipped *)
      destruct (Hstep best Hbest1) as [S1 S2]. split; [exact S1|].
      assert (Harm : history_of rwds arm = []) by (unfold history_of; congruence).
      destruct (exploit rest rwds1 best).1 as [[a m]|].
      * destruct S2 as (H1 & H2 & H3 & H4 & H5). repeat split; try assumption.
        -- destruct H3 as [H3|H3]; [left; constructor; exact H3|right; exact H3].
        -- intros x Hx Hh. apply elem_of_cons in Hx as [->|Hx]; [congruence|auto].
      * destruct S2 as [H1 H2]. split; [exact H1|].
        intros x Hx. apply elem_of_cons in Hx as [->|Hx]; auto.
    + assert (Harm : history_of rwds arm <> []).
      { rewrite <- Hhist. apply Hnew'. discriminate. }
      assert (Hnew1 : np_mean (r :: hist') = mean_of rwds arm) by (rewrite <- Hmean; exact Hnew).
      destruct best as [[a0 m0]|].
      * destruct (Rlt_dec m0 (np_mean (r :: hist'))) as [Hlt|Hge].
        -- destruct (Hstep (Some (arm, np_mean (r :: hist')))) as [S1 S2].
           { split; [exact Hnew|]. apply Hnew'. discriminate. }
           split; [exact S1|].
           destruct (exploit rest rwds1 _).1 as [[a m]|].
           ++ destruct S2 as (H1 & H2 & H3 & H4 & H5).
              specialize (H5 _ _ eq_refl).
              repeat split; try assumption.
              ** destruct H3 as [H3|[m1 H3]]; [left; constructor; exact H3|].
                 inversion H3; subst. left. constructor.
              ** intros x Hx Hh. apply elem_of_cons in Hx as [->|Hx]; [lra|auto].
              ** intros a1 m1 Heq. inversion Heq; subst. lra.
           ++ destruct S2 as [H1 _]. discriminate.
        -- destruct (Hstep (Some (a0, m0)) Hbest1) as [S1 S2].
           split; [exact S1|].
           destruct (exploit rest rwds1 _).1 as [[a m]|].
           ++ destruct S2 as (H1 & H2 & H3 & H4 & H5).
              specialize (H5 _ _ eq_refl).
              repeat split; try assumption.
              ** destruct H3 as [H3|H3]; [left; constructor; exact H3|right; exact H3].
              ** intros x Hx Hh. apply elem_of_cons in Hx as [->|Hx]; [lra|auto].
              ** intros a1 m1 Heq. inversion Heq; subst. exact H5.
           ++ destruct S2 as [H1 _]. discriminate.
      * destruct (Hstep (Some (arm, np_mean (r :: hist')))) as [S1 S2].
        { split; [exact Hnew|]. apply Hnew'. discriminate. }
        split; [exact S1|].
        destruct (exploit rest rwds1 _).1 as [[a m]|].
        -- destruct S2 as (H1 & H2 & H3 & H4 & H5).
           specialize (H5 _ _ eq_refl).
           repeat split; try assumption.
           ++ destruct H3 as [H3|[m1 H3]]; [left; constructor; exact H3|].
              inversion H3; subst. left. constructor.
           ++ intros x Hx Hh. apply elem_of_cons in Hx as [->|Hx]; [lra|auto].
           ++ intros a1 m1 Heq. discriminate.
        -- destruct S2 as [H1 _]. discriminate.
Qed.

Lemma select_arm_exploit_branch (b : EpsilonGreedy_Bandit.t) (arms : list Arm) (g : rng) :
  arms <> [] -> ~ (random_random g).1 < epsilon b ->
  select_arm b arms g
  = let g1 := (random_random g).2 in
    let '(best, rewards1) := exploit arms (rewards b) None in
    let b1 := {| epsilon := epsilon b; initial_epsilon := initial_epsilon b;
                 epsilon_decay := epsilon_decay b;
                 rewards := rewards1; counts := counts b |} in
    match best with
    | Some (best_arm, _) => (Return (Some best_arm), b1, g1)
    | None => let '(a, g2) := random_choice arms g1 in (Return a, b1, g2)
    end.
Proof.
  intros Hne Hu. unfold select_arm. destruct arms as [|arm0 rest]; [congruence|].
  destruct (random_random g) as [u g1]. cbn [fst snd] in Hu |- *.
  destruct (Rlt_dec u (epsilon b)); [contradiction|]. reflexivity.
Qed.

Lemma select_arm_explore_branch (b : EpsilonGreedy_Bandit.t) (arms : list Arm) (g : rng) :
  arms <> [] -> (random_random g).1 < epsilon b ->
  select_arm b arms g
  = let '(a, g2) := random_choice arms (random_random g).2 in (Return a, b, g2).
Proof.
  intros Hne Hu. unfold select_arm. destruct arms as [|arm0 rest]; [congruence|].
  destruct (random_random g) as [u g1]. cbn [fst snd] in Hu |- *.
  destruct (Rlt_dec u (epsilon b)); [reflexivity|contradiction].
Qed.

(** X14: on a non-empty pool the epsilon-greedy selection never raises and
    never returns [None]: it returns an arm of the pool, and leaves epsilon,
    the pull counts and what every reward history reads as unchanged. *)
Theorem epsilon_select_returns_pool_arm (b : EpsilonGreedy_Bandit.t)
    (arms : list Arm) (g : rng) (Hpool : arms <> []) :
  exists a b1 g1,
    select_arm b arms g = (Return (Some a), b1, g1)
    /\ a ∈ arms
    /\ epsilon b1 = epsilon b
    /\ epsilon_decay b1 = epsilon_decay b
    /\ counts b1 = counts b
    /\ forall k, dd_peek [] k (rewards b1) = dd_peek [] k (rewards b).
Proof.
  destruct (Rlt_dec (random_random g).1 (epsilon b)) as [Hu|Hu].
  - rewrite select_arm_explore_branch by assumption.
    destruct (random_choice_elem arms (random_random g).2 Hpool) as (a & Ha & Hin).
    destruct (random_choice arms (random_random g).2) as [oa g2].
    cbn [fst] in Ha. subst oa. exists a, b, g2. repeat split. exact Hin.
  - rewrite select_arm_exploit_branch by assumption. cbv zeta.
    destruct (exploit_spec arms (rewards b) None I) as [Hpeek Hbest].
    destruct (exploit arms (rewards b) None) as [best rewards1].
    cbn [fst snd] in Hpeek, Hbest.
    destruct best as [[a m]|].
    + destruct Hbest as (_ & _ & [Hin|[m0 Hm0]] & _); [|discriminate].
      eexists a, _, _. split; [reflexivity|]. repeat split; assumption.
    + destruct (random_choice_elem arms (random_random g).2 Hpool) as (a & Ha & Hin).
      destruct (random_choice arms (random_random g).2) as [oa g2].
      cbn [fst] in Ha. subst oa.
      eexists a, _, g2. split; [reflexivity|]. repeat split; assumption.
Qed.

Lemma epsilon_select_returns_pool_arm_witness :
  [strategic_0; grid_0] <> []
  /\ exists a b1 g1,
       select_arm EpsilonGreedy_Bandit.default [strategic_0; grid_0] zero_rng
       = (Return (Some a), b1, g1)
       /\ a ∈ [strategic_0; grid_0]
       /\ epsilon b1 = epsilon EpsilonGreedy_Bandit.default
       /\ epsilon_decay b1 = epsilon_decay EpsilonGreedy_Bandit.default
       /\ counts b1 = counts EpsilonGreedy_Bandit.default
       /\ forall k, dd_peek [] k (rewards b1)
                    = dd_peek [] k (rewards EpsilonGreedy_Bandit.default).
Proof.
  assert (H : [strategic_0; grid_0] <> []) by discriminate.
  split; [exact H|].
  apply (epsilon_select_returns_pool_arm EpsilonGreedy_Bandit.default
           [strategic_0; grid_0] zero_rng H).
Defined.

(** X15: with epsilon at 0 (or below) and an arm of the pool that has a
    reward history, the selection is greedy: it draws once from the random
    source and returns an arm with a history whose mean reward no arm of
    the pool with a history exceeds. *)
Theorem epsilon_zero_is_greedy (b : EpsilonGreedy_Bandit.t)
    (arms : list Arm) (g : rng) (tried : Arm)
    (Heps : epsilon b <= 0)
    (Hin : tried ∈ arms)
    (Hhist : history_of (rewards b) tried <> []) :
  exists a b1,
    select_arm b arms g = (Return (Some a), b1, (next_raw g).2)
    /\ a ∈ arms
    /\ history_of (rewards b) a <> []
    /\ forall x, x ∈ arms -> history_of (rewards b) x <> [] ->
                 mean_of (rewards b) x <= mean_of (rewards b) a.
Proof.
  assert (Hpool : arms <> []) by (intros E; rewrite E in Hin; inversion Hin).
  pose proof (random_random_range g) as [Hu _].
  rewrite select_arm_exploit_branch by (assumption || lra). cbv zeta.
  destruct (exploit_spec arms (rewards b) None I) as [Hpeek Hbest].
  destruct (exploit arms (rewards b) None) as [best rewards1].
  cbn [fst snd] in Hpeek, Hbest.
  destruct best as [[a m]|].
  - destruct Hbest as (Hm & Hh & [Ha|[m0 Hm0]] & Hmax & _); [|discriminate].
    eexists a, _. split; [reflexivity|]. repeat split; try assumption.
    intros x Hx Hxh. rewrite <- Hm. apply Hmax; assumption.
  - destruct Hbest as [_ Hnone]. exfalso. apply Hhist, Hnone, Hin.
Qed.

Lemma update_keeps_epsilon (b : EpsilonGreedy_Bandit.t) (arm : Arm) (reward : R) :
  epsilon (update b arm reward) = epsilon b
  /\ epsilon_decay (update b arm reward) = epsilon_decay b.
Proof.
  unfold update.
  destruct (dd_get 0%nat (arm_id arm) (counts b)), (dd_get [] (arm_id arm) (rewards b)).
  split; reflexivity.
Qed.

Lemma greedy_bandit_history : history_of (rewards greedy_bandit) strategic_0 = [1].
Proof.
  unfold greedy_bandit, update, history_of.
  cbn [rewards counts init]. unfold dd_get. rewrite !lookup_empty.
  cbn [rewards]. unfold dd_peek. rewrite insert_insert_eq, lookup_insert_eq.
  reflexivity.
Qed.

Lemma epsilon_zero_is_greedy_witness :
  epsilon greedy_bandit <= 0
  /\ strategic_0 ∈ [grid_0; strategic_0]
  /\ history_of (rewards greedy_bandit) strategic_0 <> []
  /\ exists a b1,
       select_arm greedy_bandit [grid_0; strategic_0] zero_rng
       = (Return (Some a), b1, (next_raw zero_rng).2)
       /\ a ∈ [grid_0; strategic_0]
       /\ history_of (rewards greedy_bandit) a <> []
       /\ forall x, x ∈ [grid_0; strategic_0] ->
                    history_of (rewards greedy_bandit) x <> [] ->
                    mean_of (rewards greedy_bandit) x <= mean_of (rewards greedy_bandit) a.
Proof.
  assert (H1 : epsilon greedy_bandit <= 0).
  { unfold greedy_bandit. rewrite (proj1 (update_keeps_epsilon _ _ _)). simpl. lra. }
  assert (H2 : strategic_0 ∈ [grid_0; strategic_0]) by (do 2 constructor).
  assert (H3 : history_of (rewards greedy_bandit) strategic_0 <> [])
    by (rewrite greedy_bandit_history; discriminate).
  split; [exact H1|]. split; [exact H2|]. split; [exact H3|].
  apply (epsilon_zero_is_greedy greedy_bandit [grid_0; strategic_0] zero_rng
           strategic_0 H1 H2 H3).
Defined.

(** X16: with epsilon at 1 (or above) every selection explores: the arm is
    a uniform choice from the pool and the bandit is left untouched. *)
Theorem epsilon_one_always_explores (b : EpsilonGreedy_Bandit.t)
    (arms : list Arm) (g : rng)
    (Heps : 1 <= epsilon b) (Hpool : arms <> []) :
  select_arm b arms g
  = (Return (random_choice arms (random_random g).2).1, b,
     (random_choice arms (random_random g).2).2).
Proof.
  pose proof (random_random_range g) as [_ Hu].
  rewrite select_arm_explore_branch by (assumption || lra).
  destruct (random_choice arms (random_random g).2). reflexivity.
Qed.

Lemma epsilon_one_always_explores_witness :
  1 <= epsilon (init 1 0.95)
  /\ [strategic_0; grid_0] <> []
  /\ select_arm (init 1 0.95) [strategic_0; grid_0] zero_rng
     = (Return (random_choice [strategic_0; grid_0] (random_random zero_rng).2).1,
        init 1 0.95,
        (random_choice [strategic_0; grid_0] (random_random zero_rng).2).2).
Proof.
  assert (H1 : 1 <= epsilon (init 1 0.95)) by (simpl; lra).
  assert (H2 : [strategic_0; grid_0] <> []) by discriminate.
  split; [exact H1|]. split; [exact H2|].
  apply (epsilon_one_always_explores (init 1 0.95) [strategic_0; grid_0] zero_rng H1 H2).
Defined.

End EpsilonFacts.

(** ** Bookkeeping of the epsilon-greedy bandit *)

Section EpsilonBookkeeping.
Import EpsilonGreedy_Bandit.

Lemma eps_update_unfold (b : EpsilonGreedy_Bandit.t) (arm : Arm) (reward : R) :
  update b arm reward
  = {| epsilon := epsilon b; initial_epsilon := initial_epsilon b;
       epsilon_decay := epsilon_decay b;
       rewards := <[arm_id arm := dd_peek [] (arm_id arm) (rewards b) ++ [reward]]>
                    (rewards b);
       counts := <[arm_id arm := dd_peek 0 (arm_id arm) (counts b) + 1]> (counts b) |}.
Proof.
  unfold update.
  pose proof (dd_get_peek 0 (arm_id arm) (counts b)) as Hc.
  pose proof (dd_get_then_set 0 (dd_peek 0 (arm_id arm) (counts b) + 1)
                (arm_id arm) (counts b)) as Hc'.
  pose proof (dd_get_peek [] (arm_id arm) (rewards b)) as Hr.
  pose proof (dd_get_then_set [] (dd_peek [] (arm_id arm) (rewards b) ++ [reward])
                (arm_id arm) (rewards b)) as Hr'.
  destruct (dd_get 0 (arm_id arm) (counts b)) as [n counts1].
  destruct (dd_get [] (arm_id arm) (rewards b)) as [hist rewards1].
  simpl in *. subst n hist. rewrite Hc', Hr'. reflexivity.
Qed.

Lemma eps_select_reads (b : EpsilonGreedy_Bandit.t) (arms : list Arm) (g : rng) :
  counts (select_arm b arms g).1.2 = counts b
  /\ epsilon (select_arm b arms g).1.2 = epsilon b
  /\ forall k, dd_peek [] k (rewards (select_arm b arms g).1.2)
               = dd_peek [] k (rewards b).
Proof.
  destruct arms as [|arm0 rest]; [repeat split|].
  assert (Hpool : arm0 :: rest <> []) by discriminate.
  destruct (Rlt_dec (random_random g).1 (epsilon b)) as [Hu|Hu].
  - rewrite select_arm_explore_branch by assumption.
    destruct (random_choice _ _). repeat split.
  - rewrite select_arm_exploit_branch by assumption. cbv zeta.
    destruct (exploit_spec (arm0 :: rest) (rewards b) None I) as [Hpeek _].
    destruct (exploit (arm0 :: rest) (rewards b) None) as [best rewards1].
    cbn [snd] in Hpeek.
    destruct best as [[a m]|]; [repeat split; exact Hpeek|].
    destruct (random_choice _ _). repeat split; exact Hpeek.
Qed.

(** X17: in the epsilon-greedy bandit every arm's pull count stays equal to
    the length of its reward history: this holds for a new bandit and is
    kept by [update], by [decay_epsilon] and by [select_arm]; an update does
    not touch epsilon, so it commutes with a decay. *)
Theorem epsilon_bookkeeping (e0 d0 : R) (b : EpsilonGreedy_Bandit.t)
    (arm : Arm) (reward : R) (arms : list Arm) (g : rng)
    (Hb : eps_inv b) :
  eps_inv (init e0 d0)
  /\ eps_inv (update b arm reward)
  /\ eps_inv (decay_epsilon b)
  /\ eps_inv (select_arm b arms g).1.2
  /\ decay_epsilon (update b arm reward) = update (decay_epsilon b) arm reward.
Proof.
  split; [|split; [|split; [|split]]].
  - intros id. simpl. unfold dd_peek. rewrite !lookup_empty. reflexivity.
  - intros id. rewrite eps_update_unfold. simpl. rewrite !dd_peek_insert.
    destruct (decide (arm_id arm = id)) as [_|_]; [|apply Hb].
    rewrite length_app, Hb. reflexivity.
  - exact Hb.
  - intros id. destruct (eps_select_reads b arms g) as (Hc & _ & Hr).
    rewrite Hc, Hr. apply Hb.
  - rewrite !eps_update_unfold. reflexivity.
Qed.

Lemma epsilon_bookkeeping_witness :
  eps_inv EpsilonGreedy_Bandit.default
  /\ eps_inv (update EpsilonGreedy_Bandit.default strategic_0 1)
  /\ decay_epsilon (update EpsilonGreedy_Bandit.default strategic_0 1)
     = update (decay_epsilon EpsilonGreedy_Bandit.default) strategic_0 1.
Proof.
  assert (H : eps_inv EpsilonGreedy_Bandit.default) by (intros id; reflexivity).
  split; [exact H|].
  destruct (epsilon_bookkeeping 0.3 0.95 EpsilonGreedy_Bandit.default strategic_0 1
              [] zero_rng H) as (_ & H1 & _ & _ & H2).
  split; [exact H1|exact H2].
Defined.

End EpsilonBookkeeping.

(** ** More on the UCB bandit *)

Section UCBFacts.
Import UCB_Bandit.
Local Open Scope R_scope.

(** X18: an update is seen by the next reads: the arm's history ends with
    the new reward, its count and the total are one higher, and no other
    arm's count or history changes. *)
Theorem ucb_update_reads (b : UCB_Bandit.t) (arm : Arm) (reward : R) (k : string) :
  dd_peek [] k (rewards (update b arm reward))
  = (if decide (arm_id arm = k) then dd_peek [] k (rewards b) ++ [reward]
     else dd_peek [] k (rewards b))
  /\ dd_peek 0%nat k (counts (update b arm reward))
     = (if decide (arm_id arm = k) then dd_peek 0%nat k (counts b) + 1
        else dd_peek 0%nat k (counts b))%nat
  /\ total_pulls (update b arm reward) = (total_pulls b + 1)%nat
  /\ c (update b arm reward) = c b.
Proof.
  rewrite update_unfold. cbn [rewards counts total_pulls c].
  rewrite !dd_peek_insert.
  destruct (decide (arm_id arm = k)) as [->|_]; repeat split.
Qed.

Lemma sum_counts_after_get (k : string) (cnts : gmap string nat) :
  sum_counts (dd_get 0%nat k cnts).2 = sum_counts cnts.
Proof.
  unfold dd_get. destruct (cnts !! k) eqn:E; [reflexivity|].
  simpl. rewrite sum_counts_fresh by exact E. reflexivity.
Qed.

Lemma untried_arms_sum (arms : list Arm) (cnts : gmap string nat) :
  sum_counts (untried_arms arms cnts).2 = sum_counts cnts.
Proof.
  revert cnts. induction arms as [|arm rest IH]; intros cnts; simpl; [reflexivity|].
  pose proof (sum_counts_after_get (arm_id arm) cnts) as Hs.
  destruct (dd_get 0%nat (arm_id arm) cnts) as [n cnts1]. simpl in Hs.
  specialize (IH cnts1). destruct (untried_arms rest cnts1) as [l cnts2].
  simpl in *. congruence.
Qed.

Lemma ucb_same_reads_refl (b : UCB_Bandit.t) : ucb_same_reads b b.
Proof. repeat split. Qed.

Lemma ucb_same_reads_trans (b1 b2 b3 : UCB_Bandit.t) :
  ucb_same_reads b1 b2 -> ucb_same_reads b2 b3 -> ucb_same_reads b1 b3.
Proof.
  intros (A1 & A2 & A3 & A4 & A5) (B1 & B2 & B3 & B4 & B5).
  repeat split; try congruence; intros k; congruence.
Qed.

Lemma ucb_same_reads_inv (b b' : UCB_Bandit.t) :
  ucb_same_reads b b' -> ucb_inv b -> ucb_inv b'.
Proof.
  intros (A1 & A2 & A3 & A4 & A5) [H1 H2]. split.
  - congruence.
  - intros id. rewrite A4, A5. apply H2.
Qed.

Lemma ucb_same_reads_score (b b' : UCB_Bandit.t) (id : string) :
  ucb_same_reads b b' -> ucb_score b' id = ucb_score b id.
Proof.
  intros (A1 & A2 & A3 & A4 & A5). unfold ucb_score.
  rewrite A1, A2, A4, A5. reflexivity.
Qed.

Lemma peek_le_sum (k : string) (cnts : gmap string nat) :
  (dd_peek 0 k cnts <= sum_counts cnts)%nat.
Proof.
  pose proof (sum_counts_insert k 0%nat cnts). lia.
Qed.

Lemma ln_INR_nonneg (n : nat) : (1 <= n)%nat -> 0 <= ln (INR n).
Proof.
  intros Hn. apply le_INR in Hn. simpl in Hn.
  destruct Hn as [Hlt|Heq].
  - left. rewrite <- ln_1. apply ln_increasing; lra.
  - rewrite <- Heq, ln_1. lra.
Qed.

(** With a pull on record for the arm, one round of the value loop returns
    the arm's UCB value and changes nothing a read could see. *)
Lemma ucb_value_ok (b : UCB_Bandit.t) (arm : Arm) :
  (1 <= total_pulls b)%nat ->
  dd_peek 0%nat (arm_id arm) (counts b) <> 0%nat ->
  exists b', ucb_value b arm = (Return (ucb_score b (arm_id arm)), b')
             /\ ucb_same_reads b b'.
Proof.
  intros Htotal Hpulls. unfold ucb_value, ucb_score.
  pose proof (dd_get_peek [] (arm_id arm) (rewards b)) as Hr.
  assert (Hrp : forall k, dd_peek [] k (dd_get [] (arm_id arm) (rewards b)).2
                          = dd_peek [] k (rewards b))
    by (intros k; apply dd_peek_after_get).
  destruct (dd_get [] (arm_id arm) (rewards b)) as [hist rewards1].
  cbn [fst snd] in Hr, Hrp. subst hist.
  destruct (total_pulls b) as [|t] eqn:Et; [lia|].
  pose proof (dd_get_peek 0%nat (arm_id arm) (counts b)) as Hc.
  assert (Hcp : forall k, dd_peek 0%nat k (dd_get 0%nat (arm_id arm) (counts b)).2
                          = dd_peek 0%nat k (counts b))
    by (intros k; apply dd_peek_after_get).
  pose proof (sum_counts_after_get (arm_id arm) (counts b)) as Hs.
  destruct (dd_get 0%nat (arm_id arm) (counts b)) as [n counts1].
  cbn [fst snd] in Hc, Hcp, Hs. subst n.
  destruct (dd_peek 0%nat (arm_id arm) (counts b)) as [|m] eqn:Em; [congruence|].
  set (q := ln (INR (S t)) / INR (S m)).
  assert (Hq : 0 <= q).
  { unfold q. apply Rmult_le_pos; [apply ln_INR_nonneg; lia|].
    left. apply Rinv_0_lt_compat, lt_0_INR. lia. }
  destruct (Rlt_dec q 0) as [Hneg|_]; [lra|].
  eexists. split.
  - f_equal. f_equal. destruct (dd_peek [] (arm_id arm) (rewards b)); reflexivity.
  - repeat split; cbn [c total_pulls counts rewards]; auto.
Qed.

Lemma fold_left_ext_in {A B : Type} (f f' : A -> B -> A) (l : list B) (a : A) :
  (forall a x, f a x = f' a x) -> fold_left f l a = fold_left f' l a.
Proof.
  intros Hext. revert a. induction l as [|x l IH]; intros a; simpl; [reflexivity|].
  rewrite Hext. apply IH.
Qed.

(** The loop that fills [ucb_values], when every arm has a pull on record. *)
Lemma ucb_values_ok (arms : list Arm) (b : UCB_Bandit.t) (acc : list (string * R)) :
  (1 <= total_pulls b)%nat ->
  (forall arm, arm ∈ arms -> dd_peek 0%nat (arm_id arm) (counts b) <> 0%nat) ->
  exists b',
    ucb_values b arms acc
    = (Return (fold_left (fun acc arm =>
                            dict_set (arm_id arm) (ucb_score b (arm_id arm)) acc)
                         arms acc), b')
    /\ ucb_same_reads b b'.
Proof.
  revert b acc. induction arms as [|arm rest IH]; intros b acc Htotal Hpulls.
  - exists b. split; [reflexivity|apply ucb_same_reads_refl].
  - destruct (ucb_value_ok b arm Htotal) as (b1 & Hv & Hsame).
    { apply Hpulls. constructor. }
    simpl. rewrite Hv.
    destruct Hsame as (A1 & A2 & A3 & A4 & A5).
    destruct (IH b1 (dict_set (arm_id arm) (ucb_score b (arm_id arm)) acc))
      as (b2 & Hvs & Hsame2).
    { rewrite A2. exact Htotal. }
    { intros x Hx. rewrite A4. apply Hpulls. constructor. exact Hx. }
    exists b2. split.
    + rewrite Hvs. do 2 f_equal. apply fold_left_ext_in. intros a x.
      rewrite (ucb_same_reads_score b b1) by (repeat split; assumption). reflexivity.
    + apply (ucb_same_reads_trans b b1 b2); [repeat split; assumption|exact Hsame2].
Qed.

Lemma dict_set_elem {V : Type} (k : string) (v : V) (d : list (string * V))
    (p : string * V) :
  p ∈ dict_set k v d -> p = (k, v) \/ p ∈ d.
Proof.
  induction d as [|[k' v'] d IH]; simpl.
  - intros H. apply list_elem_of_singleton in H. auto.
  - destruct (decide (k' = k)) as [->|Hne]; intros H;
      apply elem_of_cons in H as [->|H].
    + auto.
    + right. constructor. exact H.
    + right. constructor.
    + destruct (IH H) as [->|Hin]; [auto|]. right. constructor. exact Hin.
Qed.

Lemma dict_set_new {V : Type} (k : string) (v : V) (d : list (string * V)) :
  (k, v) ∈ dict_set k v d.
Proof.
  induction d as [|[k' v'] d IH]; simpl; [constructor|].
  destruct (decide (k' = k)) as [->|Hne]; constructor. exact IH.
Qed.

Lemma dict_set_keeps {V : Type} (k : string) (v : V) (d : list (string * V))
    (p : string * V) :
  p ∈ d -> (p.1 = k -> p.2 = v) -> p ∈ dict_set k v d.
Proof.
  induction d as [|[k' v'] d IH]; simpl; intros Hin Hp; [inversion Hin|].
  destruct (decide (k' = k)) as [->|Hne]; apply elem_of_cons in Hin as [->|Hin].
  - simpl in Hp. rewrite Hp by reflexivity. constructor.
  - constructor. exact Hin.
  - constructor.
  - constructor. apply IH; assumption.
Qed.

(** What the filled dictionary holds: for every arm its id with its value,
    and nothing but such entries. *)
Lemma filled_values (score : string -> R) (arms : list Arm) (acc : list (string * R)) :
  (forall p, p ∈ acc -> p.2 = score p.1) ->
  let values := fold_left (fun acc arm => dict_set (arm_id arm) (score (arm_id arm)) acc)
                          arms acc in
  (forall p, p ∈ values ->
     p.2 = score p.1 /\ (p ∈ acc \/ exists x, x ∈ arms /\ arm_id x = p.1))
  /\ (forall p, p ∈ acc -> p ∈ values)
  /\ (forall x, x ∈ arms -> (arm_id x, score (arm_id x)) ∈ values).
Proof.
  revert acc. induction arms as [|arm rest IH]; intros acc Hacc; simpl.
  - split; [|split].
    + intros p Hp. split; [apply Hacc, Hp|left; exact Hp].
    + auto.
    + intros x Hx. inversion Hx.
  - destruct (IH (dict_set (arm_id arm) (score (arm_id arm)) acc)) as (H1 & H2 & H3).
    { intros p Hp. apply dict_set_elem in Hp as [->|Hp]; [reflexivity|auto]. }
    split; [|split].
    + intros p Hp. destruct (H1 p Hp) as [Hs [Hin|(x & Hx & Hid)]].
      * split; [exact Hs|].
        apply dict_set_elem in Hin as [->|Hin]; [|left; exact Hin].
        right. exists arm. split; [constructor|reflexivity].
      * split; [exact Hs|]. right. exists x. split; [constructor; exact Hx|exact Hid].
    + intros p Hp. apply H2, dict_set_keeps; [exact Hp|].
      intros <-. apply Hacc, Hp.
    + intros x Hx. apply elem_of_cons in Hx as [->|Hx]; [|auto].
      apply H2, dict_set_new.
Qed.

Lemma max_by_value_spec (best : string * R) (d : list (string * R)) :
  max_by_value best d ∈ best :: d
  /\ forall p, p ∈ best :: d -> p.2 <= (max_by_value best d).2.
Proof.
  revert best. induction d as [|[k v] d IH]; intros best; simpl.
  - split; [constructor|]. intros p Hp. apply list_elem_of_singleton in Hp. subst. lra.
  - destruct (Rlt_dec best.2 v) as [Hlt|Hge].
    + destruct (IH (k, v)) as [H1 H2]. split.
      * constructor. exact H1.
      * intros p Hp. apply elem_of_cons in Hp as [->|Hp]; [|auto].
        specialize (H2 (k, v)). simpl in H2.
        eapply Rle_trans; [left; exact Hlt|]. apply H2. constructor.
    + destruct (IH best) as [H1 H2]. split.
      * apply elem_of_cons in H1 as [->|H1]; [constructor|do 2 constructor; exact H1].
      * intros p Hp. apply elem_of_cons in Hp as [->|Hp]; [apply H2; constructor|].
        apply elem_of_cons in Hp as [->|Hp].
        -- simpl. eapply Rle_trans; [|apply (H2 best); constructor]. lra.
        -- apply H2. constructor. exact Hp.
Qed.

End UCBFacts.

Section UCBSelection.
Import UCB_Bandit.
Local Open Scope R_scope.

Lemma untried_reads (b : UCB_Bandit.t) (arms : list Arm) :
  ucb_same_reads b
    {| c := c b; counts := (untried_arms arms (counts b)).2; rewards := rewards b;
       total_pulls := total_pulls b |}.
Proof.
  repeat split; cbn [c counts rewards total_pulls].
  - apply untried_arms_sum.
  - apply untried_arms_filter.
Qed.

Lemma filter_nil_none {A : Type} (P : A -> Prop) `{forall x, Decision (P x)}
    (l : list A) (x : A) :
  filter P l = [] -> x ∈ l -> ~ P x.
Proof.
  intros Hnil Hin Hp.
  assert (Hx : x ∈ filter P l) by (apply list_elem_of_filter; auto).
  rewrite Hnil in Hx. inversion Hx.
Qed.

(** With an untried arm in the pool: one of the untried arms, chosen by the
    random source. *)
Lemma select_arm_untried_reads (b : UCB_Bandit.t) (arms : list Arm) (g : rng) :
  untried_in b arms <> [] ->
  exists a b1 g1,
    select_arm b arms g = (Return (Some a), b1, g1)
    /\ a ∈ untried_in b arms
    /\ ucb_same_reads b b1.
Proof.
  intros Hne. pose proof (untried_reads b arms) as Hsame.
  unfold select_arm, untried_in in *.
  destruct arms as [|arm0 rest]; [simpl in Hne; congruence|].
  destruct (untried_arms (arm0 :: rest) (counts b)) as [untried counts1].
  cbn [fst snd] in Hne, Hsame |- *.
  destruct untried as [|u us]; [congruence|].
  destruct (random_choice_elem (u :: us) g Hne) as (a & Ha & Hin).
  destruct (random_choice (u :: us) g) as [oa g1]. cbn [fst snd] in Ha |- *. subst oa.
  exists a. eexists. exists g1. split; [reflexivity|]. split; [exact Hin|exact Hsame].
Qed.

(** With every arm of the pool pulled before: the arm of the highest UCB
    value, without a draw from the random source. *)
Lemma select_arm_compares (b : UCB_Bandit.t) (arms : list Arm) (g : rng) :
  ucb_inv b -> arms <> [] -> untried_in b arms = [] ->
  exists a b1,
    select_arm b arms g = (Return (Some a), b1, g)
    /\ a ∈ arms
    /\ ucb_same_reads b b1
    /\ forall x, x ∈ arms -> ucb_score b (arm_id x) <= ucb_score b (arm_id a).
Proof.
  intros [Htot _] Hpool Hnone.
  pose proof (untried_reads b arms) as Hsame.
  pose proof (untried_in_filter b arms) as Hfilter. rewrite Hnone in Hfilter.
  assert (Hpulled : forall x, x ∈ arms -> dd_peek 0%nat (arm_id x) (counts b) <> 0%nat).
  { intros x Hx.
    apply (filter_nil_none (fun arm => dd_peek 0%nat (arm_id arm) (counts b) = 0%nat)
             arms x); [symmetry; exact Hfilter|exact Hx]. }
  unfold select_arm, untried_in in *.
  destruct arms as [|arm0 rest]; [congruence|].
  destruct (untried_arms (arm0 :: rest) (counts b)) as [untried counts1].
  cbn [fst snd] in Hnone, Hsame |- *. subst untried.
  set (b0 := {| c := c b; counts := counts1; rewards := rewards b;
                total_pulls := total_pulls b |}) in *.
  assert (Htotal : (1 <= total_pulls b0)%nat).
  { cbn [b0 total_pulls]. rewrite Htot.
    pose proof (peek_le_sum (arm_id arm0) (counts b)) as Hle.
    specialize (Hpulled arm0 ltac:(constructor)). lia. }
  destruct Hsame as (A1 & A2 & A3 & A4 & A5).
  destruct (ucb_values_ok (arm0 :: rest) b0 [] Htotal) as (b1 & Hvs & Hsame1).
  { intros x Hx. rewrite A4. apply Hpulled, Hx. }
  rewrite Hvs.
  destruct (filled_values (ucb_score b0) (arm0 :: rest) [])
    as (H1 & _ & H3); [intros p Hp; inversion Hp|].
  set (values := fold_left _ (arm0 :: rest) []) in *.
  destruct values as [|kv others] eqn:Ev.
  { specialize (H3 arm0 ltac:(constructor)). inversion H3. }
  cbn [dict_argmax].
  destruct (max_by_value_spec kv others) as [Hin Hmax].
  destruct (H1 _ Hin) as [Hscore [Hacc|(x & Hx & Hid)]]; [inversion Hacc|].
  destruct (find (fun arm => bool_decide (arm_id arm = (max_by_value kv others).1))
                 (arm0 :: rest)) as [a|] eqn:Ef.
  - apply find_some in Ef as [Ha Hida].
    apply bool_decide_eq_true in Hida.
    exists a, b1. split; [reflexivity|]. split; [apply list_elem_of_In, Ha|].
    split; [apply (ucb_same_reads_trans b b0 b1); [repeat split; assumption|exact Hsame1]|].
    intros y Hy.
    rewrite <- !(ucb_same_reads_score b b0) by (repeat split; assumption).
    rewrite Hida, <- Hscore. apply (Hmax (arm_id y, ucb_score b0 (arm_id y))), H3, Hy.
  - exfalso. pose proof (find_none _ _ Ef x) as Hno.
    rewrite bool_decide_eq_false in Hno. apply Hno; [apply list_elem_of_In, Hx|exact Hid].
Qed.

(** X19: for a bandit whose bookkeeping is consistent, [select_arm] on a
    non-empty pool never raises and never returns [None]: it returns an arm
    of the pool and leaves every count, history and total as it reads,
    so the bookkeeping stays consistent. *)
Theorem ucb_select_returns_pool_arm (b : UCB_Bandit.t) (arms : list Arm) (g : rng)
    (Hinv : ucb_inv b) (Hpool : arms <> []) :
  exists a b1 g1,
    select_arm b arms g = (Return (Some a), b1, g1)
    /\ a ∈ arms
    /\ ucb_same_reads b b1
    /\ ucb_inv b1.
Proof.
  destruct (untried_in b arms) as [|u us] eqn:Eu.
  - destruct (select_arm_compares b arms g Hinv Hpool Eu) as (a & b1 & Hsel & Ha & Hs & _).
    exists a, b1, g. split; [exact Hsel|]. split; [exact Ha|].
    split; [exact Hs|apply (ucb_same_reads_inv b b1 Hs Hinv)].
  - destruct (select_arm_untried_reads b arms g) as (a & b1 & g1 & Hsel & Ha & Hs).
    { rewrite Eu. discriminate. }
    exists a, b1, g1. split; [exact Hsel|]. split.
    + rewrite Eu in Ha. rewrite <- Eu, untried_in_filter in Ha.
      apply list_elem_of_filter in Ha. tauto.
    + split; [exact Hs|apply (ucb_same_reads_inv b b1 Hs Hinv)].
Qed.

(** X20: once every arm of the pool has been pulled, [select_arm] draws
    nothing from the random source and returns an arm whose UCB value
    (mean reward plus [c * sqrt(ln(total_pulls) / pulls)]) no arm of the
    pool exceeds. *)
Theorem ucb_select_maximises (b : UCB_Bandit.t) (arms : list Arm) (g : rng)
    (Hinv : ucb_inv b) (Hpool : arms <> [])
    (Hall : untried_in b arms = []) :
  exists a b1,
    select_arm b arms g = (Return (Some a), b1, g)
    /\ a ∈ arms
    /\ forall x, x ∈ arms -> ucb_score b (arm_id x) <= ucb_score b (arm_id a).
Proof.
  destruct (select_arm_compares b arms g Hinv Hpool Hall) as (a & b1 & Hsel & Ha & _ & Hmax).
  exists a, b1. auto.
Qed.

End UCBSelection.

Section UCBWitnesses.
Import UCB_Bandit.
Local Open Scope R_scope.

Lemma ucb_select_returns_pool_arm_witness :
  ucb_inv UCB_Bandit.default
  /\ [strategic_0; grid_0] <> []
  /\ exists a b1 g1,
       select_arm UCB_Bandit.default [strategic_0; grid_0] zero_rng
       = (Return (Some a), b1, g1)
       /\ a ∈ [strategic_0; grid_0]
       /\ ucb_same_reads UCB_Bandit.default b1
       /\ ucb_inv b1.
Proof.
  assert (H1 : ucb_inv UCB_Bandit.default) by (split; [reflexivity|intros id; reflexivity]).
  assert (H2 : [strategic_0; grid_0] <> []) by discriminate.
  split; [exact H1|]. split; [exact H2|].
  apply (ucb_select_returns_pool_arm UCB_Bandit.default [strategic_0; grid_0]
           zero_rng H1 H2).
Defined.

Lemma warm_bandit_inv : ucb_inv warm_bandit.
Proof.
  unfold warm_bandit, ucb_updates. simpl.
  apply ucb_inv_update, ucb_inv_update, ucb_inv_init.
Qed.

Lemma warm_bandit_all_tried : untried_in warm_bandit [strategic_0; grid_0] = [].
Proof.
  rewrite untried_in_filter. unfold warm_bandit, ucb_updates. simpl fold_left.
  rewrite filter_cons_False.
  - rewrite filter_cons_False; [reflexivity|].
    rewrite update_peek_counts, decide_True by reflexivity. lia.
  - rewrite update_peek_counts, decide_False by discriminate.
    rewrite update_peek_counts, decide_True by reflexivity. lia.
Qed.

Lemma ucb_select_maximises_witness :
  ucb_inv warm_bandit
  /\ [strategic_0; grid_0] <> []
  /\ untried_in warm_bandit [strategic_0; grid_0] = []
  /\ exists a b1,
       select_arm warm_bandit [strategic_0; grid_0] zero_rng
       = (Return (Some a), b1, zero_rng)
       /\ a ∈ [strategic_0; grid_0]
       /\ forall x, x ∈ [strategic_0; grid_0] ->
                    ucb_score warm_bandit (arm_id x) <= ucb_score warm_bandit (arm_id a).
Proof.
  assert (H2 : [strategic_0; grid_0] <> []) by discriminate.
  split; [exact warm_bandit_inv|]. split; [exact H2|].
  split; [exact warm_bandit_all_tried|].
  apply (ucb_select_maximises warm_bandit [strategic_0; grid_0] zero_rng
           warm_bandit_inv H2 warm_bandit_all_tried).
Defined.

Lemma best_avg_loop_is_exploit (arms : list Arm) (rwds : gmap string (list R))
    (best : option (Arm * R)) :
  best_avg_loop arms rwds best = EpsilonGreedy_Bandit.exploit arms rwds best.
Proof. reflexivity. Qed.

(** X21: [get_best_arm] on a non-empty pool returns an arm of the pool: the
    first arm when no arm of the pool has a reward history, and otherwise
    an arm with a history whose mean reward no arm of the pool with a
    history exceeds; what the bandit reads as does not change. *)
Theorem get_best_arm_spec (b : UCB_Bandit.t) (arms : list Arm)
    (Hpool : arms <> []) :
  exists a b1,
    get_best_arm b arms = (Some a, b1)
    /\ a ∈ arms
    /\ ucb_same_reads b b1
    /\ ((head arms = Some a /\ forall x, x ∈ arms -> history_of (rewards b) x = [])
        \/ (history_of (rewards b) a <> []
            /\ forall x, x ∈ arms -> history_of (rewards b) x <> [] ->
                         mean_of (rewards b) x <= mean_of (rewards b) a)).
Proof.
  unfold get_best_arm. destruct arms as [|first rest]; [congruence|].
  rewrite best_avg_loop_is_exploit.
  destruct (exploit_spec (first :: rest) (rewards b) None I) as [Hpeek Hbest].
  destruct (EpsilonGreedy_Bandit.exploit (first :: rest) (rewards b) None)
    as [best rewards1].
  cbn [fst snd] in Hpeek, Hbest.
  eexists _, _. split; [reflexivity|].
  destruct best as [[a m]|].
  - destruct Hbest as (Hm & Hh & [Hin|[m0 Hm0]] & Hmax & _); [|discriminate].
    split; [exact Hin|]. split; [repeat split; exact Hpeek|].
    right. split; [exact Hh|]. intros x Hx Hxh. rewrite <- Hm. auto.
  - destruct Hbest as [_ Hnone].
    split; [constructor|]. split; [repeat split; exact Hpeek|].
    left. split; [reflexivity|exact Hnone].
Qed.

Lemma get_best_arm_spec_witness :
  [grid_0; strategic_0] <> []
  /\ exists a b1,
       get_best_arm warm_bandit [grid_0; strategic_0] = (Some a, b1)
       /\ a ∈ [grid_0; strategic_0]
       /\ ucb_same_reads warm_bandit b1
       /\ ((head [grid_0; strategic_0] = Some a
            /\ forall x, x ∈ [grid_0; strategic_0] ->
                         history_of (rewards warm_bandit) x = [])
           \/ (history_of (rewards warm_bandit) a <> []
               /\ forall x, x ∈ [grid_0; strategic_0] ->
                            history_of (rewards warm_bandit) x <> [] ->
                            mean_of (rewards warm_bandit) x
                            <= mean_of (rewards warm_bandit) a)).
Proof.
  assert (H : [grid_0; strategic_0] <> []) by discriminate.
  split; [exact H|].
  apply (get_best_arm_spec warm_bandit [grid_0; strategic_0] H).
Defined.

End UCBWitnesses.

(** ** The generated pool and the materialised placement *)

Section PoolFacts.
Local Open Scope R_scope.

Lemma for_range_proj {A B : Type} (proj : A -> B) (body : nat -> rng -> A * rng)
    (f : nat -> B) (idxs : list nat) (acc : list A) (g : rng) :
  (forall i g, proj (body i g).1 = f i) ->
  proj <$> (for_range body idxs acc g).1 = (proj <$> acc) ++ (f <$> idxs).
Proof.
  intros Hid. revert acc g. induction idxs as [|i idxs IH]; intros acc g; simpl.
  - rewrite app_nil_r. reflexivity.
  - specialize (Hid i g). destruct (body i g) as [x g1]. simpl in Hid.
    rewrite IH, fmap_app. simpl. rewrite Hid, <- app_assoc. reflexivity.
Qed.

Lemma for_range_Forall {A : Type} (P : A -> Prop) (body : nat -> rng -> A * rng)
    (idxs : list nat) (acc : list A) (g : rng) :
  Forall P acc -> (forall i g, i ∈ idxs -> P (body i g).1) ->
  Forall P (for_range body idxs acc g).1.
Proof.
  revert acc g. induction idxs as [|i idxs IH]; intros acc g Hacc Hbody; simpl.
  - exact Hacc.
  - pose proof (Hbody i g ltac:(constructor)) as Hi.
    destruct (body i g) as [x g1]. simpl in Hi. apply IH.
    + apply Forall_app. split; [exact Hacc|]. constructor; [exact Hi|constructor].
    + intros j g' Hj. apply Hbody. constructor. exact Hj.
Qed.

(** Each round draws [k] times: the loop has drawn [k] times its length. *)
Lemma for_range_draws {A : Type} (body : nat -> rng -> A * rng) (k : nat)
    (idxs : list nat) (acc : list A) (g : rng) :
  (forall i g n, (body i g).2 n = g (n + k)%nat) ->
  forall n, (for_range body idxs acc g).2 n = g (n + k * length idxs)%nat.
Proof.
  intros Hk. revert acc g. induction idxs as [|i idxs IH]; intros acc g n; simpl.
  - f_equal. lia.
  - pose proof (Hk i g) as Hi. destruct (body i g) as [x g1]. simpl in Hi.
    rewrite IH, Hi. f_equal. lia.
Qed.

Lemma random_uniform_range (a b : R) (g : rng) :
  a <= b -> a <= (random_uniform a b g).1 <= b.
Proof.
  intros Hab. unfold random_uniform.
  pose proof (random_random_range g) as [H0 H1].
  destruct (random_random g) as [u g1]. cbn [fst] in *. nra.
Qed.

Lemma random_uniform_draws (a b : R) (g : rng) (n : nat) :
  (random_uniform a b g).2 n = g (S n).
Proof. reflexivity. Qed.

Lemma np_clip_range (x lo hi : R) : lo <= hi -> lo <= np_clip x lo hi <= hi.
Proof.
  intros H. unfold np_clip, Rmin, Rmax.
  repeat (destruct (Rle_dec _ _)); lra.
Qed.

Lemma grid_candidate_facts (self : StationPlacementRL.t) (i : nat) (g : rng) :
  arm_type (grid_candidate self i g).1 = grid
  /\ (forall n, (grid_candidate self i g).2 n = g (n + 2)%nat)
  /\ (min_lat (city_bounds self) <= max_lat (city_bounds self) ->
      min_lon (city_bounds self) <= max_lon (city_bounds self) ->
      in_bounds (city_bounds self) (arm_lat (grid_candidate self i g).1)
                (arm_lon (grid_candidate self i g).1)).
Proof.
  unfold grid_candidate. cbv zeta.
  pose proof (random_uniform_draws (-0.01) 0.01 g) as D1.
  destruct (random_uniform (-0.01) 0.01 g) as [j1 g1].
  pose proof (random_uniform_draws (-0.01) 0.01 g1) as D2.
  destruct (random_uniform (-0.01) 0.01 g1) as [j2 g2].
  cbn [fst snd arm_type arm_lat arm_lon] in *.
  split; [reflexivity|]. split.
  - intros n. rewrite D2, D1. f_equal. lia.
  - intros Hlat Hlon. split; apply np_clip_range; assumption.
Qed.

Lemma random_candidate_facts (self : StationPlacementRL.t) (i : nat) (g : rng) :
  arm_type (random_candidate self i g).1 = random
  /\ (forall n, (random_candidate self i g).2 n = g (n + 2)%nat)
  /\ (min_lat (city_bounds self) <= max_lat (city_bounds self) ->
      min_lon (city_bounds self) <= max_lon (city_bounds self) ->
      in_bounds (city_bounds self) (arm_lat (random_candidate self i g).1)
                (arm_lon (random_candidate self i g).1)).
Proof.
  unfold random_candidate. cbv zeta.
  set (b := city_bounds self).
  pose proof (random_uniform_draws (min_lat b) (max_lat b) g) as D1.
  pose proof (random_uniform_range (min_lat b) (max_lat b) g) as R1.
  destruct (random_uniform (min_lat b) (max_lat b) g) as [lat g1].
  pose proof (random_uniform_draws (min_lon b) (max_lon b) g1) as D2.
  pose proof (random_uniform_range (min_lon b) (max_lon b) g1) as R2.
  destruct (random_uniform (min_lon b) (max_lon b) g1) as [lon g2].
  cbn [fst snd arm_type arm_lat arm_lon] in *.
  split; [reflexivity|]. split.
  - intros n. rewrite D2, D1. f_equal. lia.
  - intros Hlat Hlon. split; auto.
Qed.

Lemma strategic_kinds (centers : list DemandCenter) (f : nat -> nat) :
  arm_type <$> imap (fun i => strategic_candidate (f i)) centers
  = replicate (length centers) strategic.
Proof.
  revert f. induction centers as [|center centers IH]; intros f; simpl; [reflexivity|].
  f_equal. apply (IH (f ∘ S)).
Qed.

Lemma const_fmap_replicate {A B : Type} (x : B) (l : list A) :
  (fun _ => x) <$> l = replicate (length l) x.
Proof. induction l as [|y l IH]; simpl; [reflexivity|]. f_equal. exact IH. Qed.

Lemma generated_kinds (self : StationPlacementRL.t) (g : rng) :
  arm_type <$> (generate_candidate_placements self g).1
  = replicate (num_stations self `min` length (demand_centers self)) strategic
    ++ replicate (num_stations self) grid ++ replicate (num_stations self) random.
Proof.
  unfold generate_candidate_placements.
  pose proof (for_range_proj arm_type (grid_candidate self) (fun _ => grid)
                (seq 0 (num_stations self))
                (imap strategic_candidate
                      (take (num_stations self) (demand_centers self))) g
                (fun i g0 => proj1 (grid_candidate_facts self i g0))) as Hgrid.
  destruct (for_range (grid_candidate self) _ _ g) as [candidates g1].
  rewrite (for_range_proj arm_type (random_candidate self) (fun _ => random))
    by (intros i g0; apply random_candidate_facts).
  cbn [fst] in Hgrid. rewrite Hgrid.
  rewrite (strategic_kinds _ (fun i => i)), length_take.
  rewrite !const_fmap_replicate, !length_seq, <- app_assoc. reflexivity.
Qed.

Lemma generated_draws (self : StationPlacementRL.t) (g : rng) (k : nat) :
  (generate_candidate_placements self g).2 k = g (k + 4 * num_stations self)%nat.
Proof.
  unfold generate_candidate_placements.
  pose proof (for_range_draws (grid_candidate self) 2 (seq 0 (num_stations self))
                (imap strategic_candidate
                      (take (num_stations self) (demand_centers self))) g
                (fun i g0 => proj1 (proj2 (grid_candidate_facts self i g0)))) as Hgrid.
  destruct (for_range (grid_candidate self) _ _ g) as [candidates g1].
  cbn [snd] in Hgrid.
  rewrite (for_range_draws (random_candidate self) 2)
    by (intros i g0; apply random_candidate_facts).
  rewrite Hgrid, !length_seq. f_equal. lia.
Qed.

(** X22: the generated pool holds one strategic arm per demand center (at
    most the station count), then as many grid arms and as many random arms
    as the station count; no two arms share an id, and the generation draws
    four times per station from the random source. *)
Theorem generated_pool_shape (self : StationPlacementRL.t) (g : rng) :
  let pool := (generate_candidate_placements self g).1 in
  let n := num_stations self in
  let m := n `min` length (demand_centers self) in
  NoDup (arm_id <$> pool)
  /\ arm_type <$> pool
     = replicate m strategic ++ replicate n grid ++ replicate n random
  /\ length pool = (m + n + n)%nat
  /\ forall k, (generate_candidate_placements self g).2 k = g (k + 4 * n)%nat.
Proof.
  cbv zeta. split; [apply generated_ids_NoDup|].
  split; [apply generated_kinds|]. split; [apply generated_pool_size|].
  apply generated_draws.
Qed.

(** X23: when the city bounds are well formed, every grid arm and every
    random arm of the generated pool lies within them. *)
Theorem generated_arms_in_bounds (self : StationPlacementRL.t) (g : rng) (arm : Arm)
    (Hlat : min_lat (city_bounds self) <= max_lat (city_bounds self))
    (Hlon : min_lon (city_bounds self) <= max_lon (city_bounds self))
    (Hin : arm ∈ (generate_candidate_placements self g).1)
    (Hkind : arm_type arm <> strategic) :
  min_lat (city_bounds self) <= arm_lat arm <= max_lat (city_bounds self)
  /\ min_lon (city_bounds self) <= arm_lon arm <= max_lon (city_bounds self).
Proof.
  set (P := fun a : Arm => arm_type a <> strategic ->
                           in_bounds (city_bounds self) (arm_lat a) (arm_lon a)).
  assert (Hall : Forall P (generate_candidate_placements self g).1).
  { unfold generate_candidate_placements.
    pose proof (for_range_Forall P (grid_candidate self) (seq 0 (num_stations self))
                  (imap strategic_candidate
                        (take (num_stations self) (demand_centers self))) g) as Hgrid.
    destruct (for_range (grid_candidate self) _ _ g) as [candidates g1].
    apply for_range_Forall.
    - apply Hgrid.
      + apply Forall_forall. intros a Ha Hk. exfalso. apply Hk.
        apply list_elem_of_lookup in Ha as [i Hi].
        rewrite list_lookup_imap in Hi.
        destruct (take _ _ !! i); inversion Hi. reflexivity.
      + intros i g0 _ _. apply grid_candidate_facts; assumption.
    - intros i g0 _ _. apply random_candidate_facts; assumption. }
  rewrite Forall_forall in Hall. apply (Hall arm Hin Hkind).
Qed.

Lemma generated_arms_in_bounds_witness :
  let self := StationPlacementRL.default in
  let arm := (grid_candidate self 0 zero_rng).1 in
  min_lat (city_bounds self) <= max_lat (city_bounds self)
  /\ min_lon (city_bounds self) <= max_lon (city_bounds self)
  /\ arm ∈ (generate_candidate_placements self zero_rng).1
  /\ arm_type arm <> strategic
  /\ min_lat (city_bounds self) <= arm_lat arm <= max_lat (city_bounds self)
  /\ min_lon (city_bounds self) <= arm_lon arm <= max_lon (city_bounds self).
Proof.
  cbv zeta.
  assert (H1 : min_lat (city_bounds StationPlacementRL.default)
               <= max_lat (city_bounds StationPlacementRL.default)) by (simpl; lra).
  assert (H2 : min_lon (city_bounds StationPlacementRL.default)
               <= max_lon (city_bounds StationPlacementRL.default)) by (simpl; lra).
  assert (H3 : (grid_candidate StationPlacementRL.default 0 zero_rng).1
               ∈ (generate_candidate_placements StationPlacementRL.default zero_rng).1).
  { apply list_elem_of_lookup. exists 5%nat. reflexivity. }
  assert (H4 : arm_type (grid_candidate StationPlacementRL.default 0 zero_rng).1
               <> strategic) by discriminate.
  split; [exact H1|]. split; [exact H2|]. split; [exact H3|]. split; [exact H4|].
  apply (generated_arms_in_bounds StationPlacementRL.default zero_rng _ H1 H2 H3 H4).
Defined.

Lemma grid_fraction (n i : nat) :
  (i < n)%nat ->
  0 <= INR (i / grid_size_of n) / INR (grid_size_of n) <= 1
  /\ 0 <= INR (i mod grid_size_of n) / INR (grid_size_of n) <= 1.
Proof.
  intros Hi. unfold grid_size_of.
  assert (Hn : (0 < n)%nat) by lia.
  pose proof (Nat.sqrt_up_spec n Hn) as [_ Hup].
  set (gs := Nat.sqrt_up n) in *.
  assert (Hgs : (0 < gs)%nat).
  { destruct gs; [simpl in Hup; lia|lia]. }
  assert (Hrow : (i / gs < gs)%nat).
  { apply Nat.Div0.div_lt_upper_bound. simpl in Hup. nia. }
  assert (Hcol : (i mod gs < gs)%nat) by (apply Nat.mod_upper_bound; lia).
  assert (Hpos : 0 < INR gs) by (apply lt_0_INR; exact Hgs).
  assert (Hfrac : forall k, (k < gs)%nat -> 0 <= INR k / INR gs <= 1).
  { intros k Hk. apply Nat.lt_le_incl, le_INR in Hk.
    pose proof (pos_INR k) as H0. split.
    - apply Rmult_le_pos; [exact H0|]. left. apply Rinv_0_lt_compat, Hpos.
    - apply (Rmult_le_reg_r (INR gs)); [exact Hpos|].
      unfold Rdiv. rewrite Rmult_assoc, Rinv_l by lra. lra. }
  split; apply Hfrac; assumption.
Qed.

Lemma grid_station_in_bounds (self : StationPlacementRL.t) (i : nat) :
  min_lat (city_bounds self) <= max_lat (city_bounds self) ->
  min_lon (city_bounds self) <= max_lon (city_bounds self) ->
  (i < num_stations self)%nat ->
  in_bounds (city_bounds self) (st_lat (grid_station self i)) (st_lon (grid_station self i)).
Proof.
  intros Hlat Hlon Hi. unfold grid_station, in_bounds. cbv zeta.
  cbn [st_lat st_lon].
  destruct (grid_fraction (num_stations self) i Hi) as [Hr Hc].
  set (fr := INR (i / grid_size_of (num_stations self)) / _) in *.
  set (fc := INR (i mod grid_size_of (num_stations self)) / _) in *.
  split; nra.
Qed.

Lemma random_station_facts (self : StationPlacementRL.t) (i : nat) (g : rng) :
  st_type (random_station self i g).1 = random
  /\ station_id (random_station self i g).1 = "ST" +:+ fmt_02d (i + 1)
  /\ (forall n, (random_station self i g).2 n = g (n + 2)%nat)
  /\ (min_lat (city_bounds self) <= max_lat (city_bounds self) ->
      min_lon (city_bounds self) <= max_lon (city_bounds self) ->
      in_bounds (city_bounds self) (st_lat (random_station self i g).1)
                (st_lon (random_station self i g).1)).
Proof.
  unfold random_station. cbv zeta.
  set (b := city_bounds self).
  pose proof (random_uniform_draws (min_lat b) (max_lat b) g) as D1.
  pose proof (random_uniform_range (min_lat b) (max_lat b) g) as R1.
  destruct (random_uniform (min_lat b) (max_lat b) g) as [lat g1].
  pose proof (random_uniform_draws (min_lon b) (max_lon b) g1) as D2.
  pose proof (random_uniform_range (min_lon b) (max_lon b) g1) as R2.
  destruct (random_uniform (min_lon b) (max_lon b) g1) as [lon g2].
  cbn [fst snd st_type st_lat st_lon station_id] in *.
  split; [reflexivity|]. split; [reflexivity|]. split.
  - intros n. rewrite D2, D1. f_equal. lia.
  - intros Hlat Hlon. split; auto.
Qed.

Lemma strategic_station_ids (centers : list DemandCenter) (n : nat) :
  station_id <$> imap (fun i => strategic_station (n + i)) centers
  = (fun i => "ST" +:+ fmt_02d (i + 1)) <$> seq n (length centers).
Proof.
  revert n. induction centers as [|center centers IH]; intros n; simpl; [reflexivity|].
  rewrite Nat.add_0_r. f_equal.
  rewrite <- IH. f_equal. apply imap_ext. intros i x _. simpl.
  do 3 f_equal. lia.
Qed.

(** X24: whatever the arm, the station records of the materialised
    placement are numbered [ST01], [ST02], ... in order and carry the arm's
    kind; a strategic or grid arm draws nothing from the random source, a
    random arm twice per station. *)
Theorem materialised_records (self : StationPlacementRL.t) (arm : Arm) (g : rng) :
  exists placement g',
    _create_placement_from_arm self (Some arm) g = (Return placement, g')
    /\ station_id <$> placement
       = (fun i => "ST" +:+ fmt_02d (i + 1)) <$> seq 0 (length placement)
    /\ Forall (fun s => st_type s = arm_type arm) placement
    /\ forall n, g' n = g (n + match arm_type arm with
                                | random => 2 * num_stations self
                                | _ => 0
                                end)%nat.
Proof.
  unfold _create_placement_from_arm. destruct (arm_type arm) eqn:Ek.
  - eexists _, _. split; [reflexivity|]. split; [|split].
    + rewrite (strategic_station_ids _ 0), length_imap. reflexivity.
    + apply Forall_forall. intros s Hs.
      apply list_elem_of_lookup in Hs as [i Hi]. rewrite list_lookup_imap in Hi.
      destruct (take _ _ !! i); inversion Hi. reflexivity.
    + intros n. f_equal. lia.
  - eexists _, _. split; [reflexivity|]. split; [|split].
    + rewrite length_map, length_seq, <- list_fmap_compose. reflexivity.
    + apply Forall_forall. intros s Hs.
      apply list_elem_of_fmap in Hs as (i & -> & _). reflexivity.
    + intros n. f_equal. lia.
  - pose proof (for_range_proj station_id (random_station self)
                  (fun i => "ST" +:+ fmt_02d (i + 1)) (seq 0 (num_stations self)) [] g
                  (fun i g0 => proj1 (proj2 (random_station_facts self i g0)))) as Hids.
    pose proof (for_range_Forall (fun s => st_type s = random) (random_station self)
                  (seq 0 (num_stations self)) [] g (List.Forall_nil _)
                  (fun i g0 _ => proj1 (random_station_facts self i g0))) as Hkinds.
    pose proof (for_range_draws (random_station self) 2 (seq 0 (num_stations self)) [] g
                  (fun i g0 => proj1 (proj2 (proj2 (random_station_facts self i g0)))))
      as Hdraws.
    pose proof (for_range_length (random_station self) (seq 0 (num_stations self)) [] g)
      as Hlen.
    destruct (for_range (random_station self) _ [] g) as [placement g1].
    cbn [fst snd] in *. rewrite length_seq in Hlen, Hdraws. simpl in Hlen.
    exists placement, g1. split; [reflexivity|]. split; [|split].
    + rewrite Hids, Hlen. reflexivity.
    + exact Hkinds.
    + exact Hdraws.
Qed.

(** X25: when the city bounds are well formed, every station materialised
    from a grid arm or a random arm lies within them. *)
Theorem materialised_in_bounds (self : StationPlacementRL.t) (arm : Arm) (g g' : rng)
    (placement : list Station) (s : Station)
    (Hlat : min_lat (city_bounds self) <= max_lat (city_bounds self))
    (Hlon : min_lon (city_bounds self) <= max_lon (city_bounds self))
    (Hkind : arm_type arm <> strategic)
    (Hmade : _create_placement_from_arm self (Some arm) g = (Return placement, g'))
    (Hin : s ∈ placement) :
  min_lat (city_bounds self) <= st_lat s <= max_lat (city_bounds self)
  /\ min_lon (city_bounds self) <= st_lon s <= max_lon (city_bounds self).
Proof.
  unfold _create_placement_from_arm in Hmade.
  destruct (arm_type arm) eqn:Ek; [congruence| |].
  - inversion Hmade; subst.
    apply list_elem_of_fmap in Hin as (i & -> & Hi).
    apply elem_of_seq in Hi. apply grid_station_in_bounds; [assumption..|lia].
  - pose proof (for_range_Forall
                  (fun s => in_bounds (city_bounds self) (st_lat s) (st_lon s))
                  (random_station self) (seq 0 (num_stations self)) [] g (List.Forall_nil _))
      as Hall.
    destruct (for_range (random_station self) _ [] g) as [p g1].
    inversion Hmade; subst. cbn [fst] in Hall.
    rewrite Forall_forall in Hall. apply Hall; [|exact Hin].
    intros i g0 _. apply random_station_facts; assumption.
Qed.

Lemma materialised_in_bounds_witness :
  let self := StationPlacementRL.default in
  min_lat (city_bounds self) <= max_lat (city_bounds self)
  /\ min_lon (city_bounds self) <= max_lon (city_bounds self)
  /\ arm_type grid_0 <> strategic
  /\ min_lat (city_bounds self) <= st_lat (grid_station self 7)
     <= max_lat (city_bounds self)
  /\ min_lon (city_bounds self) <= st_lon (grid_station self 7)
     <= max_lon (city_bounds self).
Proof.
  cbv zeta.
  assert (H1 : min_lat (city_bounds StationPlacementRL.default)
               <= max_lat (city_bounds StationPlacementRL.default)) by (simpl; lra).
  assert (H2 : min_lon (city_bounds StationPlacementRL.default)
               <= max_lon (city_bounds StationPlacementRL.default)) by (simpl; lra).
  assert (H3 : arm_type grid_0 <> strategic) by discriminate.
  split; [exact H1|]. split; [exact H2|]. split; [exact H3|].
  apply (materialised_in_bounds StationPlacementRL.default grid_0 zero_rng zero_rng
           (map (grid_station StationPlacementRL.default) (seq 0 25))
           (grid_station StationPlacementRL.default 7) H1 H2 H3 eq_refl).
  apply list_elem_of_fmap. exists 7%nat. split; [reflexivity|].
  apply elem_of_seq. lia.
Defined.

End PoolFacts.

(** ** The optimization loop *)

Section LoopFacts.
Local Open Scope R_scope.

Lemma same_config_refl (self : StationPlacementRL.t) : same_config self self.
Proof. repeat split. Qed.

Lemma same_config_trans (s1 s2 s3 : StationPlacementRL.t) :
  same_config s1 s2 -> same_config s2 s3 -> same_config s1 s3.
Proof.
  intros (A1 & A2 & A3 & A4) (B1 & B2 & B3 & B4). repeat split; congruence.
Qed.

(** The reward depends on the system through its demand centers only. *)
Lemma calculate_reward_config (s s' : StationPlacementRL.t) (p : list Station) :
  demand_centers s' = demand_centers s ->
  calculate_reward s' p = calculate_reward s p.
Proof.
  intros H. rewrite !calculate_reward_outcome, H. reflexivity.
Qed.

Lemma create_placement_config (s s' : StationPlacementRL.t) (arm : option Arm) (g : rng) :
  same_config s s' ->
  _create_placement_from_arm s' arm g = _create_placement_from_arm s arm g.
Proof.
  intros (A1 & A2 & A3 & A4).
  unfold _create_placement_from_arm, grid_station, random_station.
  rewrite A1, A3, A4. reflexivity.
Qed.

Lemma ucb_select_pool_arm (b : UCB_Bandit.t) (arms : list Arm) (g : rng) :
  ucb_inv b -> arms <> [] ->
  exists a b1 g1,
    UCB_Bandit.select_arm b arms g = (Return (Some a), b1, g1)
    /\ a ∈ arms /\ ucb_inv b1.
Proof.
  intros Hinv Hpool. destruct (untried_in b arms) as [|u us] eqn:Eu.
  - destruct (select_arm_compares b arms g Hinv Hpool Eu) as (a & b1 & Hsel & Ha & Hs & _).
    exists a, b1, g. split; [exact Hsel|]. split; [exact Ha|].
    apply (ucb_same_reads_inv b b1 Hs Hinv).
  - destruct (select_arm_untried_reads b arms g) as (a & b1 & g1 & Hsel & Ha & Hs).
    { rewrite Eu. discriminate. }
    exists a, b1, g1. split; [exact Hsel|]. split.
    + rewrite untried_in_filter in Ha. apply list_elem_of_filter in Ha. tauto.
    + apply (ucb_same_reads_inv b b1 Hs Hinv).
Qed.

Lemma eps_select_pool_arm (b : EpsilonGreedy_Bandit.t) (arms : list Arm) (g : rng) :
  arms <> [] ->
  exists a b1 g1,
    EpsilonGreedy_Bandit.select_arm b arms g = (Return (Some a), b1, g1) /\ a ∈ arms.
Proof.
  intros Hpool.
  destruct (Rlt_dec (random_random g).1 (EpsilonGreedy_Bandit.epsilon b)) as [Hu|Hu].
  - rewrite select_arm_explore_branch by assumption.
    destruct (random_choice_elem arms (random_random g).2 Hpool) as (a & Ha & Hin).
    destruct (random_choice arms (random_random g).2) as [oa g2].
    cbn [fst] in Ha. subst oa. exists a, b, g2. split; [reflexivity|exact Hin].
  - rewrite select_arm_exploit_branch by assumption. cbv zeta.
    destruct (exploit_spec arms (EpsilonGreedy_Bandit.rewards b) None I) as [_ Hbest].
    destruct (EpsilonGreedy_Bandit.exploit arms (EpsilonGreedy_Bandit.rewards b) None)
      as [best rewards1].
    cbn [fst] in Hbest.
    destruct best as [[a m]|].
    + destruct Hbest as (_ & _ & [Hin|[m0 Hm0]] & _); [|discriminate].
      eexists a, _, _. split; [reflexivity|exact Hin].
    + destruct (random_choice_elem arms (random_random g).2 Hpool) as (a & Ha & Hin).
      destruct (random_choice arms (random_random g).2) as [oa g2].
      cbn [fst] in Ha. subst oa.
      eexists a, _, g2. split; [reflexivity|exact Hin].
Qed.

Lemma bandit_select_ok (self : StationPlacementRL.t) (algorithm : string)
    (candidates : list Arm) (g : rng) :
  candidates <> [] ->
  (algorithm = "ucb" -> ucb_inv (ucb_bandit self)) ->
  exists arm self1 g1,
    bandit_select self algorithm candidates g = (Return (Some arm), self1, g1)
    /\ arm ∈ candidates
    /\ same_config self self1
    /\ episode_rewards self1 = episode_rewards self
    /\ (algorithm = "ucb" -> ucb_inv (ucb_bandit self1)).
Proof.
  intros Hpool Hinv. unfold bandit_select.
  destruct (decide (algorithm = "ucb")) as [Halg|Halg].
  - destruct (ucb_select_pool_arm (ucb_bandit self) candidates g (Hinv Halg) Hpool)
      as (a & b1 & g1 & Hsel & Ha & Hb1).
    rewrite Hsel. exists a, (with_ucb self b1), g1.
    split; [reflexivity|]. split; [exact Ha|]. split; [repeat split|].
    split; [reflexivity|]. intros _. exact Hb1.
  - destruct (eps_select_pool_arm (epsilon_bandit self) candidates g Hpool)
      as (a & b1 & g1 & Hsel & Ha).
    rewrite Hsel. exists a, (with_epsilon self b1), g1.
    split; [reflexivity|]. split; [exact Ha|]. split; [repeat split|].
    split; [reflexivity|]. intros H. contradiction.
Qed.

Lemma bandit_update_facts (self : StationPlacementRL.t) (algorithm : string)
    (arm : Arm) (reward : R) :
  same_config self (bandit_update self algorithm arm reward)
  /\ episode_rewards (bandit_update self algorithm arm reward) = episode_rewards self
  /\ ((algorithm = "ucb" -> ucb_inv (ucb_bandit self)) ->
      algorithm = "ucb" -> ucb_inv (ucb_bandit (bandit_update self algorithm arm reward))).
Proof.
  unfold bandit_update. destruct (decide (algorithm = "ucb")) as [Halg|Halg].
  - split; [repeat split|]. split; [reflexivity|].
    intros Hinv _. simpl. apply ucb_inv_update, Hinv, Halg.
  - split; [repeat split|]. split; [reflexivity|]. intros _ H. contradiction.
Qed.

(** One episode, for a pool with an arm and a system with a demand center. *)
Lemma episode_ok (algorithm : string) (candidates : list Arm)
    (self0 : StationPlacementRL.t) (st : loop_state) (new : list R) :
  candidates <> [] ->
  demand_centers self0 <> [] ->
  same_config self0 (ls_self st) ->
  (algorithm = "ucb" -> ucb_inv (ucb_bandit (ls_self st))) ->
  episode_rewards (ls_self st) = episode_rewards self0 ++ new ->
  best_ok self0 new (best_reward st) (best_placement st) ->
  exists st1 reward,
    episode algorithm candidates st = (Finished st1, ls_self st1, ls_rng st1)
    /\ same_config self0 (ls_self st1)
    /\ (algorithm = "ucb" -> ucb_inv (ucb_bandit (ls_self st1)))
    /\ episode_rewards (ls_self st1) = episode_rewards self0 ++ (new ++ [reward])
    /\ best_ok self0 (new ++ [reward]) (best_reward st1) (best_placement st1).
Proof.
  intros Hpool Hcenters Hcfg Hinv Hlog Hbest. unfold episode.
  destruct (bandit_select_ok (ls_self st) algorithm candidates (ls_rng st) Hpool Hinv)
    as (arm & self1 & g1 & Hsel & _ & Hcfg1 & Hlog1 & Hinv1).
  rewrite Hsel.
  destruct (placement_length self1 arm g1) as (placement & g2 & Hmade & _).
  rewrite Hmade.
  pose proof (same_config_trans _ _ _ Hcfg Hcfg1) as Hcfg01.
  assert (Hdc1 : demand_centers self1 = demand_centers self0) by apply Hcfg01.
  assert (Hreward : exists reward, calculate_reward self0 placement = Return (Fin reward)).
  { rewrite calculate_reward_outcome. destruct placement; [eauto|].
    destruct (demand_centers self0); [congruence|eauto]. }
  destruct Hreward as [reward Hreward].
  rewrite (calculate_reward_config self0 self1 placement Hdc1), Hreward.
  destruct (bandit_update_facts self1 algorithm arm reward) as (Hcfg2 & Hlog2 & Hinv2).
  set (self2 := bandit_update self1 algorithm arm reward) in *.
  set (self3 := with_episode_reward self2 reward).
  set (self4 := if decide (algorithm = "epsilon_greedy") then _ else self3).
  assert (H34 : same_config self3 self4 /\ episode_rewards self4 = episode_rewards self3
                 /\ ucb_bandit self4 = ucb_bandit self3).
  { unfold self4. destruct (decide (algorithm = "epsilon_greedy")); repeat split. }
  destruct H34 as (Hcfg4 & Hlog4 & Hucb4).
  assert (Hcfg3 : same_config self2 self3) by (repeat split).
  eexists (mkLoop self4 g2 _ _), reward. split; [reflexivity|].
  cbn [ls_self best_reward best_placement].
  split; [|split; [|split]].
  - eapply same_config_trans; [exact Hcfg01|].
    eapply same_config_trans; [exact Hcfg2|].
    eapply same_config_trans; [exact Hcfg3|exact Hcfg4].
  - intros Halg. rewrite Hucb4. cbn [self3 with_episode_reward ucb_bandit].
    apply Hinv2; assumption.
  - rewrite Hlog4. cbn [self3 with_episode_reward episode_rewards].
    rewrite Hlog2, Hlog1, Hlog, <- app_assoc. reflexivity.
  - unfold best_ok in *.
    destruct (best_reward st) as [r|]; destruct (best_placement st) as [p|];
      try contradiction.
    + destruct Hbest as (Hp & Hr & Hmax).
      destruct (Rlt_dec r reward) as [Hlt|Hge].
      * split; [exact Hreward|]. split; [apply elem_of_app; right; constructor|].
        intros r' Hr'. apply elem_of_app in Hr' as [Hr'|Hr'].
        -- specialize (Hmax r' Hr'). lra.
        -- apply list_elem_of_singleton in Hr'. lra.
      * split; [exact Hp|]. split; [apply elem_of_app; left; exact Hr|].
        intros r' Hr'. apply elem_of_app in Hr' as [Hr'|Hr'].
        -- auto.
        -- apply list_elem_of_singleton in Hr'. lra.
    + subst new. split; [exact Hreward|]. split; [constructor|].
      intros r' Hr'. apply list_elem_of_singleton in Hr'. lra.
Qed.

Lemma episodes_ok (algorithm : string) (candidates : list Arm)
    (self0 : StationPlacementRL.t) (n : nat) :
  candidates <> [] ->
  demand_centers self0 <> [] ->
  forall (st : loop_state) (new : list R),
    same_config self0 (ls_self st) ->
    (algorithm = "ucb" -> ucb_inv (ucb_bandit (ls_self st))) ->
    episode_rewards (ls_self st) = episode_rewards self0 ++ new ->
    best_ok self0 new (best_reward st) (best_placement st) ->
    exists st1 more,
      episodes n algorithm candidates st = (Finished st1, ls_self st1, ls_rng st1)
      /\ length more = n
      /\ same_config self0 (ls_self st1)
      /\ (algorithm = "ucb" -> ucb_inv (ucb_bandit (ls_self st1)))
      /\ episode_rewards (ls_self st1) = episode_rewards self0 ++ (new ++ more)
      /\ best_ok self0 (new ++ more) (best_reward st1) (best_placement st1).
Proof.
  intros Hpool Hcenters. induction n as [|n IH]; intros st new Hcfg Hinv Hlog Hbest.
  - exists st, []. rewrite app_nil_r. split; [reflexivity|]. split; [reflexivity|].
    split; [exact Hcfg|]. split; [exact Hinv|]. split; [exact Hlog|exact Hbest].
  - destruct (episode_ok algorithm candidates self0 st new Hpool Hcenters Hcfg Hinv Hlog Hbest)
      as (st1 & reward & Hep & Hcfg1 & Hinv1 & Hlog1 & Hbest1).
    destruct (IH st1 (new ++ [reward]) Hcfg1 Hinv1 Hlog1 Hbest1)
      as (st2 & more & Heps & Hlen & Hcfg2 & Hinv2 & Hlog2 & Hbest2).
    exists st2, (reward :: more). simpl. rewrite Hep, Heps.
    rewrite <- app_assoc in Hlog2, Hbest2. simpl in Hlog2, Hbest2.
    split; [reflexivity|]. split; [simpl; lia|].
    split; [exact Hcfg2|]. split; [exact Hinv2|]. split; [exact Hlog2|exact Hbest2].
Qed.

Lemma generated_pool_nonempty (self : StationPlacementRL.t) (g : rng) :
  (1 <= num_stations self)%nat -> (generate_candidate_placements self g).1 <> [].
Proof.
  intros Hn E. pose proof (generated_pool_size self g) as Hlen.
  rewrite E in Hlen. simpl in Hlen. lia.
Qed.

(** A run that can start never fails. *)
Lemma optimize_run (self : StationPlacementRL.t)
    (algorithm : string) (g : rng)
    (Hstations : (1 <= num_stations self)%nat)
    (Hepisodes : (1 <= num_episodes self)%nat)
    (Hcenters : demand_centers self <> [])
    (Hinv : algorithm = "ucb" -> ucb_inv (ucb_bandit self)) :
  exists placement self' g' new best,
    optimize_placement self algorithm g = (Finished placement, self', g')
    /\ episode_rewards self' = episode_rewards self ++ new
    /\ length new = num_episodes self
    /\ calculate_reward self placement = Return (Fin best)
    /\ best ∈ new
    /\ (forall r, r ∈ new -> r <= best)
    /\ same_config self self'
    /\ (algorithm = "ucb" -> ucb_inv (ucb_bandit self')).
Proof.
  unfold optimize_placement.
  pose proof (generated_pool_nonempty self g Hstations) as Hpool.
  destruct (generate_candidate_placements self g) as [candidates g1].
  cbn [fst] in Hpool.
  destruct (episodes_ok algorithm candidates self (num_episodes self) Hpool Hcenters
              {| ls_self := self; ls_rng := g1; best_reward := None;
                 best_placement := None |} [])
    as (st1 & more & Heps & Hlen & Hcfg & Hinv1 & Hlog & Hbest).
  { apply same_config_refl. }
  { exact Hinv. }
  { cbn [ls_self]. rewrite app_nil_r. reflexivity. }
  { reflexivity. }
  rewrite Heps. simpl in Hlog, Hbest. unfold best_ok in Hbest.
  destruct (best_reward st1) as [best|]; destruct (best_placement st1) as [p|];
    try contradiction.
  - destruct Hbest as (Hp & Hb & Hmax).
    exists p, (ls_self st1), (ls_rng st1), more, best.
    split; [reflexivity|]. split; [exact Hlog|]. split; [exact Hlen|].
    split; [exact Hp|]. split; [exact Hb|]. split; [exact Hmax|].
    split; [exact Hcfg|exact Hinv1].
  - subst more. simpl in Hlen. lia.
Qed.

(** X26: with at least one station, one episode and one demand center (and,
    for the UCB policy, a bandit whose bookkeeping is consistent), a run
    never fails: it appends exactly one reward per episode to the episode
    log and returns a placement whose reward is the largest of those
    rewards; the configuration is unchanged and the UCB bookkeeping stays
    consistent. *)
Theorem optimize_placement_succeeds (self : StationPlacementRL.t)
    (algorithm : string) (g : rng)
    (Hstations : (1 <= num_stations self)%nat)
    (Hepisodes : (1 <= num_episodes self)%nat)
    (Hcenters : demand_centers self <> [])
    (Hinv : algorithm = "ucb" -> ucb_inv (ucb_bandit self)) :
  exists placement self' g' new best,
    optimize_placement self algorithm g = (Finished placement, self', g')
    /\ episode_rewards self' = episode_rewards self ++ new
    /\ length new = num_episodes self
    /\ calculate_reward self placement = Return (Fin best)
    /\ best ∈ new
    /\ (forall r, r ∈ new -> r <= best)
    /\ same_config self self'
    /\ (algorithm = "ucb" -> ucb_inv (ucb_bandit self')).
Proof.
  exact (optimize_run self algorithm g Hstations Hepisodes Hcenters Hinv).
Qed.

Lemma optimize_placement_succeeds_witness :
  (1 <= num_stations StationPlacementRL.default)%nat
  /\ (1 <= num_episodes StationPlacementRL.default)%nat
  /\ demand_centers StationPlacementRL.default <> []
  /\ exists placement self' g' new best,
       optimize_placement StationPlacementRL.default "ucb" zero_rng
       = (Finished placement, self', g')
       /\ episode_rewards self' = episode_rewards StationPlacementRL.default ++ new
       /\ length new = num_episodes StationPlacementRL.default
       /\ calculate_reward StationPlacementRL.default placement = Return (Fin best)
       /\ best ∈ new
       /\ (forall r, r ∈ new -> r <= best)
       /\ same_config StationPlacementRL.default self'
       /\ ("ucb" = "ucb" -> ucb_inv (ucb_bandit self')).
Proof.
  assert (H1 : (1 <= num_stations StationPlacementRL.default)%nat) by (simpl; lia).
  assert (H2 : (1 <= num_episodes StationPlacementRL.default)%nat) by (simpl; lia).
  assert (H3 : demand_centers StationPlacementRL.default <> []) by discriminate.
  assert (H4 : "ucb" = "ucb" -> ucb_inv (ucb_bandit StationPlacementRL.default)).
  { intros _. split; [reflexivity|]. intros id. reflexivity. }
  split; [exact H1|]. split; [exact H2|]. split; [exact H3|].
  apply (optimize_placement_succeeds StationPlacementRL.default "ucb" zero_rng
           H1 H2 H3 H4).
Defined.

Lemma empty_pool (self : StationPlacementRL.t) (g : rng) :
  num_stations self = 0%nat -> generate_candidate_placements self g = ([], g).
Proof.
  intros H0. unfold generate_candidate_placements. rewrite H0. reflexivity.
Qed.

(** X27: a run with no episode, or with a station count of 0, fails with a
    [TypeError] ([len(None)] in the final log line, [None['type']] in the
    first episode) and leaves the episode log as it was. *)
Theorem optimize_placement_degenerate (self : StationPlacementRL.t)
    (algorithm : string) (g : rng)
    (Hzero : num_episodes self = 0%nat \/ num_stations self = 0%nat) :
  exists self' g',
    optimize_placement self algorithm g = (Failed TypeError, self', g')
    /\ episode_rewards self' = episode_rewards self.
Proof.
  unfold optimize_placement.
  destruct (num_episodes self) as [|k] eqn:Ek.
  - destruct (generate_candidate_placements self g) as [candidates g1].
    simpl. eauto.
  - destruct Hzero as [Hz|Hz]; [discriminate|].
    rewrite (empty_pool self g Hz).
    cbn [episodes]. unfold episode, bandit_select. cbn [ls_self ls_rng].
    destruct (decide (algorithm = "ucb")); simpl; eauto.
Qed.

Lemma optimize_placement_degenerate_witness :
  (num_episodes (init 25 0) = 0%nat \/ num_stations (init 25 0) = 0%nat)
  /\ exists self' g',
       optimize_placement (init 25 0) "ucb" zero_rng = (Failed TypeError, self', g')
       /\ episode_rewards self' = episode_rewards (init 25 0).
Proof.
  assert (H : num_episodes (init 25 0) = 0%nat \/ num_stations (init 25 0) = 0%nat)
    by (left; reflexivity).
  split; [exact H|].
  apply (optimize_placement_degenerate (init 25 0) "ucb" zero_rng H).
Defined.

Lemma elem_of_replicate_eq {A : Type} (x y : A) (n : nat) : x ∈ replicate n y -> x = y.
Proof.
  induction n as [|n IH]; simpl; intros H; [inversion H|].
  apply elem_of_cons in H as [->|H]; auto.
Qed.

(** X28: without demand centers (and with at least one station and one
    episode) a run fails in its first episode with a [ZeroDivisionError]:
    the pool then holds grid and random arms only, every placement is
    non-empty, and the reward divides by the number of demand centers. *)
Theorem optimize_placement_no_centers (self : StationPlacementRL.t)
    (algorithm : string) (g : rng)
    (Hstations : (1 <= num_stations self)%nat)
    (Hepisodes : (1 <= num_episodes self)%nat)
    (Hcenters : demand_centers self = [])
    (Hinv : algorithm = "ucb" -> ucb_inv (ucb_bandit self)) :
  exists self' g',
    optimize_placement self algorithm g = (Failed ZeroDivisionError, self', g')
    /\ episode_rewards self' = episode_rewards self.
Proof.
  unfold optimize_placement.
  pose proof (generated_pool_nonempty self g Hstations) as Hpool.
  pose proof (generated_kinds self g) as Hkinds.
  rewrite Hcenters in Hkinds. simpl length in Hkinds.
  rewrite Nat.min_0_r in Hkinds. simpl in Hkinds.
  destruct (generate_candidate_placements self g) as [candidates g1].
  cbn [fst] in Hpool, Hkinds.
  destruct (num_episodes self) as [|k]; [lia|].
  cbn [episodes]. unfold episode. cbn [ls_self ls_rng].
  destruct (bandit_select_ok self algorithm candidates g1 Hpool Hinv)
    as (arm & self1 & g2 & Hsel & Harm & Hcfg1 & Hlog1 & _).
  rewrite Hsel.
  destruct (placement_length self1 arm g2) as (placement & g3 & Hmade & Hlen).
  rewrite Hmade.
  assert (Hkind : arm_type arm = grid \/ arm_type arm = random).
  { assert (Hin : arm_type arm ∈ arm_type <$> candidates)
      by (apply list_elem_of_fmap; eauto).
    rewrite Hkinds in Hin. apply elem_of_app in Hin as [Hin|Hin];
      apply elem_of_replicate_eq in Hin; auto. }
  destruct Hcfg1 as (C1 & _ & _ & C4).
  assert (Hne : placement <> []).
  { intros E. rewrite E in Hlen. simpl in Hlen.
    destruct Hkind as [Hk|Hk]; rewrite Hk in Hlen; lia. }
  destruct placement as [|s rest]; [congruence|].
  rewrite calculate_reward_no_centers by congruence.
  exists self1, g3. split; [reflexivity|exact Hlog1].
Qed.

Lemma optimize_placement_no_centers_witness :
  let self := {| num_stations := 2; num_episodes := 1;
                 city_bounds := bhubaneswar_bounds;
                 ucb_bandit := UCB_Bandit.default;
                 epsilon_bandit := EpsilonGreedy_Bandit.default;
                 demand_centers := []; episode_rewards := [] |} in
  (1 <= num_stations self)%nat
  /\ (1 <= num_episodes self)%nat
  /\ demand_centers self = []
  /\ exists self' g',
       optimize_placement self "epsilon_greedy" zero_rng
       = (Failed ZeroDivisionError, self', g')
       /\ episode_rewards self' = episode_rewards self.
Proof.
  cbv zeta.
  split; [simpl; lia|]. split; [simpl; lia|]. split; [reflexivity|].
  apply optimize_placement_no_centers.
  - simpl. lia.
  - simpl. lia.
  - reflexivity.
  - intros H. discriminate H.
Defined.

(** No run ends outside the model: the reward is never a non-finite float. *)
Lemma episode_representable (algorithm : string) (candidates : list Arm)
    (st : loop_state) : (episode algorithm candidates st).1.1 <> Unrepresentable.
Proof.
  unfold episode.
  destruct (bandit_select _ _ _ _) as [[sel s1] g1].
  destruct sel as [selected|e]; [|discriminate].
  destruct (_create_placement_from_arm s1 selected g1) as [made g2].
  destruct made as [placement|e]; [|discriminate].
  destruct selected as [arm|]; [|discriminate].
  pose proof (calculate_reward_outcome s1 placement) as Hr.
  destruct (calculate_reward s1 placement) as [[reward|]|e]; try discriminate.
  destruct placement; [discriminate|]. destruct (demand_centers s1); discriminate.
Qed.

Lemma optimize_representable (self : StationPlacementRL.t) (algorithm : string)
    (g : rng) : (optimize_placement self algorithm g).1.1 <> Unrepresentable.
Proof.
  unfold optimize_placement.
  destruct (generate_candidate_placements self g) as [candidates g1].
  generalize {| ls_self := self; ls_rng := g1; best_reward := None;
                best_placement := None |}.
  induction (num_episodes self) as [|n IH]; intros st.
  - simpl. destruct (best_placement st); discriminate.
  - simpl. pose proof (episode_representable algorithm candidates st) as Hep.
    destruct (episode algorithm candidates st) as [[res s0] g0].
    destruct res as [st0| |]; [apply IH|discriminate|].
    exfalso. apply Hep. reflexivity.
Qed.

End LoopFacts.

(** ** Epsilon over a run, and the exported average *)

Section RunFacts.
Local Open Scope R_scope.

Lemma decay_n_shift (n : nat) (b : EpsilonGreedy_Bandit.t) :
  decay_n (S n) b = decay_n n (EpsilonGreedy_Bandit.decay_epsilon b).
Proof.
  unfold decay_n. induction n as [|n IH]; [reflexivity|].
  simpl in *. rewrite IH. reflexivity.
Qed.

Lemma decay_n_reads (n : nat) (b b' : EpsilonGreedy_Bandit.t) :
  EpsilonGreedy_Bandit.epsilon b' = EpsilonGreedy_Bandit.epsilon b ->
  EpsilonGreedy_Bandit.epsilon_decay b' = EpsilonGreedy_Bandit.epsilon_decay b ->
  EpsilonGreedy_Bandit.epsilon (decay_n n b')
  = EpsilonGreedy_Bandit.epsilon (decay_n n b)
  /\ EpsilonGreedy_Bandit.epsilon_decay (decay_n n b')
     = EpsilonGreedy_Bandit.epsilon_decay (decay_n n b).
Proof.
  intros He Hd. induction n as [|n [IH1 IH2]]; [auto|].
  rewrite !decay_n_S. simpl. rewrite IH1, IH2. auto.
Qed.

Lemma eps_select_keeps_decay (b : EpsilonGreedy_Bandit.t) (arms : list Arm) (g : rng) :
  EpsilonGreedy_Bandit.epsilon_decay (EpsilonGreedy_Bandit.select_arm b arms g).1.2
  = EpsilonGreedy_Bandit.epsilon_decay b.
Proof.
  destruct arms as [|arm0 rest]; [reflexivity|].
  assert (Hpool : arm0 :: rest <> []) by discriminate.
  destruct (Rlt_dec (random_random g).1 (EpsilonGreedy_Bandit.epsilon b)) as [Hu|Hu].
  - rewrite select_arm_explore_branch by assumption.
    destruct (random_choice _ _). reflexivity.
  - rewrite select_arm_exploit_branch by assumption. cbv zeta.
    destruct (EpsilonGreedy_Bandit.exploit (arm0 :: rest) _ None) as [best rewards1].
    destruct best as [[a m]|]; [reflexivity|].
    destruct (random_choice _ _). reflexivity.
Qed.

Lemma bandit_select_epsilon (self : StationPlacementRL.t) (algorithm : string)
    (candidates : list Arm) (g : rng) :
  EpsilonGreedy_Bandit.epsilon
    (epsilon_bandit (bandit_select self algorithm candidates g).1.2)
  = EpsilonGreedy_Bandit.epsilon (epsilon_bandit self)
  /\ EpsilonGreedy_Bandit.epsilon_decay
       (epsilon_bandit (bandit_select self algorithm candidates g).1.2)
     = EpsilonGreedy_Bandit.epsilon_decay (epsilon_bandit self).
Proof.
  unfold bandit_select. destruct (decide (algorithm = "ucb")).
  - destruct (UCB_Bandit.select_arm _ _ _) as [[r b] g1]. split; reflexivity.
  - pose proof (eps_select_reads (epsilon_bandit self) candidates g) as (_ & He & _).
    pose proof (eps_select_keeps_decay (epsilon_bandit self) candidates g) as Hd.
    destruct (EpsilonGreedy_Bandit.select_arm _ _ _) as [[r b] g1].
    split; [exact He|exact Hd].
Qed.

Lemma bandit_update_epsilon (self : StationPlacementRL.t) (algorithm : string)
    (arm : Arm) (reward : R) :
  EpsilonGreedy_Bandit.epsilon (epsilon_bandit (bandit_update self algorithm arm reward))
  = EpsilonGreedy_Bandit.epsilon (epsilon_bandit self)
  /\ EpsilonGreedy_Bandit.epsilon_decay
       (epsilon_bandit (bandit_update self algorithm arm reward))
     = EpsilonGreedy_Bandit.epsilon_decay (epsilon_bandit self).
Proof.
  unfold bandit_update. destruct (decide (algorithm = "ucb")); [split; reflexivity|].
  apply update_keeps_epsilon.
Qed.

(** What one finished episode does to epsilon. *)
Lemma episode_epsilon (algorithm : string) (candidates : list Arm)
    (st st1 : loop_state) (self1 : StationPlacementRL.t) (g1 : rng) :
  episode algorithm candidates st = (Finished st1, self1, g1) ->
  let b := epsilon_bandit (ls_self st) in
  let b1 := epsilon_bandit (ls_self st1) in
  EpsilonGreedy_Bandit.epsilon_decay b1 = EpsilonGreedy_Bandit.epsilon_decay b
  /\ EpsilonGreedy_Bandit.epsilon b1
     = if decide (algorithm = "epsilon_greedy")
       then EpsilonGreedy_Bandit.epsilon (EpsilonGreedy_Bandit.decay_epsilon b)
       else EpsilonGreedy_Bandit.epsilon b.
Proof.
  unfold episode.
  pose proof (bandit_select_epsilon (ls_self st) algorithm candidates (ls_rng st))
    as [Hse Hsd].
  destruct (bandit_select (ls_self st) algorithm candidates (ls_rng st))
    as [[sel s1] g0]. cbn [fst snd] in Hse, Hsd.
  destruct sel as [selected|e]; [|discriminate].
  destruct (_create_placement_from_arm s1 selected g0) as [made g2].
  destruct made as [placement|e]; [|discriminate].
  destruct selected as [arm|]; [|discriminate].
  destruct (calculate_reward s1 placement) as [[reward|]|e]; try discriminate.
  pose proof (bandit_update_epsilon s1 algorithm arm reward) as [Hue Hud].
  intros H. inversion H. subst. clear H. cbn [ls_self]. cbv zeta.
  destruct (decide (algorithm = "epsilon_greedy")); simpl.
  - rewrite Hue, Hud, Hse, Hsd. auto.
  - rewrite Hue, Hud, Hse, Hsd. auto.
Qed.

Lemma episodes_epsilon (algorithm : string) (candidates : list Arm) (n : nat) :
  forall (st st1 : loop_state) (self1 : StationPlacementRL.t) (g1 : rng),
    episodes n algorithm candidates st = (Finished st1, self1, g1) ->
    self1 = ls_self st1
    /\ EpsilonGreedy_Bandit.epsilon_decay (epsilon_bandit (ls_self st1))
       = EpsilonGreedy_Bandit.epsilon_decay
           (if decide (algorithm = "epsilon_greedy")
            then decay_n n (epsilon_bandit (ls_self st))
            else epsilon_bandit (ls_self st))
    /\ EpsilonGreedy_Bandit.epsilon (epsilon_bandit (ls_self st1))
       = EpsilonGreedy_Bandit.epsilon
           (if decide (algorithm = "epsilon_greedy")
            then decay_n n (epsilon_bandit (ls_self st))
            else epsilon_bandit (ls_self st)).
Proof.
  induction n as [|n IH]; intros st st1 self1 g1 H.
  - simpl in H. inversion H. subst.
    destruct (decide (algorithm = "epsilon_greedy")); auto.
  - simpl in H.
    destruct (episode algorithm candidates st) as [[res s0] g0] eqn:Hep.
    destruct res as [st0| |]; try discriminate.
    destruct (episode_epsilon _ _ _ _ _ _ Hep) as [Hd He].
    destruct (IH st0 st1 self1 g1 H) as (Hs & IHd & IHe).
    split; [exact Hs|]. rewrite IHd, IHe.
    destruct (decide (algorithm = "epsilon_greedy")) as [Halg|Halg].
    + rewrite decay_n_shift.
      apply (conj (proj2 (decay_n_reads n _ _ He Hd)) (proj1 (decay_n_reads n _ _ He Hd))).
    + rewrite Hd, He. auto.
Qed.


(** X29: over a finished run epsilon follows the decay schedule only for
    the algorithm name ['epsilon_greedy']: it is then the epsilon of as many
    [decay_epsilon] calls as episodes; under any other name (['ucb'], or a
    name that falls through to the epsilon-greedy bandit) it is unchanged. *)
Theorem optimize_placement_epsilon_schedule (self self' : StationPlacementRL.t)
    (algorithm : string) (g g' : rng) (placement : list Station)
    (Hrun : optimize_placement self algorithm g = (Finished placement, self', g')) :
  EpsilonGreedy_Bandit.epsilon (epsilon_bandit self')
  = if decide (algorithm = "epsilon_greedy")
    then EpsilonGreedy_Bandit.epsilon (decay_n (num_episodes self) (epsilon_bandit self))
    else EpsilonGreedy_Bandit.epsilon (epsilon_bandit self).
Proof.
  revert Hrun. unfold optimize_placement.
  destruct (generate_candidate_placements self g) as [candidates g1].
  destruct (episodes _ _ _ _) as [[res s1] g2] eqn:Heps.
  destruct res as [st1| |]; try discriminate.
  destruct (episodes_epsilon _ _ _ _ _ _ _ Heps) as (Hs & _ & He).
  destruct (best_placement st1); [|discriminate].
  intros H. inversion H. subst. rewrite He. cbn [ls_self].
  destruct (decide (algorithm = "epsilon_greedy")); reflexivity.
Qed.

Lemma optimize_placement_epsilon_schedule_witness :
  exists placement self' g',
    optimize_placement StationPlacementRL.default "epsilon_greedy" zero_rng
    = (Finished placement, self', g')
    /\ EpsilonGreedy_Bandit.epsilon (epsilon_bandit self')
       = EpsilonGreedy_Bandit.epsilon
           (decay_n 10 (epsilon_bandit StationPlacementRL.default)).
Proof.
  destruct (optimize_run StationPlacementRL.default "epsilon_greedy" zero_rng)
    as (placement & self' & g' & new & best & Hrun & _).
  - simpl. lia.
  - simpl. lia.
  - discriminate.
  - intros H. discriminate H.
  - exists placement, self', g'. split; [exact Hrun|].
    apply (optimize_placement_epsilon_schedule StationPlacementRL.default self'
             "epsilon_greedy" zero_rng g' placement Hrun).
Defined.

(** X30: when every demand center has weight 1, all three exported metrics
    (coverage, average distance, spread) are the components the reward
    function computes on the same non-empty placement. *)
Theorem exported_metrics_match_unit_weights (self : StationPlacementRL.t)
    (s : Station) (rest : list Station)
    (Hcenters : demand_centers self <> [])
    (Hweights : Forall (fun center => dc_weight center = 1) (demand_centers self)) :
  exists res,
    save_results self (s :: rest) = Return res
    /\ reward_components self (s :: rest)
       = Return (avg_distance (r_metrics res), coverage (r_metrics res),
                 spread (r_metrics res)).
Proof.
  destruct (save_results_nonempty self s rest Hcenters) as (res & Hres & _ & Hm).
  exists res. split; [exact Hres|].
  rewrite reward_components_nonempty by exact Hcenters.
  rewrite Hm. cbn [avg_distance coverage spread].
  rewrite (plain_avg_is_unit_weighted _ _ Hweights). reflexivity.
Qed.

Lemma exported_metrics_match_unit_weights_witness :
  demand_centers unit_weight_system <> []
  /\ Forall (fun center => dc_weight center = 1) (demand_centers unit_weight_system)
  /\ exists res,
       save_results unit_weight_system one_station = Return res
       /\ reward_components unit_weight_system one_station
          = Return (avg_distance (r_metrics res), coverage (r_metrics res),
                    spread (r_metrics res)).
Proof.
  assert (H1 : demand_centers unit_weight_system <> []) by discriminate.
  assert (H2 : Forall (fun center => dc_weight center = 1)
                      (demand_centers unit_weight_system)).
  { simpl. repeat constructor. }
  split; [exact H1|]. split; [exact H2|].
  apply (exported_metrics_match_unit_weights unit_weight_system city_center_station
           [] H1 H2).
Defined.

End RunFacts.
